(** * Buffered CDC relay: the durable buffer, the Kafka sync worker and the
    scheduler's cleanup task, embedded from the Go sources.

    - [buffer]    : src/internal/buffer/buffer.go (and the [delayedUntil]
                    revision of the same package, src/unnamed/part_003);
    - [config]    : src/internal/config/config.go;
    - [sync]      : src/internal/sync/kafka.go (both revisions in that file);
    - [scheduler] : the scheduler package in src/unnamed/part_000.

    The bbolt bucket is modelled as an association list kept in ascending
    byte-wise key order, which is the order a bbolt cursor walks; [Put],
    [Get] and [Delete] are total (I/O failures and bbolt's limits on key and
    value size are left out), and the run is single-threaded.  The
    encoding/json library is outside the repository and is taken as an
    interface ([Codec]); what is assumed about it is stated as hypotheses of
    the sections that need it. *)

From Stdlib Require Import ZArith List String Ascii Bool Lia Sorted.
From Stdlib.Strings Require Import Byte.
Import ListNotations.
Local Open Scope Z_scope.

(** ** Go integers, time.Time and the [%d] verb *)

Definition bytes := list byte.

(** A Go [int]/[int64] result: the mathematical value reduced to 64 bits,
    two's complement. *)
Definition wrap64 (z : Z) : Z := (z + 2 ^ 63) mod 2 ^ 64 - 2 ^ 63.

Definition int_add (a b : Z) : Z := wrap64 (a + b).

Module time.

(** A [time.Time] is represented by the instant it denotes, in nanoseconds
    since the Unix epoch; [Before] and [Equal] compare instants. *)
Definition Time := Z.
Definition Duration := Z.

Definition Second : Duration := 1000000000.
Definition Minute : Duration := 60 * Second.
Definition Hour : Duration := 60 * Minute.

Definition Add (t : Time) (d : Duration) : Time := t + d.
Definition Before (t u : Time) : bool := t <? u.
Definition Equal (t u : Time) : bool := t =? u.

Definition After (t u : Time) : bool := u <? t.

(** [t.UnixNano()] is an int64. *)
Definition UnixNano (t : Time) : Z := wrap64 t.

End time.

Module strconv.

Definition digitChar (d : Z) : ascii := ascii_of_N (48 + Z.to_N d).

(** The digit loop of [strconv.formatBits] in base 10: digits are produced
    from the least significant one and prepended to what is already there. *)
Fixpoint formatBits (fuel : nat) (u : Z) (acc : string) : string :=
  match fuel with
  | O => acc
  | S fuel' =>
      if u <? 10 then String (digitChar u) acc
      else formatBits fuel' (u / 10) (String (digitChar (u mod 10)) acc)
  end.

(** [fmt.Sprintf("%d", i)] for an int64 [i]; 20 digits are enough for 2^63. *)
Definition formatInt (i : Z) : string :=
  if i <? 0 then String "-" (formatBits 20 (- i) EmptyString)
  else formatBits 20 i EmptyString.

(** Fixed-width decimal digits, most significant first (used to reason about
    [formatBits], not by the program). *)
Fixpoint digitsN (n : nat) (u : Z) : string :=
  match n with
  | O => EmptyString
  | S n' => String (digitChar ((u / 10 ^ Z.of_nat n') mod 10)) (digitsN n' u)
  end.

(** The number a string of decimal digits denotes (used to read a key back,
    not by the program). *)
Definition digitOf (c : ascii) : Z := Z.of_N (N_of_ascii c) - 48.

Fixpoint valueOf (s : string) (acc : Z) : Z :=
  match s with
  | EmptyString => acc
  | String c s' => valueOf s' (acc * 10 + digitOf c)
  end.

Definition isDigit (c : ascii) : bool :=
  (48 <=? N_of_ascii c)%N && (N_of_ascii c <=? 57)%N.

Fixpoint allDigits (s : string) : bool :=
  match s with
  | EmptyString => true
  | String c s' => isDigit c && allDigits s'
  end.

(** The characters [%d] can print. *)
Definition headChar (c : ascii) : bool := isDigit c || Ascii.eqb c "-".

Fixpoint headChars (s : string) : bool :=
  match s with
  | EmptyString => true
  | String c s' => headChar c && headChars s'
  end.

End strconv.

(** ** package buffer *)

Module buffer.

Record Event := mkEvent {
  ID : string;
  Operation : string;
  Timestamp : time.Time;
  Data : string;               (* the payload, an opaque JSON object text *)
  Retries : Z;
  RequestedReadyTime : option time.Time  (* [DelayedUntil] in part_003 *)
}.

Definition withRetries (retries : Z) (e : Event) : Event :=
  mkEvent (ID e) (Operation e) (Timestamp e) (Data e) retries
          (RequestedReadyTime e).

(** [json.Marshal] and [json.Unmarshal] at type [Event]; [None] is a non-nil
    error. *)
Class Codec := {
  marshal : Event -> option bytes;
  unmarshal : bytes -> option Event
}.

Inductive error :=
| ErrMarshal        (* "failed to marshal event: ..." / json.Marshal error *)
| ErrUnmarshal      (* json.Unmarshal error *)
| ErrNotFound.      (* "event not found" *)

(** [fmt.Sprintf("%d_%s", timestamp.UnixNano(), eventID)] *)
Definition key (eventID : string) (timestamp : time.Time) : string :=
  (strconv.formatInt (time.UnixNano timestamp) ++ "_" ++ eventID)%string.

Definition eventKey (e : Event) : string := key (ID e) (Timestamp e).

(** *** The [events] bucket *)

Definition Bucket := list (string * bytes).

Fixpoint Put (k : string) (v : bytes) (b : Bucket) : Bucket :=
  match b with
  | [] => [(k, v)]
  | (k', v') :: rest =>
      match String.compare k k' with
      | Lt => (k, v) :: b
      | Eq => (k, v) :: rest
      | Gt => (k', v') :: Put k v rest
      end
  end.

Fixpoint Get (k : string) (b : Bucket) : option bytes :=
  match b with
  | [] => None
  | (k', v') :: rest => if String.eqb k k' then Some v' else Get k rest
  end.

Fixpoint Remove (k : string) (b : Bucket) : Bucket :=
  match b with
  | [] => []
  | (k', v') :: rest =>
      if String.eqb k k' then Remove k rest else (k', v') :: Remove k rest
  end.

(** [bucket.Stats().KeyN] *)
Definition KeyN (b : Bucket) : Z := Z.of_nat (List.length b).

Definition keys (b : Bucket) : list string := map fst b.

(** The cursor order: keys strictly ascending byte-wise. *)
Definition lt_key (k k' : string) : Prop := String.compare k k' = Lt.
Definition ordered (b : Bucket) : Prop := StronglySorted lt_key (keys b).

Fixpoint orderedb (b : Bucket) : bool :=
  match b with
  | [] => true
  | (k, _) :: rest =>
      match rest with
      | [] => true
      | (k', _) :: _ => String.ltb k k' && orderedb rest
      end
  end.

Section Operations.
Context {codec : Codec}.

(** *** Store, lines 48-60 *)
Definition Store (event : Event) (b : Bucket) : Bucket * option error :=
  match marshal event with
  | None => (b, Some ErrMarshal)
  | Some data => (Put (eventKey event) data b, None)
  end.

(** *** GetBatch, lines 62-83: the cursor loop with its counter *)
Fixpoint scanBatch (batchSize : Z) (recs : Bucket) (count : Z)
    (events : list Event) : list Event :=
  match recs with
  | [] => events
  | (_, value) :: rest =>
      if count <? batchSize then
        match unmarshal value with
        | None => scanBatch batchSize rest count events
        | Some event => scanBatch batchSize rest (count + 1) (events ++ [event])
        end
      else events
  end.

Definition GetBatch (batchSize : Z) (b : Bucket) : list Event * option error :=
  (scanBatch batchSize b 0 [], None).

(** *** GetReadyEvents, buffer.go lines 85-117 *)
Definition isReady (now : time.Time) (event : Event) : bool :=
  match RequestedReadyTime event with
  | None => true
  | Some readyTime =>
      let threshold := time.Add now (30 * time.Minute) in
      time.Before readyTime threshold || time.Equal readyTime threshold
  end.

Fixpoint scanReady (now : time.Time) (batchSize : Z) (recs : Bucket)
    (count : Z) (events : list Event) : list Event :=
  match recs with
  | [] => events
  | (_, value) :: rest =>
      if count <? batchSize then
        match unmarshal value with
        | None => scanReady now batchSize rest count events
        | Some event =>
            if isReady now event
            then scanReady now batchSize rest (count + 1) (events ++ [event])
            else scanReady now batchSize rest count events
        end
      else events
  end.

Definition GetReadyEvents (now : time.Time) (batchSize : Z) (b : Bucket)
    : list Event * option error :=
  (scanReady now batchSize b 0 [], None).

(** *** GetReadyEvents in the [delayedUntil] revision, part_003 lines 93-124 *)
Definition isReady_delayed (now : time.Time) (event : Event) : bool :=
  match RequestedReadyTime event with
  | None => true
  | Some delayedUntil =>
      time.Before delayedUntil now || time.Equal delayedUntil now
  end.

Fixpoint scanReady_delayed (now : time.Time) (batchSize : Z) (recs : Bucket)
    (count : Z) (events : list Event) : list Event :=
  match recs with
  | [] => events
  | (_, value) :: rest =>
      if count <? batchSize then
        match unmarshal value with
        | None => scanReady_delayed now batchSize rest count events
        | Some event =>
            if isReady_delayed now event
            then scanReady_delayed now batchSize rest (count + 1)
                   (events ++ [event])
            else scanReady_delayed now batchSize rest count events
        end
      else events
  end.

(** Line 102, [make([]*Event, 0, batchSize)], panics on a negative capacity;
    [None] stands for that panic. *)
Definition GetReadyEvents_delayed (now : time.Time) (batchSize : Z)
    (b : Bucket) : option (list Event * option error) :=
  if batchSize <? 0 then None
  else Some (scanReady_delayed now batchSize b 0 [], None).

(** *** Delete, lines 119-125 *)
Definition Delete (eventID : string) (timestamp : time.Time) (b : Bucket)
    : Bucket * option error :=
  (Remove (key eventID timestamp) b, None).

(** *** UpdateRetries, lines 127-150 *)
Definition UpdateRetries (eventID : string) (timestamp : time.Time)
    (retries : Z) (b : Bucket) : Bucket * option error :=
  let k := key eventID timestamp in
  match Get k b with
  | None => (b, Some ErrNotFound)
  | Some value =>
      match unmarshal value with
      | None => (b, Some ErrUnmarshal)
      | Some event =>
          match marshal (withRetries retries event) with
          | None => (b, Some ErrMarshal)
          | Some data => (Put k data b, None)
          end
      end
  end.

(** *** Count, lines 152-160 *)
Definition Count (b : Bucket) : Z * option error := (KeyN b, None).

(** The events a full cursor walk decodes, in key order. *)
Fixpoint decoded (b : Bucket) : list Event :=
  match b with
  | [] => []
  | (_, value) :: rest =>
      match unmarshal value with
      | None => decoded rest
      | Some event => event :: decoded rest
      end
  end.

(** Every record sits under the key computed from the event it decodes to;
    [Store] and [UpdateRetries] establish and keep this. *)
Definition keyed (b : Bucket) : Prop :=
  forall k v e, In (k, v) b -> unmarshal v = Some e -> k = eventKey e.

Definition keyedb (b : Bucket) : bool :=
  forallb (fun '(k, v) =>
             match unmarshal v with
             | None => true
             | Some e => String.eqb k (eventKey e)
             end) b.

(** The effective batch length: a batch is closed as soon as it holds
    [batchSize] events, and never before it holds one. *)
Definition bulkLen (batchSize : Z) : nat := Nat.max 1 (Z.to_nat batchSize).

(** Every record decodes to one of [events] and sits under its key. *)
Definition holds (events : list Event) (b : Bucket) : Prop :=
  forall k v, In (k, v) b ->
              exists e, In e events /\ unmarshal v = Some e /\ k = eventKey e.

(** A run of [Store] calls from a given bucket; a failed call stores nothing. *)
Definition storeAll (events : list Event) (b : Bucket) : Bucket :=
  fold_left (fun acc e => fst (Store e acc)) events b.

(** *** GetReadyEventsBulk, part_003 lines 127-171

    The state of the loop is the batches closed so far, the batch being
    filled, its counter and the number of closed batches. *)
Fixpoint scanBulk (now : time.Time) (batchSize numBatches : Z) (recs : Bucket)
    (batches : list (list Event)) (currentBatch : list Event)
    (count batchCount : Z) : list (list Event) * list Event * Z :=
  match recs with
  | [] => (batches, currentBatch, batchCount)
  | (_, value) :: rest =>
      if batchCount <? numBatches then
        match unmarshal value with
        | None =>
            scanBulk now batchSize numBatches rest batches currentBatch
              count batchCount
        | Some event =>
            if isReady_delayed now event then
              let currentBatch' := currentBatch ++ [event] in
              let count' := count + 1 in
              if batchSize <=? count' then
                scanBulk now batchSize numBatches rest
                  (batches ++ [currentBatch']) [] 0 (batchCount + 1)
              else
                scanBulk now batchSize numBatches rest batches currentBatch'
                  count' batchCount
            else
              scanBulk now batchSize numBatches rest batches currentBatch
                count batchCount
        end
      else (batches, currentBatch, batchCount)
  end.

(** Both [make] calls (lines 135-136) panic on a negative capacity; [None]
    stands for that panic. *)
Definition GetReadyEventsBulk (now : time.Time) (batchSize numBatches : Z)
    (b : Bucket) : option (list (list Event) * option error) :=
  if (numBatches <? 0) || (batchSize <? 0) then None
  else
    let '(batches, currentBatch, batchCount) :=
      scanBulk now batchSize numBatches b [] [] 0 0 in
    if (0 <? Z.of_nat (List.length currentBatch)) && (batchCount <? numBatches)
    then Some (batches ++ [currentBatch], None)
    else Some (batches, None).

End Operations.

End buffer.

(** ** package config: the fields of [KafkaConfig] the sync worker reads *)

Module config.

Record KafkaConfig := mkKafkaConfig {
  Retries : Z;       (* KAFKA_RETRIES, default 3 *)
  BatchSize : Z      (* KAFKA_BATCH_SIZE, default 1000 *)
}.

End config.

(** ** The library calls of the connectivity probe *)

Module strings.

(** [strings.Split(s, sep)] for a separator of one character: the pieces
    between the separators, at least one. *)
Fixpoint Split (s : string) (sep : ascii) : list string :=
  match s with
  | EmptyString => [EmptyString]
  | String c s' =>
      if Ascii.eqb c sep then EmptyString :: Split s' sep
      else
        match Split s' sep with
        | [] => [String c EmptyString]
        | part :: parts => String c part :: parts
        end
  end.

Fixpoint IndexByte (s : string) (c : ascii) : bool :=
  match s with
  | EmptyString => false
  | String c' s' => Ascii.eqb c' c || IndexByte s' c
  end.

End strings.

Module net.

(** [net.JoinHostPort]: a host with a colon in it is put in brackets. *)
Definition JoinHostPort (host port : string) : string :=
  if strings.IndexByte host ":"
  then ("[" ++ host ++ "]:" ++ port)%string
  else (host ++ ":" ++ port)%string.

End net.

(** ** package monitor *)

Module monitor.

(** *** connectivity.go *)

Inductive ConnectivityStatus := StatusOffline | StatusOnline.

Definition status_eqb (s s' : ConnectivityStatus) : bool :=
  match s, s' with
  | StatusOffline, StatusOffline | StatusOnline, StatusOnline => true
  | _, _ => false
  end.

(** A watcher is a channel of capacity 1: it holds one status or nothing. *)
Definition channel := option ConnectivityStatus.

Record ConnectivityMonitor := mkMonitor {
  status : ConnectivityStatus;
  watchers : list channel
}.

(** NewConnectivityMonitor, lines 29-35. *)
Definition NewConnectivityMonitor : ConnectivityMonitor :=
  mkMonitor StatusOffline [].

(** notifyWatchers, lines 105-112: a send that would block is dropped. *)
Fixpoint notify (s : ConnectivityStatus) (ws : list channel) : list channel :=
  match ws with
  | [] => []
  | watcher :: rest =>
      match watcher with
      | None => Some s
      | Some pending => Some pending
      end :: notify s rest
  end.

Definition notifyWatchers (cm : ConnectivityMonitor) : ConnectivityMonitor :=
  mkMonitor (status cm) (notify (status cm) (watchers cm)).

(** checkConnectivity, lines 53-69, given what the probe found. *)
Definition checkConnectivity (isOnline : bool) (cm : ConnectivityMonitor)
    : ConnectivityMonitor :=
  let oldStatus := status cm in
  let cm' := mkMonitor (if isOnline then StatusOnline else StatusOffline)
                       (watchers cm) in
  if negb (status_eqb oldStatus (status cm')) then notifyWatchers cm' else cm'.

(** The address dialled for a broker, lines 73-79. *)
Definition address (broker : string) : string :=
  let host := hd EmptyString (strings.Split broker ":") in
  let port :=
    match strings.Split broker ":" with
    | _ :: p :: _ => p
    | _ => "9092"%string
    end in
  net.JoinHostPort host port.

(** checkKafkaConnectivity, lines 71-87; [dial addr] tells whether
    [net.DialTimeout] to [addr] succeeds. *)
Fixpoint checkKafkaConnectivity (dial : string -> bool)
    (brokers : list string) : bool :=
  match brokers with
  | [] => false
  | broker :: rest =>
      if dial (address broker) then true
      else checkKafkaConnectivity dial rest
  end.

(** IsOnline, lines 89-93. *)
Definition IsOnline (cm : ConnectivityMonitor) : bool :=
  status_eqb (status cm) StatusOnline.

(** Subscribe, lines 95-103: the new channel is seeded with the current
    status; the result names it by its position. *)
Definition Subscribe (cm : ConnectivityMonitor) : ConnectivityMonitor * nat :=
  (mkMonitor (status cm) (watchers cm ++ [Some (status cm)]),
   List.length (watchers cm)).

(** [<-ch] on the watcher numbered [i]: [None] when the receive would block. *)
Definition receive (i : nat) (cm : ConnectivityMonitor)
    : option (ConnectivityStatus * ConnectivityMonitor) :=
  match nth_error (watchers cm) i with
  | Some (Some s) =>
      Some (s, mkMonitor (status cm)
                 (firstn i (watchers cm) ++ None :: skipn (S i) (watchers cm)))
  | _ => None
  end.

(** What can happen next while [WaitForOnline] sits in its select: the
    monitor finishes a probe, the context is cancelled, or the waiter gets to
    receive from its channel. *)
Inductive waitEvent := Probe (isOnline : bool) | Done | Recv.

Inductive waitResult :=
| ReturnedNil        (* return nil *)
| ReturnedCtxErr     (* return ctx.Err() *)
| Waiting.           (* still in the loop when the events run out *)

(** The loop of lines 128-137. *)
Fixpoint waitLoop (ch : nat) (events : list waitEvent)
    (cm : ConnectivityMonitor) : waitResult * ConnectivityMonitor :=
  match events with
  | [] => (Waiting, cm)
  | Probe isOnline :: rest => waitLoop ch rest (checkConnectivity isOnline cm)
  | Done :: _ => (ReturnedCtxErr, cm)
  | Recv :: rest =>
      match receive ch cm with
      | None => waitLoop ch rest cm
      | Some (StatusOnline, cm') => (ReturnedNil, cm')
      | Some (StatusOffline, cm') => waitLoop ch rest cm'
      end
  end.

(** WaitForOnline, lines 121-138; [early] are the probes that complete
    between the [IsOnline] check and [Subscribe]. *)
Definition WaitForOnline (early : list bool) (events : list waitEvent)
    (cm : ConnectivityMonitor) : waitResult * ConnectivityMonitor :=
  if IsOnline cm then (ReturnedNil, cm)
  else
    let cm1 := fold_left (fun acc o => checkConnectivity o acc) early cm in
    let '(cm2, ch) := Subscribe cm1 in
    waitLoop ch events cm2.

(** *** The change-stream watcher (part_004) *)

(** An [interface{}] value as far as the watcher looks at it. *)
Inductive Value := VNil | VString (s : string) | VOther (repr : string).

(** A [map[string]interface{}]. *)
Definition Document := list (string * Value).

Fixpoint lookup (k : string) (d : Document) : option Value :=
  match d with
  | [] => None
  | (k', v) :: rest => if String.eqb k k' then Some v else lookup k rest
  end.

Record ChangeStreamEvent := mkChange {
  ID : Value;
  OperationType : string;
  FullDocument : option Document;
  DocumentKey : Document;
  ClusterTime : Value
}.

Inductive error :=
| StoreDelayedFailed (cause : buffer.error)    (* "failed to store delayed event in buffer: %w" *)
| StoreImmediateFailed (cause : buffer.error). (* "failed to store immediate event in buffer: %w" *)

Inductive logLine :=
| StoredDelayed      (* "Stored delayed change event: ..." *)
| StoredImmediate.   (* "Stored immediate change event: ..." *)

Section Watcher.
Context {codec : buffer.Codec}.
Variable parseRFC3339 : string -> option time.Time. (* time.Parse(time.RFC3339, s) *)
Variable sprintv : Value -> string.                 (* fmt.Sprintf("%v", v) *)
Variable dataOf : ChangeStreamEvent -> string.      (* the Data map, lines 101-106 *)

(** Lines 83-94. *)
Definition requestedReadyTime (event : ChangeStreamEvent) : option time.Time :=
  match FullDocument event with
  | None => None
  | Some doc =>
      match lookup "requestedReadyTime" doc with
      | Some (VString readyTimeStr) => parseRFC3339 readyTimeStr
      | _ => None
      end
  end.

(** Lines 96-108; [now] is the [time.Now()] of line 99. *)
Definition bufferEvent (now : time.Time) (event : ChangeStreamEvent)
    : buffer.Event :=
  buffer.mkEvent (sprintv (ID event)) (OperationType event) now (dataOf event)
    0 (requestedReadyTime event).

(** Lines 110-118; [now] is the [time.Now()] of line 114. *)
Definition shouldDelay (now : time.Time) (event : ChangeStreamEvent) : bool :=
  match requestedReadyTime event with
  | None => false
  | Some readyTime => time.After readyTime (time.Add now (30 * time.Minute))
  end.

(** handleChangeEvent, lines 82-137. *)
Definition handleChangeEvent (now1 now2 : time.Time)
    (event : ChangeStreamEvent) (b : buffer.Bucket)
    : buffer.Bucket * option error * list logLine :=
  let e := bufferEvent now1 event in
  if shouldDelay now2 event then
    match buffer.Store e b with
    | (b', Some err) => (b', Some (StoreDelayedFailed err), [])
    | (b', None) => (b', None, [StoredDelayed])
    end
  else
    match buffer.Store e b with
    | (b', Some err) => (b', Some (StoreImmediateFailed err), [])
    | (b', None) => (b', None, [StoredImmediate])
    end.

End Watcher.

End monitor.

(** ** package sync: KafkaSync.syncBatch and KafkaSync.writeWithRetry *)

Module sync.

Import buffer.

(** kafka.Message *)
Record Message := mkMessage {
  Key : bytes;
  Value : bytes;
  Headers : list (string * bytes)
}.

Inductive error :=
| CtxErr                              (* ctx.Err() *)
| AfterRetries (retries : Z)          (* "failed to write to Kafka after %d retries" *)
| WriteFailed (cause : error)         (* "failed to write messages to Kafka: %w" *)
| GetReadyFailed (cause : buffer.error).

(** What the surroundings answer during one call of [syncBatch], indexed by
    the attempt number of the retry loop. *)
Record World := mkWorld {
  acked : nat -> bool;      (* ks.writer.WriteMessages returned nil *)
  online : nat -> bool;     (* ks.connMonitor.IsOnline() after a failed write *)
  cancelled : nat -> bool   (* in the select, ctx.Done() is taken *)
}.

(** The calls a run makes on its collaborators, in program order. *)
Inductive action :=
| GetReady (batchSize : Z)
| Wait (backoff : time.Duration)
| Cancelled
| Write (messages : list Message) (ok : bool)
| BumpRetries (eventID : string) (timestamp : time.Time) (retries : Z)
| Del (eventID : string) (timestamp : time.Time).

Inductive loopExit := Acked | CtxDone | Offline | Exhausted.

(** [backoff *= 2], capped at 30 s (lines 328-331). *)
Definition nextBackoff (backoff : time.Duration) : time.Duration :=
  let doubled := wrap64 (backoff * 2) in
  if 30 * time.Second <? doubled then 30 * time.Second else doubled.

Section Worker.
Context {codec : Codec}.
Variable RFC3339 : time.Time -> string.   (* t.Format(time.RFC3339) *)
Variable cfg : config.KafkaConfig.
Variable world : World.

(** Lines 282-298: events whose encoding fails are skipped. *)
Fixpoint buildMessages (events : list Event) : list Message :=
  match events with
  | [] => []
  | event :: rest =>
      match marshal event with
      | None => buildMessages rest
      | Some value =>
          mkMessage (list_byte_of_string (ID event)) value
            [("operation"%string, list_byte_of_string (Operation event));
             ("timestamp"%string,
              list_byte_of_string (RFC3339 (Timestamp event)))]
          :: buildMessages rest
      end
  end.

(** The loop of lines 322-346; [remaining] is [Retries - attempt]. *)
Fixpoint retryLoop (messages : list Message) (remaining attempt : nat)
    (backoff : time.Duration) (tr : list action) : loopExit * list action :=
  match remaining with
  | O => (Exhausted, tr)
  | S remaining' =>
      let waited :=
        match attempt with
        | O => Some (backoff, tr)
        | S _ =>
            if cancelled world attempt then None
            else Some (nextBackoff backoff, tr ++ [Wait backoff])
        end in
      match waited with
      | None => (CtxDone, tr ++ [Cancelled])
      | Some (backoff', tr1) =>
          if acked world attempt then (Acked, tr1 ++ [Write messages true])
          else
            let tr2 := tr1 ++ [Write messages false] in
            if online world attempt
            then retryLoop messages remaining' (S attempt) backoff' tr2
            else (Offline, tr2)
      end
  end.

(** Lines 348-352: a failed update is logged and the loop goes on. *)
Fixpoint bumpRetries (events : list Event) (b : Bucket) (tr : list action)
    : Bucket * list action :=
  match events with
  | [] => (b, tr)
  | event :: rest =>
      let retries := int_add (Retries event) 1 in
      bumpRetries rest
        (fst (UpdateRetries (ID event) (Timestamp event) retries b))
        (tr ++ [BumpRetries (ID event) (Timestamp event) retries])
  end.

Definition writeWithRetry (messages : list Message) (events : list Event)
    (b : Bucket) (tr : list action) : option error * Bucket * list action :=
  match retryLoop messages (Z.to_nat (config.Retries cfg)) O time.Second tr with
  | (Acked, tr') => (None, b, tr')
  | (CtxDone, tr') => (Some CtxErr, b, tr')
  | (_, tr') =>
      let '(b', tr'') := bumpRetries events b tr' in
      (Some (AfterRetries (config.Retries cfg)), b', tr'')
  end.

(** Lines 309-313. *)
Fixpoint deleteAll (events : list Event) (b : Bucket) (tr : list action)
    : Bucket * list action :=
  match events with
  | [] => (b, tr)
  | event :: rest =>
      deleteAll rest (fst (Delete (ID event) (Timestamp event) b))
        (tr ++ [Del (ID event) (Timestamp event)])
  end.

(** Lines 276-317 (and 78-118), the part both revisions share. *)
Definition syncEvents (events : list Event) (b : Bucket) (tr : list action)
    : option error * Bucket * list action :=
  match events with
  | [] => (None, b, tr)
  | _ :: _ =>
      let messages := buildMessages events in
      match messages with
      | [] => (None, b, tr)
      | _ :: _ =>
          match writeWithRetry messages events b tr with
          | (Some err, b', tr') => (Some (WriteFailed err), b', tr')
          | (None, b', tr') =>
              let '(b'', tr'') := deleteAll events b' tr' in (None, b'', tr'')
          end
      end
  end.

(** syncBatch, lines 270-317. *)
Definition syncBatch (now : time.Time) (b : Bucket)
    : option error * Bucket * list action :=
  let n := config.BatchSize cfg in
  match GetReadyEvents now n b with
  | (_, Some err) => (Some (GetReadyFailed err), b, [GetReady n])
  | (events, None) => syncEvents events b [GetReady n]
  end.

(** syncBatch in the first revision of the file, lines 72-119. *)
Definition syncBatch_r1 (now : time.Time) (b : Bucket)
    : option error * Bucket * list action :=
  let n := config.Retries cfg in
  match GetReadyEvents now n b with
  | (_, Some err) => (Some (GetReadyFailed err), b, [GetReady n])
  | (events, None) => syncEvents events b [GetReady n]
  end.

End Worker.

(** The two handlers of the loop in Start, lines 245-267; the batch numbered
    [i] of the call runs against [worlds i] at the instant [nows i]. *)
Section Loop.
Context {codec : Codec}.
Variable RFC3339 : time.Time -> string.
Variable cfg : config.KafkaConfig.
Variable worlds : nat -> World.
Variable nows : nat -> time.Time.

(** The loop of lines 252-257: the batches left, the number of the next. *)
Fixpoint tickLoop (left i : nat) (b : Bucket) (tr : list action)
    : Bucket * list action :=
  match left with
  | O => (b, tr)
  | S left' =>
      match syncBatch RFC3339 cfg (worlds i) (nows i) b with
      | (Some _, b', tr') => (b', tr ++ tr')
      | (None, b', tr') => tickLoop left' (S i) b' (tr ++ tr')
      end
  end.

(** [case <-ticker.C], lines 249-258. *)
Definition onTick (isOnline : bool) (b : Bucket) : Bucket * list action :=
  if isOnline then tickLoop 3 0 b [] else (b, []).

(** [case status := <-statusCh], lines 259-266. *)
Definition onStatus (status : monitor.ConnectivityStatus) (b : Bucket)
    : Bucket * list action :=
  match status with
  | monitor.StatusOnline =>
      let '(_, b', tr) := syncBatch RFC3339 cfg (worlds O) (nows O) b in
      (b', tr)
  | monitor.StatusOffline => (b, [])
  end.

End Loop.

(** Helpers to read a trace. *)
Definition isWrite (a : action) : bool :=
  match a with Write _ _ => true | _ => false end.
Definition isBump (a : action) : bool :=
  match a with BumpRetries _ _ _ => true | _ => false end.
Definition isDel (a : action) : bool :=
  match a with Del _ _ => true | _ => false end.
Definition isGetReady (a : action) : bool :=
  match a with GetReady _ => true | _ => false end.

Definition noDel (a : action) : Prop := isDel a = false.
Definition waits (tr : list action) : list time.Duration :=
  flat_map (fun a => match a with Wait d => [d] | _ => [] end) tr.

End sync.

(** ** package scheduler: Scheduler.cleanupTask *)

Module scheduler.

Import buffer.

Section Tasks.
Context {codec : Codec}.

(** The condition of line 376. *)
Definition expired (cutoff : time.Time) (event : Event) : bool :=
  (10 <? Retries event) && time.Before (Timestamp event) cutoff.

(** The loop of lines 375-383. *)
Fixpoint cleanupLoop (cutoff : time.Time) (events : list Event) (b : Bucket)
    (cleanedCount : Z) : Bucket * Z :=
  match events with
  | [] => (b, cleanedCount)
  | event :: rest =>
      if expired cutoff event then
        match Delete (ID event) (Timestamp event) b with
        | (b', Some _) => cleanupLoop cutoff rest b' cleanedCount
        | (b', None) => cleanupLoop cutoff rest b' (cleanedCount + 1)
        end
      else cleanupLoop cutoff rest b cleanedCount
  end.

(** cleanupTask, lines 364-390, run at instant [now]. *)
Definition cleanupTask (now : time.Time) (b : Bucket)
    : Bucket * option buffer.error :=
  match GetBatch 1000 b with
  | (_, Some err) => (b, Some err)
  | (events, None) =>
      let cutoff := time.Add now (-24 * time.Hour) in
      (fst (cleanupLoop cutoff events b 0), None)
  end.

(** What a task writes to the log. *)
Inductive logLine :=
| LogStats (count : Z)               (* "Buffer statistics - Events in queue: %d" *)
| LogWarning (count : Z)             (* "WARNING: Buffer contains %d events ..." *)
| LogScheduledReady (eventID : string)  (* "Scheduled event %s is now ready ..." *)
| LogProcessed (count : Z).          (* "Processed %d scheduled events ..." *)

(** bufferStatsTask, lines 354-362. *)
Definition bufferStatsTask (b : Bucket) : list logLine * option buffer.error :=
  match Count b with
  | (_, Some err) => ([], Some err)
  | (count, None) => ([LogStats count], None)
  end.

(** healthCheckTask, lines 392-403. *)
Definition healthCheckTask (b : Bucket) : list logLine * option buffer.error :=
  match Count b with
  | (_, Some err) => ([], Some err)
  | (count, None) =>
      (if 10000 <? count then [LogWarning count] else [], None)
  end.

(** The loop of lines 415-429. *)
Fixpoint processLoop (threshold : time.Time) (events : list Event)
    (processedCount : Z) (logs : list logLine) : Z * list logLine :=
  match events with
  | [] => (processedCount, logs)
  | event :: rest =>
      match RequestedReadyTime event with
      | Some readyTime =>
          if time.After readyTime threshold
          then processLoop threshold rest processedCount logs
          else processLoop threshold rest (processedCount + 1)
                 (logs ++ [LogScheduledReady (ID event)])
      | None => processLoop threshold rest processedCount logs
      end
  end.

(** processScheduledEventsTask, lines 405-436, run at instant [now]. *)
Definition processScheduledEventsTask (now : time.Time) (b : Bucket)
    : list logLine * option buffer.error :=
  match GetBatch 1000 b with
  | (_, Some err) => ([], Some err)
  | (events, None) =>
      let threshold := time.Add now (30 * time.Minute) in
      let '(processedCount, logs) := processLoop threshold events 0 [] in
      (if 0 <? processedCount then logs ++ [LogProcessed processedCount]
       else logs, None)
  end.

End Tasks.

End scheduler.

(** ** A concrete codec

    A small self-delimiting binary encoding of [Event].  It stands in for
    encoding/json where a statement is instantiated on concrete data: it
    meets every assumption made about the JSON codec below. *)

Module wire.

Import buffer.

Fixpoint encPos (p : positive) : bytes :=
  match p with
  | xH => [x02]
  | xO p' => x00 :: encPos p'
  | xI p' => x01 :: encPos p'
  end.

Fixpoint decPos (l : bytes) : option (positive * bytes) :=
  match l with
  | [] => None
  | c :: rest =>
      if Byte.eqb c x02 then Some (xH, rest)
      else
        match decPos rest with
        | None => None
        | Some (p, rest') =>
            if Byte.eqb c x00 then Some (xO p, rest')
            else if Byte.eqb c x01 then Some (xI p, rest')
            else None
        end
  end.

Definition encZ (z : Z) : bytes :=
  match z with
  | Z0 => [x00]
  | Zpos p => x01 :: encPos p
  | Zneg p => x02 :: encPos p
  end.

Definition decZ (l : bytes) : option (Z * bytes) :=
  match l with
  | [] => None
  | c :: rest =>
      if Byte.eqb c x00 then Some (0, rest)
      else
        match decPos rest with
        | None => None
        | Some (p, rest') =>
            if Byte.eqb c x01 then Some (Zpos p, rest')
            else if Byte.eqb c x02 then Some (Zneg p, rest')
            else None
        end
  end.

Fixpoint encString (s : string) : bytes :=
  match s with
  | EmptyString => [x00]
  | String c s' => x01 :: byte_of_ascii c :: encString s'
  end.

Fixpoint decString (l : bytes) : option (string * bytes) :=
  match l with
  | [] => None
  | c :: rest =>
      if Byte.eqb c x00 then Some (EmptyString, rest)
      else
        match rest with
        | [] => None
        | a :: rest' =>
            match decString rest' with
            | None => None
            | Some (s, rest'') =>
                if Byte.eqb c x01 then Some (String (ascii_of_byte a) s, rest'')
                else None
            end
        end
  end.

Definition encOptZ (o : option Z) : bytes :=
  match o with
  | None => [x00]
  | Some z => x01 :: encZ z
  end.

Definition decOptZ (l : bytes) : option (option Z * bytes) :=
  match l with
  | [] => None
  | c :: rest =>
      if Byte.eqb c x00 then Some (None, rest)
      else if Byte.eqb c x01 then
        match decZ rest with
        | None => None
        | Some (z, rest') => Some (Some z, rest')
        end
      else None
  end.

Definition encode (e : Event) : bytes :=
  encString (ID e) ++ encString (Operation e) ++ encZ (Timestamp e)
    ++ encString (Data e) ++ encZ (Retries e)
    ++ encOptZ (RequestedReadyTime e).

Definition decode (l : bytes) : option Event :=
  match decString l with
  | None => None
  | Some (id, l1) =>
  match decString l1 with
  | None => None
  | Some (op, l2) =>
  match decZ l2 with
  | None => None
  | Some (ts, l3) =>
  match decString l3 with
  | None => None
  | Some (data, l4) =>
  match decZ l4 with
  | None => None
  | Some (retries, l5) =>
  match decOptZ l5 with
  | Some (ready, []) => Some (mkEvent id op ts data retries ready)
  | _ => None
  end end end end end end.

#[export] Instance codec : Codec := {| marshal e := Some (encode e); unmarshal := decode |}.

End wire.

(** ** Notions the statements are phrased with *)

Module spec.

Import buffer.

(** "readyAt == nil OR readyAt <= now + READY_WINDOW" *)
Definition readyWithin (window : time.Duration) (now : time.Time)
    (e : Event) : bool :=
  match RequestedReadyTime e with
  | None => true
  | Some readyAt => readyAt <=? now + window
  end.

(** What is assumed of encoding/json at type [Event]: "every field
    round-trips", and an event that was decoded can be encoded again whatever
    its retries count is set to. *)
Definition roundtrip (codec : Codec) : Prop :=
  forall e v, marshal e = Some v -> unmarshal v = Some e.

Definition reencodes (codec : Codec) : Prop :=
  forall v e k, unmarshal v = Some e -> marshal (withRetries k e) <> None.

(** "exponential backoff starting at 1 s, doubling, capped at 30 s": the
    pause after the attempt numbered [i]. *)
Fixpoint backoffAt (i : nat) : time.Duration :=
  match i with
  | O => time.Second
  | S i' => Z.min (2 * backoffAt i') (30 * time.Second)
  end.

(** The pause taken before the attempt numbered [i]; none before the first. *)
Definition pauseBefore (i : nat) : list sync.action :=
  match i with
  | O => []
  | S i' => [sync.Wait (backoffAt i')]
  end.

(** [j] failed write attempts in a row, numbered from [i], with the pauses
    between them. *)
Fixpoint failedFrom (messages : list sync.Message) (i j : nat)
    : list sync.action :=
  match j with
  | O => []
  | S j' =>
      pauseBefore i ++ sync.Write messages false :: failedFrom messages (S i) j'
  end.

(** "for each event call Buffer.UpdateRetries(id, ts, retries+1)" *)
Definition bumps (events : list Event) : list sync.action :=
  map (fun e => sync.BumpRetries (ID e) (Timestamp e) (int_add (Retries e) 1))
      events.

Definition bumped {codec : Codec} (events : list Event) (b : Bucket) : Bucket :=
  fold_left
    (fun acc e =>
       fst (UpdateRetries (ID e) (Timestamp e) (int_add (Retries e) 1) acc))
    events b.

(** "an event is deleted only after downstream ack": wherever the trace has a
    [Delete] of [(id, timestamp)], a write of [messages] was acknowledged
    earlier, the pair names an event of the fetched batch, and that event's
    encoding is the value of one of the messages, under the event's id as
    key. *)
Definition deletedAfterAck {codec : Codec} (events : list Event)
    (messages : list sync.Message) (tr : list sync.action) : Prop :=
  forall pre id ts post,
    tr = pre ++ sync.Del id ts :: post ->
    In (sync.Write messages true) pre /\
    exists e m,
      In e events /\ ID e = id /\ Timestamp e = ts /\
      In m messages /\ sync.Key m = list_byte_of_string id /\
      marshal e = Some (sync.Value m).

(** "ascending ingestion-time order with id as tiebreak" *)
Definition earlier (e e' : Event) : Prop :=
  Timestamp e < Timestamp e' \/
  (Timestamp e = Timestamp e' /\ String.compare (ID e) (ID e') = Lt).

Definition timeOrdered (l : list Event) : Prop := StronglySorted earlier l.

(** Timestamps whose [UnixNano] has 19 decimal digits: every instant from
    2001-09-09T01:46:40Z to the end of the int64 range in 2262. *)
Definition nineteenDigits (t : time.Time) : Prop := 10 ^ 18 <= t < 2 ^ 63.

(** The number of characters [%d] prints for the nanoseconds of [t]. *)
Definition digitCount (t : time.Time) : nat :=
  String.length (strconv.formatInt (time.UnixNano t)).

(** Timestamps at or after the epoch and within the int64 range whose
    [UnixNano] has [w] decimal digits. *)
Definition sameDigits (w : nat) (t : time.Time) : Prop :=
  0 <= t < 2 ^ 63 /\ digitCount t = w.

(** The bucket once the records under the keys of [events] are gone. *)
Definition without (events : list Event) (b : Bucket) : Bucket :=
  fold_left (fun acc e => Remove (eventKey e) acc) events b.

(** The events ready at [now], in key order. *)
Definition readyAt {codec : Codec} (now : time.Time) (b : Bucket) : list Event :=
  filter (isReady now) (decoded b).


End spec.

(** ** Concrete data for the examples *)

Module samples.

Import buffer.

Definition t0 : time.Time := 1700000000000000000.   (* 2023-11-14T22:13:20Z *)

Definition ev (id : string) (ts : time.Time) (retries : Z)
    (ready : option time.Time) : Event :=
  mkEvent id "insert" ts "{}" retries ready.

Definition store1 (e : Event) (b : Bucket) : Bucket :=
  fst (Store (codec := wire.codec) e b).

(** The events a call returned; none when it did not return. *)
Definition selected (r : option (list Event * option error)) : list Event :=
  match r with
  | Some (events, _) => events
  | None => []
  end.

(** Five events with no ready time, one nanosecond apart. *)
Definition five : Bucket :=
  storeAll (codec := wire.codec)
    (map (fun i => ev "e" (t0 + Z.of_nat i) 0 None) (seq 0 5)) [].

(** A downstream that acknowledges every write, a monitor that always reports
    Online, a context that is never cancelled. *)
Definition healthy : sync.World :=
  sync.mkWorld (fun _ => true) (fun _ => true) (fun _ => false).

(** A downstream that rejects every write. *)
Definition rejecting : sync.World :=
  sync.mkWorld (fun _ => false) (fun _ => true) (fun _ => false).

(** The defaults of config.go: KAFKA_RETRIES = 3, KAFKA_BATCH_SIZE = 1000. *)
Definition defaults : config.KafkaConfig := config.mkKafkaConfig 3 1000.

(** A stand-in for [t.Format(time.RFC3339)]. *)
Definition stamp (t : time.Time) : string := strconv.formatInt t.

(** 1001 events that failed 11 times and were ingested 25 hours before [t0],
    one nanosecond apart. *)
Definition stale (i : nat) : Event :=
  ev "e" (t0 - 25 * time.Hour + Z.of_nat i) 11 None.

Definition staleBucket : Bucket :=
  storeAll (codec := wire.codec) (map stale (seq 0 1001)) [].

End samples.

(** ** Byte-wise order on keys *)

Lemma ascii_compare_refl (a : ascii) : Ascii.compare a a = Eq.
Proof. unfold Ascii.compare. apply N.compare_refl. Qed.

Lemma string_compare_refl (s : string) : String.compare s s = Eq.
Proof.
  induction s as [|a s IH]; simpl; [reflexivity|].
  now rewrite ascii_compare_refl.
Qed.

Lemma string_compare_eq (s t : string) : String.compare s t = Eq <-> s = t.
Proof.
  split; [apply String.compare_eq_iff|].
  intros ->. apply string_compare_refl.
Qed.

Lemma string_compare_gt_lt (s t : string) :
  String.compare s t = Gt <-> String.compare t s = Lt.
Proof.
  rewrite (String.compare_antisym t s).
  destruct (String.compare s t); simpl; split; congruence.
Qed.

Lemma string_lt_trans (s t u : string) :
  String.compare s t = Lt -> String.compare t u = Lt -> String.compare s u = Lt.
Proof.
  revert t u.
  induction s as [|a s IH]; intros [|b t] [|c u]; simpl; try congruence.
  unfold Ascii.compare.
  destruct (N.compare_spec (N_of_ascii a) (N_of_ascii b)) as [Hab|Hab|Hab];
    try discriminate;
    destruct (N.compare_spec (N_of_ascii b) (N_of_ascii c)) as [Hbc|Hbc|Hbc];
    try discriminate; intros H1 H2.
  - rewrite Hab, Hbc, N.compare_refl. eapply IH; eassumption.
  - rewrite Hab. now apply N.compare_lt_iff in Hbc as ->.
  - rewrite <- Hbc. now apply N.compare_lt_iff in Hab as ->.
  - assert (Hac : (N_of_ascii a < N_of_ascii c)%N) by lia.
    now apply N.compare_lt_iff in Hac as ->.
Qed.

Lemma string_lt_irrefl (s : string) : String.compare s s <> Lt.
Proof. rewrite string_compare_refl. discriminate. Qed.

Lemma string_eqb_compare (s t : string) :
  String.eqb s t = match String.compare s t with Eq => true | _ => false end.
Proof.
  destruct (String.eqb_spec s t) as [->|Hne].
  - now rewrite string_compare_refl.
  - destruct (String.compare s t) eqn:E; try reflexivity.
    now apply string_compare_eq in E.
Qed.

Lemma string_compare_app (p s t : string) :
  String.compare (p ++ s) (p ++ t) = String.compare s t.
Proof.
  induction p as [|a p IH]; simpl; [reflexivity|].
  now rewrite ascii_compare_refl.
Qed.

(** ** 64-bit wrap-around *)

Lemma wrap64_small (z : Z) : - 2 ^ 63 <= z < 2 ^ 63 -> wrap64 z = z.
Proof.
  intros H. unfold wrap64. rewrite Z.mod_small; lia.
Qed.

(** ** The bucket as an ordered map *)

Section BucketFacts.
Import buffer.

Lemma ordered_nil : ordered [].
Proof. constructor. Qed.

Lemma ordered_inv k v (b : Bucket) :
  ordered ((k, v) :: b) -> ordered b /\ Forall (lt_key k) (keys b).
Proof. intros H. inversion H; subst. now split. Qed.

Lemma ordered_cons k v (b : Bucket) :
  ordered b -> Forall (lt_key k) (keys b) -> ordered ((k, v) :: b).
Proof. intros H1 H2. now constructor. Qed.

Lemma Get_below k (b : Bucket) :
  Forall (lt_key k) (keys b) -> Get k b = None.
Proof.
  induction b as [|[k' v'] b IH]; simpl; intros H; [reflexivity|].
  inversion H; subst.
  rewrite string_eqb_compare. unfold lt_key in *.
  match goal with Hlt : String.compare k k' = Lt |- _ => rewrite Hlt end.
  now apply IH.
Qed.

Lemma Forall_lt_trans k k' (l : list string) :
  lt_key k k' -> Forall (lt_key k') l -> Forall (lt_key k) l.
Proof.
  intros Hlt H. eapply Forall_impl; [|exact H].
  intros a Ha. eapply string_lt_trans; eassumption.
Qed.

Lemma Get_In_keys k (b : Bucket) : Get k b <> None <-> In k (keys b).
Proof.
  induction b as [|[k' v'] b IH]; simpl.
  - split; [congruence | tauto].
  - destruct (String.eqb_spec k k') as [->|Hne].
    + split; [auto | discriminate].
    + rewrite IH. split; [auto | intros [H|H]; congruence].
Qed.

Lemma Get_In k v (b : Bucket) : Get k b = Some v -> In (k, v) b.
Proof.
  induction b as [|[k' v'] b IH]; simpl; [discriminate|].
  destruct (String.eqb_spec k k') as [->|Hne].
  - intros [= ->]. now left.
  - intros H. right. now apply IH.
Qed.

Lemma In_Get k v (b : Bucket) : ordered b -> In (k, v) b -> Get k b = Some v.
Proof.
  induction b as [|[k' v'] b IH]; simpl; [tauto|].
  intros Hord [Heq|Hin].
  - injection Heq as -> ->. now rewrite String.eqb_refl.
  - apply ordered_inv in Hord as [Hord Hall].
    destruct (String.eqb_spec k k') as [->|Hne]; [|now apply IH].
    exfalso. rewrite Forall_forall in Hall.
    apply (string_lt_irrefl k'), Hall, in_map_iff.
    now exists (k', v).
Qed.

Lemma Remove_absent k (b : Bucket) : Get k b = None -> Remove k b = b.
Proof.
  induction b as [|[k' v'] b IH]; simpl; [reflexivity|].
  destruct (String.eqb k k'); [discriminate|].
  intros H. now rewrite IH.
Qed.

Lemma In_Remove k k' v (b : Bucket) :
  In (k', v) (Remove k b) <-> In (k', v) b /\ k' <> k.
Proof.
  induction b as [|[k0 v0] b IH]; simpl; [tauto|].
  destruct (String.eqb_spec k k0) as [->|Hne]; simpl; rewrite IH.
  - split; [tauto|]. intros [[H|H] Hk]; [congruence | tauto].
  - split; [|tauto]. intros [H|H]; [|tauto].
    injection H as <- <-. split; [now left | congruence].
Qed.

Lemma keys_Remove_incl k (b : Bucket) a : In a (keys (Remove k b)) -> In a (keys b).
Proof.
  unfold keys. rewrite !in_map_iff. intros [[k' v] [<- H]].
  apply In_Remove in H. exists (k', v). tauto.
Qed.

Lemma ordered_Remove k (b : Bucket) : ordered b -> ordered (Remove k b).
Proof.
  induction b as [|[k' v'] b IH]; simpl; intros H; [constructor|].
  apply ordered_inv in H as [Hord Hall].
  destruct (String.eqb k k'); [now apply IH|].
  apply ordered_cons; [now apply IH|].
  rewrite Forall_forall in *. intros a Ha. eapply Hall, keys_Remove_incl, Ha.
Qed.

Lemma Get_Remove_eq k (b : Bucket) : Get k (Remove k b) = None.
Proof.
  induction b as [|[k' v'] b IH]; simpl; [reflexivity|].
  destruct (String.eqb k k') eqn:E; [exact IH|]. simpl. now rewrite E.
Qed.

Lemma Get_Remove_ne k k' (b : Bucket) :
  k' <> k -> Get k' (Remove k b) = Get k' b.
Proof.
  intros Hne. induction b as [|[k0 v0] b IH]; simpl; [reflexivity|].
  destruct (String.eqb_spec k k0) as [->|H0]; simpl.
  - rewrite IH. destruct (String.eqb_spec k' k0); congruence.
  - now rewrite IH.
Qed.

Lemma length_Remove k (b : Bucket) :
  ordered b ->
  List.length (Remove k b) =
  match Get k b with Some _ => pred (List.length b) | None => List.length b end.
Proof.
  induction b as [|[k' v'] b IH]; simpl; intros H; [reflexivity|].
  apply ordered_inv in H as [Hord Hall].
  destruct (String.eqb_spec k k') as [->|Hne].
  - now rewrite Remove_absent by now apply Get_below.
  - simpl. rewrite IH by assumption.
    destruct (Get k b) eqn:E; [|reflexivity].
    destruct b; [discriminate | reflexivity].
Qed.

Lemma Get_Put_eq k v (b : Bucket) : Get k (Put k v b) = Some v.
Proof.
  induction b as [|[k' v'] b IH]; simpl.
  - now rewrite String.eqb_refl.
  - destruct (String.compare k k') eqn:E; simpl.
    + now rewrite String.eqb_refl.
    + now rewrite String.eqb_refl.
    + rewrite string_eqb_compare, E. exact IH.
Qed.

Lemma Get_Put_ne k k' v (b : Bucket) :
  k' <> k -> Get k' (Put k v b) = Get k' b.
Proof.
  intros Hne. induction b as [|[k0 v0] b IH]; simpl.
  - destruct (String.eqb_spec k' k); congruence.
  - destruct (String.compare k k0) eqn:E; simpl.
    + apply string_compare_eq in E as <-.
      destruct (String.eqb_spec k' k); congruence.
    + destruct (String.eqb_spec k' k); congruence.
    + now rewrite IH.
Qed.

Lemma keys_Put_incl k v (b : Bucket) a :
  In a (keys (Put k v b)) -> a = k \/ In a (keys b).
Proof.
  induction b as [|[k0 v0] b IH]; simpl.
  - intros [H|[]]; auto.
  - destruct (String.compare k k0) eqn:E; simpl.
    + intros [H|H]; auto.
    + intros [H|[H|H]]; auto.
    + intros [H|H]; auto. apply IH in H. tauto.
Qed.

Lemma ordered_Put k v (b : Bucket) : ordered b -> ordered (Put k v b).
Proof.
  induction b as [|[k0 v0] b IH]; simpl; intros H.
  - apply ordered_cons; constructor.
  - pose proof H as H'. apply ordered_inv in H' as [Hord Hall].
    destruct (String.compare k k0) eqn:E.
    + apply string_compare_eq in E as ->. now apply ordered_cons.
    + apply ordered_cons; [exact H|]. simpl. constructor; [exact E|].
      eapply Forall_lt_trans; eassumption.
    + apply ordered_cons; [now apply IH|].
      rewrite Forall_forall in *. intros a Ha.
      apply keys_Put_incl in Ha as [->|Ha]; [|now apply Hall].
      now apply string_compare_gt_lt.
Qed.

Lemma length_Put k v (b : Bucket) :
  ordered b ->
  List.length (Put k v b) =
  match Get k b with Some _ => List.length b | None => S (List.length b) end.
Proof.
  induction b as [|[k0 v0] b IH]; simpl; intros H; [reflexivity|].
  apply ordered_inv in H as [Hord Hall].
  rewrite string_eqb_compare.
  destruct (String.compare k k0) eqn:E; simpl.
  - reflexivity.
  - rewrite Get_below; [reflexivity|].
    eapply Forall_lt_trans; eassumption.
  - rewrite IH by assumption. now destruct (Get k b).
Qed.

Lemma keys_Put_present k v (b : Bucket) :
  ordered b -> Get k b <> None -> keys (Put k v b) = keys b.
Proof.
  induction b as [|[k0 v0] b IH]; simpl; intros H; [congruence|].
  apply ordered_inv in H as [Hord Hall].
  rewrite string_eqb_compare.
  destruct (String.compare k k0) eqn:E; simpl.
  - apply string_compare_eq in E as ->. reflexivity.
  - intros Hg. exfalso. apply Hg, Get_below.
    eapply Forall_lt_trans; eassumption.
  - intros Hg. now rewrite IH.
Qed.

Lemma Remove_Put k v (b : Bucket) :
  ordered b -> Remove k (Put k v b) = Remove k b.
Proof.
  induction b as [|[k0 v0] b IH]; simpl; intros H.
  - now rewrite String.eqb_refl.
  - apply ordered_inv in H as [Hord Hall].
    rewrite string_eqb_compare.
    destruct (String.compare k k0) eqn:E; simpl.
    + now rewrite String.eqb_refl.
    + rewrite String.eqb_refl, string_eqb_compare, E. reflexivity.
    + rewrite string_eqb_compare, E. now rewrite IH.
Qed.

Lemma orderedb_sound (b : Bucket) : orderedb b = true -> ordered b.
Proof.
  induction b as [|[k v] b IH]; intros H; [constructor|].
  destruct b as [|[k' v'] b'].
  - apply ordered_cons; constructor.
  - cbn [orderedb] in H. apply andb_prop in H as [Hlt Hrest].
    specialize (IH Hrest).
    unfold String.ltb in Hlt.
    destruct (String.compare k k') eqn:E; try discriminate.
    apply ordered_cons; [exact IH|]. simpl. constructor; [exact E|].
    apply ordered_inv in IH as [_ Hall].
    eapply Forall_lt_trans; eassumption.
Qed.

End BucketFacts.

(** ** Prefixes of lists *)

Section Prefix.
Context {A : Type}.

Lemma firstn_In (x : A) (n : nat) (l : list A) : In x (firstn n l) -> In x l.
Proof.
  intros H. rewrite <- (firstn_skipn n l). apply in_or_app. now left.
Qed.

Lemma StronglySorted_firstn (R : A -> A -> Prop) (n : nat) (l : list A) :
  StronglySorted R l -> StronglySorted R (firstn n l).
Proof.
  revert n. induction l as [|a l IH]; intros [|n] H; simpl; try constructor.
  - inversion H; subst. now apply IH.
  - inversion H; subst. rewrite Forall_forall in *.
    intros x Hx. eauto using firstn_In.
Qed.

End Prefix.

(** ** The cursor loops *)

Section Scans.
Import buffer.
Context {codec : Codec}.

Lemma scanBatch_spec (n : Z) (recs : Bucket) (count : Z) (events : list Event) :
  scanBatch n recs count events =
  events ++ firstn (Z.to_nat (n - count)) (decoded recs).
Proof.
  revert count events.
  induction recs as [|[k v] recs IH]; intros count events; simpl.
  - now rewrite firstn_nil, app_nil_r.
  - destruct (Z.ltb_spec count n) as [Hlt|Hge].
    + destruct (unmarshal v) as [e|]; rewrite IH; [|reflexivity].
      replace (Z.to_nat (n - count)) with (S (Z.to_nat (n - (count + 1)))) by lia.
      simpl. now rewrite <- app_assoc.
    + replace (Z.to_nat (n - count)) with O by lia.
      now rewrite firstn_O, app_nil_r.
Qed.

Lemma scanFilter_spec (ready : Event -> bool)
    (scan : Z -> Bucket -> Z -> list Event -> list Event) :
  (forall n count events, scan n [] count events = events) ->
  (forall n k v rest count events,
     scan n ((k, v) :: rest) count events =
     if count <? n then
       match unmarshal v with
       | None => scan n rest count events
       | Some e => if ready e then scan n rest (count + 1) (events ++ [e])
                   else scan n rest count events
       end
     else events) ->
  forall n recs count events,
    scan n recs count events =
    events ++ firstn (Z.to_nat (n - count)) (filter ready (decoded recs)).
Proof.
  intros Hnil Hcons n recs.
  induction recs as [|[k v] recs IH]; intros count events.
  - rewrite Hnil. simpl. now rewrite firstn_nil, app_nil_r.
  - rewrite Hcons. simpl.
    destruct (Z.ltb_spec count n) as [Hlt|Hge].
    + destruct (unmarshal v) as [e|]; [|apply IH].
      simpl. destruct (ready e); rewrite IH; [|reflexivity].
      replace (Z.to_nat (n - count)) with (S (Z.to_nat (n - (count + 1)))) by lia.
      simpl. now rewrite <- app_assoc.
    + replace (Z.to_nat (n - count)) with O by lia.
      now rewrite firstn_O, app_nil_r.
Qed.

Lemma scanReady_spec now n recs count events :
  scanReady now n recs count events =
  events ++ firstn (Z.to_nat (n - count)) (filter (isReady now) (decoded recs)).
Proof. apply (scanFilter_spec (isReady now) (scanReady now)); reflexivity. Qed.

Lemma scanReady_delayed_spec now n recs count events :
  scanReady_delayed now n recs count events =
  events ++
  firstn (Z.to_nat (n - count)) (filter (isReady_delayed now) (decoded recs)).
Proof.
  apply (scanFilter_spec (isReady_delayed now) (scanReady_delayed now));
    reflexivity.
Qed.

Lemma GetBatch_decoded n (b : Bucket) :
  GetBatch n b = (firstn (Z.to_nat n) (decoded b), None).
Proof.
  unfold GetBatch. rewrite scanBatch_spec, Z.sub_0_r. reflexivity.
Qed.

Lemma GetReadyEvents_decoded now n (b : Bucket) :
  GetReadyEvents now n b =
  (firstn (Z.to_nat n) (filter (isReady now) (decoded b)), None).
Proof.
  unfold GetReadyEvents. rewrite scanReady_spec, Z.sub_0_r. reflexivity.
Qed.

Lemma isReady_window now e :
  isReady now e = spec.readyWithin (30 * time.Minute) now e.
Proof.
  unfold isReady, spec.readyWithin, time.Before, time.Equal, time.Add.
  destruct (RequestedReadyTime e) as [t|]; [|reflexivity].
  destruct (Z.ltb_spec t (now + 30 * time.Minute));
    destruct (Z.eqb_spec t (now + 30 * time.Minute));
    destruct (Z.leb_spec t (now + 30 * time.Minute)); simpl; lia || reflexivity.
Qed.

Lemma isReady_delayed_window now e :
  isReady_delayed now e = spec.readyWithin 0 now e.
Proof.
  unfold isReady_delayed, spec.readyWithin, time.Before, time.Equal.
  destruct (RequestedReadyTime e) as [t|]; [|reflexivity].
  rewrite Z.add_0_r.
  destruct (Z.ltb_spec t now); destruct (Z.eqb_spec t now);
    destruct (Z.leb_spec t now); simpl; lia || reflexivity.
Qed.

Lemma decoded_app (b1 b2 : Bucket) : decoded (b1 ++ b2) = decoded b1 ++ decoded b2.
Proof.
  induction b1 as [|[k v] b1 IH]; simpl; [reflexivity|].
  destruct (unmarshal v); simpl; now rewrite IH.
Qed.

Lemma decoded_In e (b : Bucket) :
  In e (decoded b) <-> exists k v, In (k, v) b /\ unmarshal v = Some e.
Proof.
  induction b as [|[k v] b IH]; simpl.
  - split; [tauto | intros (? & ? & [] & _)].
  - destruct (unmarshal v) as [e'|] eqn:E; simpl; rewrite IH; split.
    + intros [->|(k' & v' & H1 & H2)]; [exists k, v; auto|].
      exists k', v'. auto.
    + intros (k' & v' & [H|H] & H2).
      * injection H as <- <-. left. congruence.
      * right. eauto.
    + intros (k' & v' & H1 & H2). exists k', v'. auto.
    + intros (k' & v' & [H|H] & H2); [|eauto].
      injection H as <- <-. congruence.
Qed.

Lemma length_decoded (b : Bucket) : (List.length (decoded b) <= List.length b)%nat.
Proof.
  induction b as [|[k v] b IH]; simpl; [lia|].
  destruct (unmarshal v); simpl; lia.
Qed.

End Scans.

(** ** The concrete codec meets the assumptions *)

Section WireFacts.
Import buffer wire.

Lemma decPos_encPos p rest : decPos (encPos p ++ rest) = Some (p, rest).
Proof. induction p as [p IH|p IH|]; simpl; try rewrite IH; reflexivity. Qed.

Lemma decZ_encZ z rest : decZ (encZ z ++ rest) = Some (z, rest).
Proof. destruct z; simpl; try rewrite decPos_encPos; reflexivity. Qed.

Lemma decString_encString s rest :
  decString (encString s ++ rest) = Some (s, rest).
Proof.
  induction s as [|a s IH]; simpl; [reflexivity|].
  now rewrite IH, ascii_of_byte_of_ascii.
Qed.

Lemma decOptZ_encOptZ o rest : decOptZ (encOptZ o ++ rest) = Some (o, rest).
Proof. destruct o as [z|]; simpl; try rewrite decZ_encZ; reflexivity. Qed.

Lemma decode_encode e : decode (encode e) = Some e.
Proof.
  unfold decode, encode. destruct e as [id op ts data r ready]. cbn [ID Operation Timestamp Data Retries RequestedReadyTime].
  rewrite decString_encString, decString_encString, decZ_encZ,
    decString_encString, decZ_encZ.
  rewrite <- (app_nil_r (encOptZ ready)), decOptZ_encOptZ. reflexivity.
Qed.

Lemma wire_roundtrip e v :
  marshal (Codec := wire.codec) e = Some v -> unmarshal v = Some e.
Proof. simpl. intros [= <-]. apply decode_encode. Qed.

Lemma wire_total e : marshal (Codec := wire.codec) e <> None.
Proof. simpl. discriminate. Qed.

End WireFacts.

(** ** Readiness filtering *)

(** C1 (amended).  [GetReadyEvents now n] returns, in ascending key order, the
    first [n] decodable events whose ready time is absent or at most
    [now + READY_WINDOW], where READY_WINDOW is 30 minutes in buffer.go
    ([requestedReadyTime]) and 0 in the [delayedUntil] revision; an event with
    ready time [now + delta] is excluded exactly when [delta] exceeds that
    window. *)
Theorem GetReadyEvents_window `{codec : buffer.Codec} (now : time.Time) (n : Z)
    (b : buffer.Bucket) :
  buffer.GetReadyEvents now n b =
    (firstn (Z.to_nat n)
       (filter (spec.readyWithin (30 * time.Minute) now) (buffer.decoded b)),
     None) /\
  buffer.GetReadyEvents_delayed now n b =
    (if n <? 0 then None
     else Some (firstn (Z.to_nat n)
                  (filter (spec.readyWithin 0 now) (buffer.decoded b)),
                None)) /\
  (forall id op ts data retries delta,
     let e := buffer.mkEvent id op ts data retries (Some (now + delta)) in
     buffer.isReady now e = negb (30 * time.Minute <? delta) /\
     buffer.isReady_delayed now e = negb (0 <? delta)).
Proof.
  split; [|split].
  - rewrite GetReadyEvents_decoded. do 2 f_equal.
    apply filter_ext. intros e. apply isReady_window.
  - unfold buffer.GetReadyEvents_delayed.
    destruct (n <? 0); [reflexivity|].
    rewrite scanReady_delayed_spec, Z.sub_0_r. simpl. do 3 f_equal.
    apply filter_ext. intros e. apply isReady_delayed_window.
  - intros id op ts data retries delta e.
    rewrite isReady_window, isReady_delayed_window.
    unfold spec.readyWithin, e. simpl.
    split.
    + destruct (Z.leb_spec (now + delta) (now + 30 * time.Minute));
        destruct (Z.ltb_spec (30 * time.Minute) delta); simpl; lia || reflexivity.
    + destruct (Z.leb_spec (now + delta) (now + 0));
        destruct (Z.ltb_spec 0 delta); simpl; lia || reflexivity.
Qed.

(** C1 as stated fails on the [delayedUntil] revision: an event due in ten
    minutes lies within the 30-minute window and is still not selected. *)
Lemma GetReadyEvents_delayed_ten_minutes :
  let e := samples.ev "a" samples.t0 0 (Some (samples.t0 + 10 * time.Minute)) in
  let b := samples.store1 e [] in
  buffer.decoded (codec := wire.codec) b = [e] /\
  buffer.GetReadyEvents_delayed (codec := wire.codec) samples.t0 10 b
  = Some ([], None) /\
  spec.readyWithin (30 * time.Minute) samples.t0 e = true /\
  ~ (In e (samples.selected
             (buffer.GetReadyEvents_delayed (codec := wire.codec)
                samples.t0 10 b))
     <-> spec.readyWithin (30 * time.Minute) samples.t0 e = true).
Proof.
  intros e b.
  assert (Hsel : buffer.GetReadyEvents_delayed (codec := wire.codec)
                   samples.t0 10 b = Some ([], None)) by reflexivity.
  repeat split; try reflexivity.
  rewrite Hsel. intros [_ H]. apply H. reflexivity.
Qed.

(** ** Undecodable records *)

(** C10.  A record whose value does not decode is skipped by [GetBatch] and
    [GetReadyEvents]: both still succeed and return what they would return
    without the record (so it is neither returned nor counted toward the
    limit), while [Count] still counts it; hence a read returns fewer events
    than [Count] reports whatever the limit.  Reads run in a read-only
    transaction and leave the bucket as it is. *)
Theorem undecodable_record_skipped `{codec : buffer.Codec} (now : time.Time)
    (n : Z) (b1 b2 : buffer.Bucket) (k : string) (v : bytes) :
  buffer.unmarshal v = None ->
  let b := b1 ++ (k, v) :: b2 in
  buffer.GetBatch n b = buffer.GetBatch n (b1 ++ b2) /\
  snd (buffer.GetBatch n b) = None /\
  buffer.GetReadyEvents now n b = buffer.GetReadyEvents now n (b1 ++ b2) /\
  snd (buffer.GetReadyEvents now n b) = None /\
  fst (buffer.Count b) = fst (buffer.Count (b1 ++ b2)) + 1 /\
  snd (buffer.Count b) = None /\
  Z.of_nat (List.length (fst (buffer.GetBatch n b))) < fst (buffer.Count b) /\
  Z.of_nat (List.length (fst (buffer.GetReadyEvents now n b))) < fst (buffer.Count b).
Proof.
  intros Hv b.
  assert (Hdec : buffer.decoded b = buffer.decoded (b1 ++ b2)).
  { unfold b. rewrite !decoded_app. simpl. now rewrite Hv. }
  assert (Hlen : (List.length (buffer.decoded b) < List.length b)%nat).
  { rewrite Hdec. unfold b.
    pose proof (length_decoded (b1 ++ b2)) as H.
    rewrite !length_app in *. simpl. lia. }
  rewrite !GetBatch_decoded, !GetReadyEvents_decoded, Hdec. simpl.
  repeat split.
  - unfold buffer.KeyN, b. rewrite !length_app. simpl. lia.
  - unfold buffer.KeyN. rewrite length_firstn, <- Hdec. lia.
  - unfold buffer.KeyN. rewrite length_firstn.
    pose proof (filter_length_le (buffer.isReady now) (buffer.decoded (b1 ++ b2))).
    rewrite <- Hdec in *. lia.
Qed.

Lemma undecodable_record_skipped_witness :
  buffer.unmarshal (Codec := wire.codec) [] = None /\
  Z.of_nat
    (List.length
       (fst (buffer.GetBatch (codec := wire.codec) 1000
               (samples.store1 (samples.ev "a" samples.t0 0 None) []
                  ++ ("zz"%string, []) :: []))))
  < fst (buffer.Count
           (samples.store1 (samples.ev "a" samples.t0 0 None) []
              ++ ("zz"%string, []) :: [])).
Proof.
  split; [reflexivity|].
  apply (undecodable_record_skipped (codec := wire.codec) samples.t0 1000
           (samples.store1 (samples.ev "a" samples.t0 0 None) []) []
           "zz"%string []).
  reflexivity.
Defined.

(** ** Absent keys *)

(** C4.  When no record sits under the key of [(id, timestamp)],
    [UpdateRetries] fails with "event not found" and [Delete] succeeds; both
    leave the bucket as it was. *)
Theorem absent_key_UpdateRetries_Delete `{codec : buffer.Codec}
    (id : string) (timestamp : time.Time) (r : Z) (b : buffer.Bucket) :
  buffer.Get (buffer.key id timestamp) b = None ->
  buffer.UpdateRetries id timestamp r b = (b, Some buffer.ErrNotFound) /\
  buffer.Delete id timestamp b = (b, None).
Proof.
  intros Habs. unfold buffer.UpdateRetries, buffer.Delete.
  rewrite Habs, Remove_absent by exact Habs. now split.
Qed.

Lemma absent_key_UpdateRetries_Delete_witness :
  let b := samples.store1 (samples.ev "a" samples.t0 0 None) [] in
  buffer.Get (buffer.key "b" samples.t0) b = None /\
  buffer.UpdateRetries (codec := wire.codec) "b" samples.t0 4 b
    = (b, Some buffer.ErrNotFound) /\
  buffer.Delete "b" samples.t0 b = (b, None).
Proof.
  split; [reflexivity|].
  apply (absent_key_UpdateRetries_Delete (codec := wire.codec)).
  reflexivity.
Defined.

(** ** Store followed by Delete *)

(** C5 (amended).  [Store(e); Delete(e.id, e.timestamp)] leaves [Count]
    unchanged when no record sits under [e]'s key beforehand; when one does,
    [Count] ends one lower. *)
Theorem Store_Delete_Count `{codec : buffer.Codec} (e : buffer.Event)
    (b : buffer.Bucket) :
  buffer.ordered b ->
  let b1 := fst (buffer.Store e b) in
  let b2 := fst (buffer.Delete (buffer.ID e) (buffer.Timestamp e) b1) in
  fst (buffer.Count b2) =
  fst (buffer.Count b)
  - match buffer.Get (buffer.eventKey e) b with Some _ => 1 | None => 0 end.
Proof.
  intros Hord. unfold buffer.Store, buffer.Delete, buffer.Count, buffer.KeyN.
  fold (buffer.eventKey e). cbn [fst].
  destruct (buffer.marshal e) as [data|]; cbn [fst].
  - rewrite Remove_Put, length_Remove by assumption.
    destruct (buffer.Get (buffer.eventKey e) b) eqn:E; [|lia].
    destruct b; [discriminate|]. cbn [List.length Nat.pred]. lia.
  - rewrite length_Remove by assumption.
    destruct (buffer.Get (buffer.eventKey e) b) eqn:E; [|lia].
    destruct b; [discriminate|]. cbn [List.length Nat.pred]. lia.
Qed.

Lemma Store_Delete_Count_witness :
  let e := samples.ev "b" samples.t0 0 None in
  let b := samples.store1 (samples.ev "a" samples.t0 0 None) [] in
  buffer.ordered b /\
  fst (buffer.Count
         (fst (buffer.Delete (buffer.ID e) (buffer.Timestamp e)
                 (fst (buffer.Store (codec := wire.codec) e b)))))
  = fst (buffer.Count b) - 0.
Proof.
  split; [apply orderedb_sound; reflexivity|].
  apply (Store_Delete_Count (codec := wire.codec)
           (samples.ev "b" samples.t0 0 None)
           (samples.store1 (samples.ev "a" samples.t0 0 None) [])).
  apply orderedb_sound. reflexivity.
Defined.

(** C5 as stated fails when the event is already stored: the second [Store]
    overwrites the record, [Delete] removes it, and [Count] drops from 1 to 0. *)
Lemma Store_Delete_Count_collision :
  let e := samples.ev "a" samples.t0 0 None in
  let b := samples.store1 e [] in
  fst (buffer.Count b) = 1 /\
  fst (buffer.Count
         (fst (buffer.Delete (buffer.ID e) (buffer.Timestamp e)
                 (fst (buffer.Store (codec := wire.codec) e b))))) = 0.
Proof. split; vm_compute; reflexivity. Qed.

(** ** UpdateRetries *)

Lemma withRetries_same (e : buffer.Event) :
  buffer.withRetries (buffer.Retries e) e = e.
Proof. now destruct e. Qed.

Lemma wire_reencodes : spec.reencodes wire.codec.
Proof. intros v e k _. apply wire_total. Qed.

Lemma Put_front k v (b : buffer.Bucket) :
  Forall (fun k' => String.compare k' k <> Lt) (buffer.keys b) ->
  exists rest, buffer.Put k v b = (k, v) :: rest.
Proof.
  destruct b as [|[k0 v0] b]; simpl; intros H; [eauto|].
  inversion H as [|? ? Hhd _]; subst.
  destruct (String.compare k k0) eqn:E; eauto.
  exfalso. apply Hhd. now apply string_compare_gt_lt.
Qed.

Lemma Put_Put k v v' (b : buffer.Bucket) :
  buffer.Put k v' (buffer.Put k v b) = buffer.Put k v' b.
Proof.
  induction b as [|[k0 v0] b IH]; simpl.
  - now rewrite string_compare_refl.
  - destruct (String.compare k k0) eqn:E; simpl.
    + now rewrite string_compare_refl.
    + now rewrite string_compare_refl.
    + now rewrite E, IH.
Qed.

(** C7.  For an event [e] present in the buffer, [UpdateRetries(e.id,
    e.timestamp, k)] succeeds and the record under [e]'s key then decodes to
    [e] with [retries = k] and every other field as before, all other records
    being untouched; and [Store(e); UpdateRetries(e.id, e.timestamp, k);
    GetBatch(1)], run on a buffer holding no smaller key (an empty one in
    particular), returns [e] with [retries = k]. *)
Theorem UpdateRetries_sets_retries `{codec : buffer.Codec}
    (e : buffer.Event) (k : Z) :
  spec.roundtrip codec -> spec.reencodes codec ->
  (forall (b : buffer.Bucket) (v : bytes),
     buffer.ordered b ->
     buffer.Get (buffer.eventKey e) b = Some v ->
     buffer.unmarshal v = Some e ->
     exists (b' : buffer.Bucket) (v' : bytes) (e' : buffer.Event),
       buffer.UpdateRetries (buffer.ID e) (buffer.Timestamp e) k b = (b', None) /\
       buffer.Get (buffer.eventKey e) b' = Some v' /\
       buffer.unmarshal v' = Some e' /\
       buffer.Retries e' = k /\
       buffer.ID e' = buffer.ID e /\
       buffer.Operation e' = buffer.Operation e /\
       buffer.Timestamp e' = buffer.Timestamp e /\
       buffer.Data e' = buffer.Data e /\
       buffer.RequestedReadyTime e' = buffer.RequestedReadyTime e /\
       buffer.keys b' = buffer.keys b /\
       (forall k', k' <> buffer.eventKey e ->
                   buffer.Get k' b' = buffer.Get k' b)) /\
  (forall b : buffer.Bucket,
     buffer.marshal e <> None ->
     Forall (fun k' => String.compare k' (buffer.eventKey e) <> Lt)
            (buffer.keys b) ->
     let b1 := fst (buffer.Store e b) in
     let r := buffer.UpdateRetries (buffer.ID e) (buffer.Timestamp e) k b1 in
     snd r = None /\
     buffer.GetBatch 1 (fst r) = ([buffer.withRetries k e], None)).
Proof.
  intros Hrt Hre. split.
  - intros b v Hord Hget Hdec.
    destruct (buffer.marshal (buffer.withRetries k e)) as [v'|] eqn:Hm;
      [|now apply (Hre v e k) in Hdec].
    exists (buffer.Put (buffer.eventKey e) v' b), v', (buffer.withRetries k e).
    unfold buffer.UpdateRetries. fold (buffer.eventKey e).
    rewrite Hget, Hdec, Hm.
    split; [reflexivity|].
    split; [apply Get_Put_eq|].
    split; [now apply Hrt|].
    repeat (split; [reflexivity|]).
    split; [apply keys_Put_present; [assumption | congruence]|].
    intros k' Hk'. now apply Get_Put_ne.
  - intros b Hm Hmin b1 r.
    destruct (buffer.marshal e) as [v|] eqn:Hme; [clear Hm | congruence].
    pose proof (Hrt e v Hme) as Hdec.
    destruct (buffer.marshal (buffer.withRetries k e)) as [v'|] eqn:Hm';
      [|now apply (Hre v e k) in Hdec].
    assert (Hb1 : b1 = buffer.Put (buffer.eventKey e) v b).
    { unfold b1, buffer.Store. now rewrite Hme. }
    assert (Hr : r = (buffer.Put (buffer.eventKey e) v' b, None)).
    { unfold r, buffer.UpdateRetries. fold (buffer.eventKey e).
      rewrite Hb1, Get_Put_eq, Hdec, Hm', Put_Put. reflexivity. }
    rewrite Hr. cbn [fst snd]. split; [reflexivity|].
    destruct (Put_front (buffer.eventKey e) v' b Hmin) as [rest ->].
    unfold buffer.GetBatch. cbn [buffer.scanBatch].
    rewrite (Hrt _ _ Hm'). simpl.
    destruct rest as [|[k0 v0] rest]; reflexivity.
Qed.

Lemma UpdateRetries_sets_retries_witness :
  let e := samples.ev "a" samples.t0 0 None in
  buffer.GetBatch (codec := wire.codec) 1
    (fst (buffer.UpdateRetries (codec := wire.codec)
            (buffer.ID e) (buffer.Timestamp e) 3
            (fst (buffer.Store (codec := wire.codec) e []))))
  = ([buffer.withRetries 3 e], None).
Proof.
  intros e.
  apply (proj2 (UpdateRetries_sets_retries (codec := wire.codec) e 3
                  wire_roundtrip wire_reencodes) []).
  - apply wire_total.
  - constructor.
Defined.

(** ** The cleanup task *)

Section Cleanup.
Import buffer.
Context {codec : Codec}.

Lemma keyedb_sound (b : Bucket) : keyedb b = true -> keyed b.
Proof.
  unfold keyedb, keyed. rewrite forallb_forall.
  intros H k v e Hin Hdec. specialize (H _ Hin). cbn in H.
  rewrite Hdec in H. now apply String.eqb_eq.
Qed.

Lemma cleanupLoop_In cutoff (events : list Event) (b : Bucket) (c : Z) k v :
  In (k, v) (fst (scheduler.cleanupLoop cutoff events b c)) <->
  In (k, v) b /\
  ~ (exists e, In e events /\ scheduler.expired cutoff e = true /\ k = eventKey e).
Proof.
  revert b c.
  induction events as [|e events IH]; intros b c; simpl.
  - split; [|tauto]. intros H. split; [exact H|]. intros (e & [] & _).
  - destruct (scheduler.expired cutoff e) eqn:He; simpl.
    + rewrite IH, In_Remove. fold (eventKey e). split.
      * intros [[Hin Hne] Hno]. split; [exact Hin|].
        intros (e' & [<-|Hin'] & Hex & Hk); [congruence|].
        apply Hno. eauto.
      * intros [Hin Hno]. split; [split; [exact Hin|]|].
        -- intros ->. apply Hno. exists e. auto.
        -- intros (e' & Hin' & Hex & Hk). apply Hno. exists e'. auto.
    + rewrite IH. split; intros [Hin Hno]; (split; [exact Hin|]).
      * intros (e' & [<-|Hin'] & Hex & Hk); [congruence|].
        apply Hno. eauto.
      * intros (e' & Hin' & Hex & Hk). apply Hno. exists e'. auto.
Qed.

End Cleanup.

(** C9 (amended).  [cleanup_old_events] reads the first 1000 decodable events
    in key order and deletes exactly those among them whose retries exceed 10
    and whose timestamp is earlier than 24 hours before now.  Every record
    that does not decode to such an event is left in place, and when the
    buffer holds at most 1000 decodable events, [GetBatch] afterwards returns
    no event satisfying both conditions. *)
Theorem cleanupTask_deletes `{codec : buffer.Codec} (now : time.Time)
    (b : buffer.Bucket) :
  buffer.ordered b -> buffer.keyed b ->
  let cutoff := now - 24 * time.Hour in
  let examined := firstn 1000 (buffer.decoded b) in
  let b' := fst (scheduler.cleanupTask now b) in
  snd (scheduler.cleanupTask now b) = None /\
  (forall k v,
     In (k, v) b' <->
     In (k, v) b /\
     ~ (exists e, In e examined /\ scheduler.expired cutoff e = true /\
                  k = buffer.eventKey e)) /\
  (forall k v,
     In (k, v) b ->
     (forall e, buffer.unmarshal v = Some e -> scheduler.expired cutoff e = false) ->
     In (k, v) b') /\
  ((List.length (buffer.decoded b) <= 1000)%nat ->
   forall n e, In e (fst (buffer.GetBatch n b')) ->
               scheduler.expired cutoff e = false).
Proof.
  intros Hord Hkeyed cutoff examined b'.
  assert (Hb' : forall k v,
     In (k, v) b' <->
     In (k, v) b /\
     ~ (exists e, In e examined /\ scheduler.expired cutoff e = true /\
                  k = buffer.eventKey e)).
  { intros k v. unfold b', scheduler.cleanupTask.
    rewrite GetBatch_decoded. cbn [fst].
    replace (time.Add now (-24 * time.Hour)) with cutoff
      by (unfold cutoff, time.Add; lia).
    apply cleanupLoop_In. }
  split; [|split; [exact Hb'|split]].
  - unfold scheduler.cleanupTask. now rewrite GetBatch_decoded.
  - intros k v Hin Hfresh. apply Hb'. split; [exact Hin|].
    intros (e & He & Hex & ->).
    apply firstn_In, decoded_In in He as (k0 & v0 & Hin0 & Hdec0).
    pose proof (Hkeyed _ _ _ Hin0 Hdec0) as ->.
    apply (In_Get _ _ _ Hord) in Hin. apply (In_Get _ _ _ Hord) in Hin0.
    assert (v0 = v) as -> by congruence.
    specialize (Hfresh _ Hdec0). congruence.
  - intros Hlen n e Hin.
    rewrite GetBatch_decoded in Hin. cbn [fst] in Hin.
    apply firstn_In, decoded_In in Hin as (k & v & Hin & Hdec).
    apply Hb' in Hin as [Hin Hno].
    destruct (scheduler.expired cutoff e) eqn:He; [|reflexivity].
    exfalso. apply Hno. exists e. split; [|split; [exact He|]].
    + unfold examined. rewrite firstn_all2 by exact Hlen.
      apply decoded_In. eauto.
    + eapply Hkeyed; eassumption.
Qed.

Lemma cleanupTask_deletes_witness :
  let old := samples.ev "a" (samples.t0 - 25 * time.Hour) 11 None in
  let fresh := samples.ev "b" (samples.t0 - 25 * time.Hour) 3 None in
  let b := samples.store1 fresh (samples.store1 old []) in
  buffer.ordered b /\ buffer.keyed (codec := wire.codec) b /\
  buffer.decoded (codec := wire.codec)
    (fst (scheduler.cleanupTask (codec := wire.codec) samples.t0 b)) = [fresh] /\
  forall n e,
    In e (fst (buffer.GetBatch (codec := wire.codec) n
                 (fst (scheduler.cleanupTask (codec := wire.codec) samples.t0 b)))) ->
    scheduler.expired (samples.t0 - 24 * time.Hour) e = false.
Proof.
  intros old fresh b.
  assert (Hord : buffer.ordered b) by (apply orderedb_sound; reflexivity).
  assert (Hkeyed : buffer.keyed (codec := wire.codec) b)
    by (apply keyedb_sound; reflexivity).
  split; [exact Hord|split; [exact Hkeyed|split; [reflexivity|]]].
  apply (cleanupTask_deletes (codec := wire.codec) samples.t0 b Hord Hkeyed).
  vm_compute. lia.
Defined.

(** C9 as stated fails once more than 1000 events are buffered: of 1001
    events that all have 11 retries and are 25 hours old, the task deletes the
    first 1000 and the last one is still returned by [GetBatch]. *)
Lemma cleanupTask_leaves_event_1001 :
  let b' := fst (scheduler.cleanupTask (codec := wire.codec) samples.t0
                   samples.staleBucket) in
  fst (buffer.GetBatch (codec := wire.codec) 1000 b') = [samples.stale 1000] /\
  scheduler.expired (samples.t0 - 24 * time.Hour) (samples.stale 1000) = true.
Proof. split; vm_compute; reflexivity. Qed.

(** ** Decimal keys *)

Section Decimal.
Import strconv.

Lemma string_app_assoc (s t u : string) : ((s ++ t) ++ u = s ++ (t ++ u))%string.
Proof. induction s as [|a s IH]; simpl; [reflexivity | now rewrite IH]. Qed.

Lemma string_app_nil_r (s : string) : (s ++ "")%string = s.
Proof. induction s as [|a s IH]; simpl; [reflexivity | now rewrite IH]. Qed.

Lemma digitChar_compare (d d' : Z) :
  0 <= d < 10 -> 0 <= d' < 10 ->
  Ascii.compare (digitChar d) (digitChar d') = (d ?= d').
Proof.
  intros Hd Hd'. unfold Ascii.compare, digitChar.
  rewrite !N_ascii_embedding by lia.
  rewrite <- N2Z.inj_compare, !N2Z.inj_add, !Z2N.id by lia.
  apply Z.add_compare_mono_l.
Qed.

Lemma digitsN_snoc (n : nat) (u : Z) :
  digitsN (S n) u
  = (digitsN n (u / 10) ++ String (digitChar (u mod 10)) "")%string.
Proof.
  induction n as [|n IH].
  - simpl. now rewrite Z.div_1_r.
  - change (digitsN (S (S n)) u)
      with (String (digitChar ((u / 10 ^ Z.of_nat (S n)) mod 10))
                   (digitsN (S n) u)).
    rewrite IH.
    change (digitsN (S n) (u / 10))
      with (String (digitChar ((u / 10 / 10 ^ Z.of_nat n) mod 10))
                   (digitsN n (u / 10))).
    simpl String.append. do 2 f_equal.
    rewrite Z.div_div by lia.
    now rewrite Nat2Z.inj_succ, Z.pow_succ_r by lia.
Qed.

Lemma formatBits_digitsN (n : nat) :
  forall (fuel : nat) (u : Z) (acc : string),
    (n < fuel)%nat -> 10 ^ Z.of_nat n <= u < 10 ^ Z.of_nat (S n) ->
    formatBits fuel u acc = (digitsN (S n) u ++ acc)%string.
Proof.
  induction n as [|n IH]; intros [|fuel] u acc Hf Hu; try lia.
  - change (10 ^ Z.of_nat 0) with 1 in Hu. change (10 ^ Z.of_nat 1) with 10 in Hu.
    simpl. rewrite Z.div_1_r, Z.mod_small by lia.
    destruct (Z.ltb_spec u 10); [reflexivity | lia].
  - rewrite !Nat2Z.inj_succ, !Z.pow_succ_r in Hu by lia.
    assert (Hp : 0 < 10 ^ Z.of_nat n) by (apply Z.pow_pos_nonneg; lia).
    cbn [formatBits].
    destruct (Z.ltb_spec u 10) as [Hlt|_]; [lia|].
    rewrite (IH fuel (u / 10)).
    + rewrite (digitsN_snoc (S n) u), string_app_assoc. reflexivity.
    + lia.
    + rewrite Nat2Z.inj_succ, Z.pow_succ_r by lia. split.
      * apply Z.div_le_lower_bound; lia.
      * apply Z.div_lt_upper_bound; lia.
Qed.

Lemma compare_digitsN (n : nat) (a b : Z) (s t : string) :
  String.compare (digitsN n a ++ s) (digitsN n b ++ t)
  = match a mod 10 ^ Z.of_nat n ?= b mod 10 ^ Z.of_nat n with
    | Eq => String.compare s t
    | c => c
    end.
Proof.
  induction n as [|n IH].
  - simpl. now rewrite !Z.mod_1_r.
  - assert (Hp : 0 < 10 ^ Z.of_nat n) by (apply Z.pow_pos_nonneg; lia).
    cbn [digitsN String.append String.compare].
    set (da := (a / 10 ^ Z.of_nat n) mod 10).
    set (db := (b / 10 ^ Z.of_nat n) mod 10).
    assert (Hda : 0 <= da < 10) by (apply Z.mod_pos_bound; lia).
    assert (Hdb : 0 <= db < 10) by (apply Z.mod_pos_bound; lia).
    rewrite digitChar_compare, IH by assumption.
    rewrite Nat2Z.inj_succ, Z.pow_succ_r, (Z.mul_comm 10) by lia.
    rewrite !Z.rem_mul_r by lia. fold da db.
    pose proof (Z.mod_pos_bound a _ Hp) as Ha.
    pose proof (Z.mod_pos_bound b _ Hp) as Hb.
    set (ra := a mod 10 ^ Z.of_nat n) in *.
    set (rb := b mod 10 ^ Z.of_nat n) in *.
    set (P := 10 ^ Z.of_nat n) in *.
    destruct (Z.compare_spec da db), (Z.compare_spec ra rb),
      (Z.compare_spec (ra + P * da) (rb + P * db));
      try reflexivity; exfalso; nia.
Qed.

Lemma formatInt_nineteen (t : Z) :
  spec.nineteenDigits t -> formatInt t = digitsN 19 t.
Proof.
  intros [Hlo Hhi]. unfold formatInt.
  destruct (Z.ltb_spec t 0); [lia|].
  rewrite (formatBits_digitsN 18) by (try lia; simpl Z.of_nat; lia).
  apply string_app_nil_r.
Qed.

Lemma key_compare (id id' : string) (t t' : time.Time) :
  spec.nineteenDigits t -> spec.nineteenDigits t' ->
  String.compare (buffer.key id t) (buffer.key id' t')
  = match t ?= t' with Eq => String.compare id id' | c => c end.
Proof.
  intros Ht Ht'. unfold buffer.key, time.UnixNano.
  pose proof Ht as [Hlo Hhi]. pose proof Ht' as [Hlo' Hhi'].
  rewrite !wrap64_small by lia.
  rewrite !formatInt_nineteen by assumption.
  rewrite compare_digitsN.
  rewrite !Z.mod_small by (simpl Z.of_nat; lia).
  destruct (t ?= t'); reflexivity.
Qed.

Lemma length_digitsN (n : nat) (u : Z) : String.length (digitsN n u) = n.
Proof. induction n as [|n IH]; simpl; [reflexivity | now rewrite IH]. Qed.

Lemma length_string_app (s t : string) :
  String.length (s ++ t) = (String.length s + String.length t)%nat.
Proof. induction s as [|a s IH]; simpl; [reflexivity | now rewrite IH]. Qed.

(** With enough fuel the digit loop prints a number as its [k] digits, for
    the [k] that fits it. *)
Lemma formatBits_width (fuel : nat) :
  forall (u : Z) (acc : string),
    0 <= u < 10 ^ Z.of_nat (S fuel) ->
    exists k : nat,
      u < 10 ^ Z.of_nat k /\
      formatBits (S fuel) u acc = (digitsN k u ++ acc)%string.
Proof.
  induction fuel as [|fuel IH]; intros u acc Hu.
  - exists 1%nat. change (10 ^ Z.of_nat 1) with 10 in *. split; [lia|].
    simpl. rewrite Z.div_1_r, Z.mod_small by lia.
    destruct (Z.ltb_spec u 10); [reflexivity | lia].
  - destruct (Z.ltb_spec u 10) as [Hlt|Hge].
    + exists 1%nat. change (10 ^ Z.of_nat 1) with 10. split; [lia|].
      cbn [formatBits]. destruct (Z.ltb_spec u 10); [|lia].
      simpl. now rewrite Z.div_1_r, Z.mod_small by lia.
    + rewrite Nat2Z.inj_succ, Z.pow_succ_r in Hu by lia.
      destruct (IH (u / 10) (String (digitChar (u mod 10)) acc))
        as (k & Hk & Heq).
      { split; [apply Z.div_pos; lia | apply Z.div_lt_upper_bound; lia]. }
      exists (S k). split.
      * rewrite Nat2Z.inj_succ, Z.pow_succ_r by lia.
        pose proof (Z.div_mod u 10 ltac:(lia)).
        pose proof (Z.mod_pos_bound u 10 ltac:(lia)). lia.
      * change (formatBits (S (S fuel)) u acc)
          with (if u <? 10 then String (digitChar u) acc
                else formatBits (S fuel) (u / 10)
                       (String (digitChar (u mod 10)) acc)).
        destruct (Z.ltb_spec u 10); [lia|].
        rewrite Heq, digitsN_snoc, string_app_assoc. reflexivity.
Qed.

(** A non-negative int64 prints as the fixed-width digits of its own
    width. *)
Lemma formatInt_width (w : nat) (t : time.Time) :
  spec.sameDigits w t -> formatInt t = digitsN w t /\ t < 10 ^ Z.of_nat w.
Proof.
  intros [Ht Hw]. unfold spec.digitCount, time.UnixNano in Hw.
  rewrite wrap64_small in Hw by lia.
  unfold formatInt in *.
  destruct (Z.ltb_spec t 0); [lia|].
  destruct (formatBits_width 19 t "") as (k & Hk & Heq).
  { split; [lia|]. apply Z.lt_trans with (2 ^ 63); [lia | reflexivity]. }
  rewrite Heq, string_app_nil_r in *.
  rewrite length_digitsN in Hw. subst k. split; [reflexivity | exact Hk].
Qed.

Lemma nineteenDigits_sameDigits (t : time.Time) :
  spec.nineteenDigits t -> spec.sameDigits 19 t.
Proof.
  intros Ht. pose proof Ht as [Hlo Hhi]. split; [lia|].
  unfold spec.digitCount, time.UnixNano. rewrite wrap64_small by lia.
  rewrite formatInt_nineteen by exact Ht. apply length_digitsN.
Qed.

(** Keys of non-negative timestamps of one decimal width compare as the
    pairs (timestamp, id) do. *)
Lemma key_compare_width (w : nat) (id id' : string) (t t' : time.Time) :
  spec.sameDigits w t -> spec.sameDigits w t' ->
  String.compare (buffer.key id t) (buffer.key id' t')
  = match t ?= t' with Eq => String.compare id id' | c => c end.
Proof.
  intros Ht Ht'.
  destruct (formatInt_width w t Ht) as [Hf Hb].
  destruct (formatInt_width w t' Ht') as [Hf' Hb'].
  destruct Ht as [Ht _], Ht' as [Ht' _].
  unfold buffer.key, time.UnixNano.
  rewrite !wrap64_small by lia.
  rewrite Hf, Hf', compare_digitsN.
  rewrite !Z.mod_small by lia.
  destruct (t ?= t'); reflexivity.
Qed.

End Decimal.

(** ** Runs of Store *)

Section StoreRuns.
Import buffer.
Context {codec : Codec}.
Hypothesis Hrt : spec.roundtrip codec.

Lemma In_Put k v k0 v0 (b : Bucket) :
  In (k, v) (Put k0 v0 b) -> (k, v) = (k0, v0) \/ In (k, v) b.
Proof.
  induction b as [|[k1 v1] b IH]; simpl.
  - intros [H|[]]. left. congruence.
  - destruct (String.compare k0 k1); simpl.
    + intros [H|H]; [left; congruence | auto].
    + intros [H|H]; [left; congruence | auto].
    + intros [H|H]; [auto|]. apply IH in H. tauto.
Qed.

Lemma storeAll_holds (events : list Event) :
  forall (seen : list Event) (b : Bucket),
    ordered b -> holds seen b ->
    ordered (storeAll events b) /\ holds (seen ++ events) (storeAll events b).
Proof.
  induction events as [|e events IH]; intros seen b Hord Hh; simpl.
  - now rewrite app_nil_r.
  - replace (seen ++ e :: events) with ((seen ++ [e]) ++ events)
      by now rewrite <- app_assoc.
    apply IH.
    + unfold Store. destruct (marshal e); simpl; [now apply ordered_Put | exact Hord].
    + intros k v Hin. unfold Store in Hin.
      destruct (marshal e) as [data|] eqn:Hm; simpl in Hin.
      * apply In_Put in Hin as [Heq|Hin].
        -- injection Heq as -> ->. exists e. split; [|split].
           ++ apply in_or_app. right. now left.
           ++ now apply Hrt.
           ++ reflexivity.
        -- destruct (Hh _ _ Hin) as (e' & H1 & H2).
           exists e'. split; [apply in_or_app; now left | exact H2].
      * destruct (Hh _ _ Hin) as (e' & H1 & H2).
        exists e'. split; [apply in_or_app; now left | exact H2].
Qed.

Lemma holds_keys (events : list Event) (b : Bucket) :
  holds events b ->
  map eventKey (decoded b) = keys b /\ Forall (fun e => In e events) (decoded b).
Proof.
  induction b as [|[k v] b IH]; intros Hh; simpl; [now split|].
  destruct (Hh k v (or_introl eq_refl)) as (e & Hin & Hdec & Hk).
  rewrite Hdec. simpl.
  destruct IH as [IH1 IH2].
  { intros k' v' H. apply Hh. now right. }
  split; [now rewrite IH1, Hk | now constructor].
Qed.

End StoreRuns.

Lemma StronglySorted_map_transfer {A B : Type} (f : A -> B)
    (R : B -> B -> Prop) (R' : A -> A -> Prop) (P : A -> Prop) (l : list A) :
  (forall x y, P x -> P y -> R (f x) (f y) -> R' x y) ->
  Forall P l -> StronglySorted R (map f l) -> StronglySorted R' l.
Proof.
  intros Himp. induction l as [|a l IH]; intros HP Hs; [constructor|].
  inversion HP; subst. simpl in Hs. inversion Hs; subst.
  constructor; [now apply IH|].
  rewrite Forall_forall in *. intros x Hx.
  apply Himp; auto.
  match goal with H : forall y, In y (map f l) -> _ |- _ => apply H end.
  now apply in_map.
Qed.

Lemma lt_key_earlier (e e' : buffer.Event) :
  spec.nineteenDigits (buffer.Timestamp e) ->
  spec.nineteenDigits (buffer.Timestamp e') ->
  buffer.lt_key (buffer.eventKey e) (buffer.eventKey e') -> spec.earlier e e'.
Proof.
  intros Ht Ht'. unfold buffer.lt_key, buffer.eventKey.
  rewrite key_compare by assumption. unfold spec.earlier.
  destruct (Z.compare_spec (buffer.Timestamp e) (buffer.Timestamp e'));
    intros Hc; try discriminate; auto.
Qed.

Lemma lt_key_earlier_width (w : nat) (e e' : buffer.Event) :
  spec.sameDigits w (buffer.Timestamp e) ->
  spec.sameDigits w (buffer.Timestamp e') ->
  buffer.lt_key (buffer.eventKey e) (buffer.eventKey e') -> spec.earlier e e'.
Proof.
  intros Ht Ht'. unfold buffer.lt_key, buffer.eventKey.
  rewrite (key_compare_width w) by assumption. unfold spec.earlier.
  destruct (Z.compare_spec (buffer.Timestamp e) (buffer.Timestamp e'));
    intros Hc; try discriminate; auto.
Qed.

(** C6 (amended).  After any run of [Store] calls on an empty buffer, the
    events [GetBatch] returns have strictly ascending keys
    [{unix_nanos}_{id}] in byte-wise order, and a batch size of at least
    [Count] returns one event per stored key.  This is ascending
    ingestion-time order with id as tiebreak whenever the timestamps are at
    or after the epoch, within the int64 range of nanoseconds, and their
    nanosecond values all print with the same number [w] of decimal digits;
    every instant from 2001-09-09 to 2262 is such a timestamp, with 19
    digits. *)
Theorem GetBatch_after_Stores `{codec : buffer.Codec}
    (events : list buffer.Event) (n : Z) :
  spec.roundtrip codec ->
  let b := buffer.storeAll events [] in
  let out := fst (buffer.GetBatch n b) in
  StronglySorted buffer.lt_key (map buffer.eventKey out) /\
  (fst (buffer.Count b) <= n -> map buffer.eventKey out = buffer.keys b) /\
  (forall w : nat,
     Forall (fun e => spec.sameDigits w (buffer.Timestamp e)) events ->
     spec.timeOrdered out) /\
  (Forall (fun e => spec.nineteenDigits (buffer.Timestamp e)) events ->
   spec.timeOrdered out).
Proof.
  intros Hrt b out.
  destruct (storeAll_holds Hrt events [] [] ordered_nil) as [Hord Hh].
  { intros k v []. }
  fold b in Hord, Hh. simpl in Hh.
  destruct (holds_keys events b Hh) as [Hkeys Hin].
  assert (Hout : out = firstn (Z.to_nat n) (buffer.decoded b)).
  { unfold out. now rewrite GetBatch_decoded. }
  assert (Hsorted : StronglySorted buffer.lt_key (map buffer.eventKey out)).
  { rewrite Hout, <- firstn_map, Hkeys. now apply StronglySorted_firstn. }
  assert (Hwidth : forall w : nat,
            Forall (fun e => spec.sameDigits w (buffer.Timestamp e)) events ->
            spec.timeOrdered out).
  { intros w Hdig.
    apply (StronglySorted_map_transfer buffer.eventKey buffer.lt_key
             spec.earlier
             (fun e => spec.sameDigits w (buffer.Timestamp e)));
      [intros x y; apply lt_key_earlier_width | | exact Hsorted].
    rewrite Forall_forall in *. intros e He. apply Hdig.
    apply Hin. rewrite Hout in He. eapply firstn_In, He. }
  split; [exact Hsorted|split; [|split]].
  - intros Hn. rewrite Hout, firstn_all2, Hkeys; [reflexivity|].
    pose proof (length_decoded b). unfold buffer.Count, buffer.KeyN in Hn.
    simpl in Hn. lia.
  - exact Hwidth.
  - intros Hdig. apply (Hwidth 19%nat).
    rewrite Forall_forall in *. intros e He.
    apply nineteenDigits_sameDigits, Hdig, He.
Qed.

Lemma GetBatch_after_Stores_witness :
  let e1 := samples.ev "b" samples.t0 0 None in
  let e2 := samples.ev "a" (samples.t0 + 1) 0 None in
  let e3 := samples.ev "a" samples.t0 0 None in
  spec.roundtrip wire.codec /\
  Forall (fun e => spec.sameDigits 19 (buffer.Timestamp e)) [e1; e2; e3] /\
  fst (buffer.GetBatch (codec := wire.codec) 3
         (buffer.storeAll (codec := wire.codec) [e1; e2; e3] []))
  = [e3; e1; e2] /\
  spec.timeOrdered
    (fst (buffer.GetBatch (codec := wire.codec) 3
            (buffer.storeAll (codec := wire.codec) [e1; e2; e3] []))).
Proof.
  intros e1 e2 e3.
  assert (Hdig : Forall (fun e => spec.sameDigits 19 (buffer.Timestamp e))
                   [e1; e2; e3]).
  { repeat (constructor; [split; [vm_compute; split; congruence | reflexivity]|]).
    constructor. }
  split; [exact wire_roundtrip|split; [exact Hdig|split; [reflexivity|]]].
  pose proof (GetBatch_after_Stores (codec := wire.codec) [e1; e2; e3] 3
                wire_roundtrip) as H.
  cbv zeta in H. destruct H as (_ & _ & H & _).
  exact (H 19%nat Hdig).
Defined.

(** C6 as stated fails for timestamps of different decimal width.  On a
    clock that starts at the epoch, the key of the event ingested 10 s after
    it, [10000000000_a], sorts before the key of the event ingested 9 s after
    it, [9000000000_a], so the later event comes back first. *)
Lemma GetBatch_keys_not_time_order :
  let e9 := samples.ev "a" (9 * time.Second) 0 None in
  let e10 := samples.ev "a" (10 * time.Second) 0 None in
  let out := fst (buffer.GetBatch (codec := wire.codec) 2
                    (buffer.storeAll (codec := wire.codec) [e9; e10] [])) in
  out = [e10; e9] /\ ~ spec.timeOrdered out.
Proof.
  intros e9 e10 out.
  assert (Hout : out = [e10; e9]) by reflexivity.
  split; [exact Hout|].
  rewrite Hout. intros H. inversion H as [|? ? _ Hall]; subst.
  inversion Hall as [|? ? Hearlier _]; subst.
  destruct Hearlier as [Hlt|[Heq _]]; vm_compute in *; congruence.
Qed.

(** Nor does it hold before the epoch, even at one decimal width: of two
    events stamped 5 ns and 3 ns before the epoch, the key [-3_a] of the
    later one sorts before the key [-5_a] of the earlier one. *)
Lemma GetBatch_before_epoch_reversed :
  let e5 := samples.ev "a" (- 5) 0 None in
  let e3 := samples.ev "a" (- 3) 0 None in
  let out := fst (buffer.GetBatch (codec := wire.codec) 2
                    (buffer.storeAll (codec := wire.codec) [e5; e3] [])) in
  spec.digitCount (- 5) = spec.digitCount (- 3) /\
  out = [e3; e5] /\ ~ spec.timeOrdered out.
Proof.
  intros e5 e3 out.
  assert (Hout : out = [e3; e5]) by reflexivity.
  split; [reflexivity|split; [exact Hout|]].
  rewrite Hout. intros H. inversion H as [|? ? _ Hall]; subst.
  inversion Hall as [|? ? Hearlier _]; subst.
  destruct Hearlier as [Hlt|[Heq _]]; vm_compute in *; congruence.
Qed.

(** ** The retry loop *)

Section Retry.
Import buffer sync.
Context {codec : Codec}.
Variable cfg : config.KafkaConfig.
Variable world : World.

Lemma backoffAt_bounds (i : nat) : 0 < spec.backoffAt i <= 30 * time.Second.
Proof.
  induction i as [|i IH]; cbn [spec.backoffAt]; unfold time.Second in *; lia.
Qed.

Lemma nextBackoff_backoffAt (i : nat) :
  nextBackoff (spec.backoffAt i) = spec.backoffAt (S i).
Proof.
  pose proof (backoffAt_bounds i) as H. unfold nextBackoff.
  cbn [spec.backoffAt]. unfold time.Second in *.
  rewrite wrap64_small by lia.
  destruct (Z.ltb_spec (30 * 1000000000) (spec.backoffAt i * 2)); lia.
Qed.

Lemma retryLoop_shape (messages : list Message) (remaining : nat) :
  forall (attempt : nat) (tr : list action),
    let r := retryLoop world messages remaining attempt
               (spec.backoffAt (pred attempt)) tr in
    exists j : nat,
      (j <= remaining)%nat /\
      match fst r with
      | Acked =>
          (j < remaining)%nat /\
          snd r = tr ++ spec.failedFrom messages attempt j
                     ++ spec.pauseBefore (attempt + j) ++ [Write messages true]
      | CtxDone =>
          (j < remaining)%nat /\ (0 < attempt + j)%nat /\
          snd r = tr ++ spec.failedFrom messages attempt j ++ [Cancelled]
      | Offline =>
          (0 < j)%nat /\ online world (attempt + j - 1) = false /\
          snd r = tr ++ spec.failedFrom messages attempt j
      | Exhausted =>
          j = remaining /\
          snd r = tr ++ spec.failedFrom messages attempt j
      end.
Proof.
  induction remaining as [|remaining IH]; intros attempt tr r.
  - exists O. simpl. now rewrite app_nil_r.
  - unfold r. cbn [retryLoop].
    assert (Hstep :
      forall backoff' tr1,
        backoff' = spec.backoffAt attempt ->
        tr1 = tr ++ spec.pauseBefore attempt ->
        let r' := (if acked world attempt
                   then (Acked, tr1 ++ [Write messages true])
                   else if online world attempt
                        then retryLoop world messages remaining (S attempt)
                               backoff' (tr1 ++ [Write messages false])
                        else (Offline, tr1 ++ [Write messages false])) in
        exists j : nat,
          (j <= S remaining)%nat /\
          match fst r' with
          | Acked =>
              (j < S remaining)%nat /\
              snd r' = tr ++ spec.failedFrom messages attempt j
                          ++ spec.pauseBefore (attempt + j)
                          ++ [Write messages true]
          | CtxDone =>
              (j < S remaining)%nat /\ (0 < attempt + j)%nat /\
              snd r' = tr ++ spec.failedFrom messages attempt j ++ [Cancelled]
          | Offline =>
              (0 < j)%nat /\ online world (attempt + j - 1) = false /\
              snd r' = tr ++ spec.failedFrom messages attempt j
          | Exhausted =>
              j = S remaining /\
              snd r' = tr ++ spec.failedFrom messages attempt j
          end).
    { intros backoff' tr1 -> -> r'. unfold r'.
      destruct (acked world attempt).
      - exists O. cbn [fst snd spec.failedFrom]. rewrite Nat.add_0_r.
        split; [lia|split; [lia|]]. now rewrite <- app_assoc.
      - destruct (online world attempt) eqn:Hon.
        + specialize (IH (S attempt)
                         ((tr ++ spec.pauseBefore attempt)
                            ++ [Write messages false])).
          cbn [pred] in IH. destruct IH as (j & Hj & IH).
          exists (S j). split; [lia|].
          replace (attempt + S j)%nat with (S attempt + j)%nat by lia.
          replace (S attempt + j - 1)%nat with (attempt + j)%nat by lia.
          replace (S attempt + j - 1)%nat with (attempt + j)%nat in IH by lia.
          cbn [spec.failedFrom].
          destruct (fst (retryLoop world messages remaining (S attempt)
                           (spec.backoffAt attempt)
                           ((tr ++ spec.pauseBefore attempt)
                              ++ [Write messages false]))).
          * destruct IH as [H1 H2]. split; [lia|]. rewrite H2.
            rewrite <- !app_assoc. reflexivity.
          * destruct IH as (H1 & H2 & H3). split; [lia|split; [lia|]].
            rewrite H3. rewrite <- !app_assoc. reflexivity.
          * destruct IH as (H1 & H2 & H3). split; [lia|split; [exact H2|]].
            rewrite H3. rewrite <- !app_assoc. reflexivity.
          * destruct IH as (H1 & H2). split; [lia|].
            rewrite H2. rewrite <- !app_assoc. reflexivity.
        + exists 1%nat. cbn [fst snd spec.failedFrom].
          replace (attempt + 1 - 1)%nat with attempt by lia.
          split; [lia|split; [lia|split; [exact Hon|]]].
          now rewrite <- app_assoc. }
    destruct attempt as [|i].
    + apply Hstep; [reflexivity | now rewrite app_nil_r].
    + cbn [pred]. destruct (cancelled world (S i)).
      * exists O. cbn [fst snd spec.failedFrom]. simpl. split; [lia|].
        split; [lia|split; [lia|reflexivity]].
      * apply Hstep; [apply nextBackoff_backoffAt | reflexivity].
Qed.

Lemma filter_isWrite_failedFrom (messages : list Message) (j : nat) :
  forall i, List.length (filter isWrite (spec.failedFrom messages i j)) = j.
Proof.
  induction j as [|j IH]; intros i; simpl; [reflexivity|].
  rewrite filter_app. destruct i; simpl; now rewrite IH.
Qed.

Lemma bumpRetries_spec (events : list Event) :
  forall (b : Bucket) (tr : list action),
    bumpRetries events b tr = (spec.bumped events b, tr ++ spec.bumps events).
Proof.
  induction events as [|e events IH]; intros b tr; simpl.
  - now rewrite app_nil_r.
  - rewrite IH. unfold spec.bumped. simpl. now rewrite <- app_assoc.
Qed.

End Retry.

(** C3.  [writeWithRetry] makes at most KAFKA_RETRIES write attempts; before
    every attempt but the first it pauses, for 1 s, 2 s, 4 s, 8 s, 16 s and
    then 30 s each time.  It ends in one of three ways: a write is
    acknowledged (no error, no retries update); the context is cancelled
    during a pause (the context's error, no retries update); or every attempt
    made has failed, the loop having run out of attempts or stopped because
    the monitor reported Offline, in which case
    [UpdateRetries(e.id, e.timestamp, e.retries + 1)] is called for every
    event of the batch, in order, and an error is returned. *)
Theorem writeWithRetry_outcomes `{codec : buffer.Codec}
    (cfg : config.KafkaConfig) (world : sync.World)
    (messages : list sync.Message) (events : list buffer.Event)
    (b : buffer.Bucket) :
  let '(err, b', tr) := sync.writeWithRetry cfg world messages events b [] in
  let retries := Z.to_nat (config.Retries cfg) in
  Z.of_nat (List.length (filter sync.isWrite tr)) <= Z.max 0 (config.Retries cfg) /\
  exists j : nat,
    (err = None /\ b' = b /\ (j < retries)%nat /\
     tr = spec.failedFrom messages 0 j ++ spec.pauseBefore j
            ++ [sync.Write messages true]) \/
    (err = Some sync.CtxErr /\ b' = b /\ (0 < j < retries)%nat /\
     tr = spec.failedFrom messages 0 j ++ [sync.Cancelled]) \/
    (err = Some (sync.AfterRetries (config.Retries cfg)) /\
     (j = retries \/ ((0 < j)%nat /\ sync.online world (j - 1) = false)) /\
     b' = spec.bumped events b /\
     tr = spec.failedFrom messages 0 j ++ spec.bumps events).
Proof.
  unfold sync.writeWithRetry.
  destruct (retryLoop_shape world messages (Z.to_nat (config.Retries cfg)) O [])
    as (j & Hj & Hshape).
  cbn [pred spec.backoffAt app Nat.add] in Hshape.
  destruct (sync.retryLoop world messages (Z.to_nat (config.Retries cfg)) 0
              time.Second []) as [exit tr] eqn:Hloop.
  cbn [fst snd] in Hshape.
  assert (Hcount : forall l,
            (List.length (filter sync.isWrite l) <= 1)%nat ->
            Z.of_nat (List.length (filter sync.isWrite
                                     (spec.failedFrom messages 0 j ++ l)))
            <= Z.of_nat j + Z.of_nat (List.length (filter sync.isWrite l))).
  { intros l _. rewrite filter_app, length_app, filter_isWrite_failedFrom. lia. }
  destruct exit.
  - destruct Hshape as [Hlt ->]. split.
    + rewrite filter_app, length_app, filter_isWrite_failedFrom, filter_app,
        length_app.
      destruct j; simpl; lia.
    + exists j. left. auto.
  - destruct Hshape as (Hlt & Hpos & ->). split.
    + rewrite filter_app, length_app, filter_isWrite_failedFrom. simpl. lia.
    + exists j. right. left. repeat split; auto; lia.
  - destruct Hshape as (Hpos & Hoff & ->).
    rewrite bumpRetries_spec. split.
    + rewrite filter_app, length_app, filter_isWrite_failedFrom.
      assert (Hb : filter sync.isWrite (spec.bumps events) = []).
      { unfold spec.bumps. induction events; simpl; auto. }
      rewrite Hb. simpl. lia.
    + exists j. right. right. repeat split; auto.
  - destruct Hshape as (-> & ->).
    rewrite bumpRetries_spec. split.
    + rewrite filter_app, length_app, filter_isWrite_failedFrom.
      assert (Hb : filter sync.isWrite (spec.bumps events) = []).
      { unfold spec.bumps. induction events; simpl; auto. }
      rewrite Hb. simpl. lia.
    + exists (Z.to_nat (config.Retries cfg)). right. right. repeat split; auto.
Qed.

(** With KAFKA_RETRIES = 8 and a downstream that rejects every write: eight
    attempts, pauses of 1, 2, 4, 8, 16, 30 and 30 seconds, then the retries
    of both events are bumped. *)
Example writeWithRetry_rejecting :
  let e1 := samples.ev "a" samples.t0 0 None in
  let e2 := samples.ev "b" samples.t0 4 None in
  let b := samples.store1 e2 (samples.store1 e1 []) in
  let '(err, b', tr) :=
    sync.writeWithRetry (codec := wire.codec) (config.mkKafkaConfig 8 1000)
      samples.rejecting [] [e1; e2] b [] in
  err = Some (sync.AfterRetries 8) /\
  sync.waits tr = map (fun s => s * time.Second) [1; 2; 4; 8; 16; 30; 30] /\
  filter sync.isBump tr
  = [sync.BumpRetries "a" samples.t0 1; sync.BumpRetries "b" samples.t0 5] /\
  buffer.decoded (codec := wire.codec) b'
  = [buffer.withRetries 1 e1; buffer.withRetries 5 e2].
Proof. vm_compute. repeat split; reflexivity. Qed.

(** ** One sync batch *)

Section Batch.
Import buffer sync.
Context {codec : Codec}.
Variable RFC3339 : time.Time -> string.
Variable cfg : config.KafkaConfig.
Variable world : World.

Lemma retryLoop_noDel (messages : list Message) (remaining : nat) :
  forall attempt backoff tr,
    Forall noDel tr ->
    Forall noDel (snd (retryLoop world messages remaining attempt backoff tr)).
Proof.
  induction remaining as [|remaining IH]; intros attempt backoff tr Htr;
    cbn [retryLoop]; [exact Htr|].
  assert (Hsnoc : forall l a, Forall noDel l -> noDel a -> Forall noDel (l ++ [a])).
  { intros l a Hl Ha. apply Forall_app. split; [exact Hl | now constructor]. }
  destruct attempt as [|i].
  - destruct (acked world 0); [now apply Hsnoc|].
    destruct (online world 0); [apply IH|]; now apply Hsnoc.
  - destruct (cancelled world (S i)); [now apply Hsnoc|].
    destruct (acked world (S i)); [now repeat apply Hsnoc|].
    destruct (online world (S i)); [apply IH|]; now repeat apply Hsnoc.
Qed.

Lemma retryLoop_acked (messages : list Message) (remaining : nat) :
  forall attempt backoff tr,
    fst (retryLoop world messages remaining attempt backoff tr) = Acked ->
    In (Write messages true)
       (snd (retryLoop world messages remaining attempt backoff tr)).
Proof.
  induction remaining as [|remaining IH]; intros attempt backoff tr;
    cbn [retryLoop]; [discriminate|].
  destruct attempt as [|i].
  - destruct (acked world 0).
    + intros _. apply in_or_app. right. now left.
    + destruct (online world 0); [apply IH | discriminate].
  - destruct (cancelled world (S i)); [discriminate|].
    destruct (acked world (S i)).
    + intros _. apply in_or_app. right. now left.
    + destruct (online world (S i)); [apply IH | discriminate].
Qed.

Lemma UpdateRetries_keys id ts r (b : Bucket) :
  ordered b ->
  ordered (fst (UpdateRetries id ts r b)) /\
  keys (fst (UpdateRetries id ts r b)) = keys b.
Proof.
  intros Hord. unfold UpdateRetries.
  destruct (Get (key id ts) b) as [value|] eqn:Hget; [|now split].
  destruct (unmarshal value) as [e|]; [|now split].
  destruct (marshal (withRetries r e)) as [data|]; [|now split].
  cbn [fst]. split; [now apply ordered_Put|].
  apply keys_Put_present; [exact Hord | congruence].
Qed.

Lemma bumped_keys (events : list Event) :
  forall b : Bucket, ordered b -> keys (spec.bumped events b) = keys b.
Proof.
  unfold spec.bumped.
  induction events as [|e events IH]; intros b Hord; simpl; [reflexivity|].
  destruct (UpdateRetries_keys (ID e) (Timestamp e) (int_add (Retries e) 1) b Hord)
    as [Hord' Hkeys].
  now rewrite IH, Hkeys.
Qed.

Lemma deleteAll_trace (events : list Event) :
  forall (b : Bucket) (tr : list action),
    snd (deleteAll events b tr)
    = tr ++ map (fun e => Del (ID e) (Timestamp e)) events.
Proof.
  induction events as [|e events IH]; intros b tr; simpl.
  - now rewrite app_nil_r.
  - rewrite IH. now rewrite <- app_assoc.
Qed.

Lemma split_after_prefix (A L pre post : list action) id ts :
  Forall noDel A ->
  A ++ L = pre ++ Del id ts :: post ->
  exists pre', pre = A ++ pre' /\ L = pre' ++ Del id ts :: post.
Proof.
  revert pre. induction A as [|a A IH]; intros pre HA Heq.
  - exists pre. now split.
  - inversion HA as [|? ? Ha HA']; subst.
    destruct pre as [|p pre]; simpl in Heq.
    + injection Heq as -> _. discriminate Ha.
    + injection Heq as <- Heq.
      destruct (IH pre HA' Heq) as (pre' & -> & HL).
      exists pre'. now split.
Qed.

Lemma buildMessages_In (events : list Event) e v :
  In e events -> marshal e = Some v ->
  exists m, In m (buildMessages RFC3339 events) /\
            Key m = list_byte_of_string (ID e) /\ Value m = v.
Proof.
  intros Hin Hm. induction events as [|e0 events IH]; [destruct Hin|].
  simpl. destruct Hin as [->|Hin].
  - rewrite Hm. eexists. split; [now left|]. now split.
  - destruct (IH Hin) as (m & H1 & H2).
    exists m. split; [|exact H2].
    destruct (marshal e0); [now right | exact H1].
Qed.

Lemma syncEvents_safe (events : list Event) (b : Bucket) (tr0 : list action) :
  ordered b -> Forall noDel tr0 ->
  (forall e, In e events -> marshal e <> None) ->
  let '(err, b', tr) := syncEvents RFC3339 cfg world events b tr0 in
  spec.deletedAfterAck events (buildMessages RFC3339 events) tr /\
  ((forall messages, ~ In (Write messages true) tr) -> keys b' = keys b).
Proof.
  intros Hord Htr0 Henc.
  assert (Hnone : forall tr, Forall noDel tr ->
            spec.deletedAfterAck events (buildMessages RFC3339 events) tr).
  { intros tr Htr pre id ts post ->.
    apply Forall_app in Htr as [_ Htr]. inversion Htr as [|? ? Hd _]; subst.
    discriminate Hd. }
  unfold syncEvents.
  destruct events as [|e0 events0] eqn:Hev; [split; auto|].
  rewrite <- Hev in *. clear Hev.
  destruct (buildMessages RFC3339 events) as [|m0 messages0] eqn:Hmsgs;
    [split; auto|].
  rewrite <- Hmsgs in *.
  unfold writeWithRetry.
  pose proof (retryLoop_noDel (buildMessages RFC3339 events)
                (Z.to_nat (config.Retries cfg)) O time.Second tr0 Htr0) as Hnd.
  pose proof (retryLoop_acked (buildMessages RFC3339 events)
                (Z.to_nat (config.Retries cfg)) O time.Second tr0) as Hack.
  destruct (retryLoop world (buildMessages RFC3339 events)
              (Z.to_nat (config.Retries cfg)) 0 time.Second tr0)
    as [exit tr1].
  cbn [fst snd] in Hnd, Hack.
  assert (Hbump : Forall noDel (tr1 ++ spec.bumps events)).
  { apply Forall_app. split; [exact Hnd|].
    unfold spec.bumps. apply Forall_forall. intros a Ha.
    apply in_map_iff in Ha as (e & <- & _). reflexivity. }
  destruct exit.
  - (* acknowledged: the deletes follow *)
    destruct (deleteAll events b tr1) as [b2 tr2] eqn:Hdel.
    pose proof (deleteAll_trace events b tr1) as Htr2.
    rewrite Hdel in Htr2. cbn [snd] in Htr2. subst tr2.
    split.
    + intros pre id ts post Hsplit.
      destruct (split_after_prefix _ _ _ _ _ _ Hnd Hsplit) as (pre' & -> & Hmap).
      split; [apply in_or_app; left; now apply Hack|].
      assert (Hin : In (Del id ts) (map (fun e => Del (ID e) (Timestamp e)) events)).
      { rewrite Hmap. apply in_or_app. right. now left. }
      apply in_map_iff in Hin as (e & Heq & Hin).
      injection Heq as <- <-.
      destruct (marshal e) as [v|] eqn:Hm; [|now apply Henc in Hin].
      destruct (buildMessages_In events e v Hin Hm) as (m & Hm1 & Hm2 & Hm3).
      exists e, m. subst v. repeat split; auto.
    + intros Hno. exfalso. apply (Hno (buildMessages RFC3339 events)).
      apply in_or_app. left. now apply Hack.
  - split; [now apply Hnone | reflexivity].
  - rewrite bumpRetries_spec.
    split; [now apply Hnone | intros _; now apply bumped_keys].
  - rewrite bumpRetries_spec.
    split; [now apply Hnone | intros _; now apply bumped_keys].
Qed.

Lemma fetched_encodes now n (b : Bucket) e :
  spec.reencodes codec ->
  In e (fst (GetReadyEvents now n b)) -> marshal e <> None.
Proof.
  intros Hre Hin. rewrite GetReadyEvents_decoded in Hin. cbn [fst] in Hin.
  apply firstn_In, filter_In in Hin as [Hin _].
  apply decoded_In in Hin as (k & v & _ & Hdec).
  rewrite <- (withRetries_same e). now apply (Hre v).
Qed.

End Batch.

(** C2.  In every run of [syncBatch] (either revision), a [Delete] is issued
    for an event only after [writeWithRetry] had a write of the batch's
    messages acknowledged: the acknowledged write precedes the [Delete] in the
    trace, the deleted pair is an event of the fetched batch, and that event
    is in the acknowledged messages.  A run without an acknowledged write
    leaves the set of stored keys as it was. *)
Theorem syncBatch_deletes_after_ack `{codec : buffer.Codec}
    (RFC3339 : time.Time -> string) (cfg : config.KafkaConfig)
    (world : sync.World) (now : time.Time) (b : buffer.Bucket) :
  spec.reencodes codec -> buffer.ordered b ->
  (let events := fst (buffer.GetReadyEvents now (config.BatchSize cfg) b) in
   let '(err, b', tr) := sync.syncBatch RFC3339 cfg world now b in
   spec.deletedAfterAck events (sync.buildMessages RFC3339 events) tr /\
   ((forall messages, ~ In (sync.Write messages true) tr) ->
    buffer.keys b' = buffer.keys b)) /\
  (let events := fst (buffer.GetReadyEvents now (config.Retries cfg) b) in
   let '(err, b', tr) := sync.syncBatch_r1 RFC3339 cfg world now b in
   spec.deletedAfterAck events (sync.buildMessages RFC3339 events) tr /\
   ((forall messages, ~ In (sync.Write messages true) tr) ->
    buffer.keys b' = buffer.keys b)).
Proof.
  intros Hre Hord.
  assert (H : forall n,
    let events := fst (buffer.GetReadyEvents now n b) in
    let '(err, b', tr) :=
      sync.syncEvents RFC3339 cfg world events b [sync.GetReady n] in
    spec.deletedAfterAck events (sync.buildMessages RFC3339 events) tr /\
    ((forall messages, ~ In (sync.Write messages true) tr) ->
     buffer.keys b' = buffer.keys b)).
  { intros n events. apply syncEvents_safe.
    - exact Hord.
    - now repeat constructor.
    - intros e He. eapply fetched_encodes; eassumption. }
  split.
  - specialize (H (config.BatchSize cfg)).
    unfold sync.syncBatch. rewrite GetReadyEvents_decoded in *. exact H.
  - specialize (H (config.Retries cfg)).
    unfold sync.syncBatch_r1. rewrite GetReadyEvents_decoded in *. exact H.
Qed.

Lemma syncBatch_deletes_after_ack_witness :
  spec.reencodes wire.codec /\ buffer.ordered samples.five /\
  let events :=
    fst (buffer.GetReadyEvents (codec := wire.codec) samples.t0 1000 samples.five) in
  let '(err, b', tr) :=
    sync.syncBatch (codec := wire.codec) samples.stamp samples.defaults
      samples.healthy samples.t0 samples.five in
  spec.deletedAfterAck (codec := wire.codec) events
    (sync.buildMessages (codec := wire.codec) samples.stamp events) tr.
Proof.
  split; [exact wire_reencodes|].
  assert (Hord : buffer.ordered samples.five)
    by (apply orderedb_sound; reflexivity).
  split; [exact Hord|].
  pose proof (proj1 (syncBatch_deletes_after_ack (codec := wire.codec)
                       samples.stamp samples.defaults samples.healthy
                       samples.t0 samples.five wire_reencodes Hord)) as H.
  cbv zeta in H |- *. change (config.BatchSize samples.defaults) with 1000 in H.
  destruct (sync.syncBatch samples.stamp samples.defaults samples.healthy
              samples.t0 samples.five) as [[err b'] tr].
  exact (proj1 H).
Defined.

(** ** How many events a batch fetches *)

Section Fetch.
Import buffer sync.
Context {codec : Codec}.
Variable RFC3339 : time.Time -> string.
Variable cfg : config.KafkaConfig.
Variable world : World.

Lemma syncEvents_trace (events : list Event) (b : Bucket) (tr0 : list action) :
  exists rest,
    snd (syncEvents RFC3339 cfg world events b tr0) = tr0 ++ rest /\
    (events = [] ->
     syncEvents RFC3339 cfg world events b tr0 = (None, b, tr0)).
Proof.
  unfold syncEvents.
  destruct events as [|e0 events0] eqn:Hev.
  { exists []. now rewrite app_nil_r. }
  rewrite <- Hev.
  destruct (buildMessages RFC3339 events) as [|m0 messages0] eqn:Hmsgs.
  { exists []. rewrite app_nil_r. split; [reflexivity | congruence]. }
  rewrite <- Hmsgs. unfold writeWithRetry.
  destruct (retryLoop_shape world (buildMessages RFC3339 events)
              (Z.to_nat (config.Retries cfg)) O tr0) as (j & _ & Hshape).
  cbn [pred spec.backoffAt] in Hshape.
  destruct (retryLoop world (buildMessages RFC3339 events)
              (Z.to_nat (config.Retries cfg)) 0 time.Second tr0)
    as [exit tr1].
  cbn [fst snd] in Hshape.
  destruct exit.
  - destruct Hshape as [_ ->].
    destruct (deleteAll events b _) as [b2 tr2] eqn:Hdel.
    pose proof (deleteAll_trace events b
                  (tr0 ++ spec.failedFrom (buildMessages RFC3339 events) 0 j
                       ++ spec.pauseBefore (0 + j)
                       ++ [Write (buildMessages RFC3339 events) true])) as Htr.
    rewrite Hdel in Htr. cbn [snd] in *. rewrite Htr, <- app_assoc.
    eexists. split; [reflexivity | congruence].
  - destruct Hshape as (_ & _ & ->). cbn [snd].
    eexists. split; [reflexivity | congruence].
  - destruct Hshape as (_ & _ & ->). rewrite bumpRetries_spec. cbn [snd].
    rewrite <- app_assoc. eexists. split; [reflexivity | congruence].
  - destruct Hshape as (_ & ->). rewrite bumpRetries_spec. cbn [snd].
    rewrite <- app_assoc. eexists. split; [reflexivity | congruence].
Qed.

(** The second revision asks the buffer for [BatchSize] events and returns at
    once, without a write, when none is ready. *)
Lemma syncBatch_fetches_BatchSize now (b : Bucket) :
  (exists rest,
     snd (syncBatch RFC3339 cfg world now b)
     = GetReady (config.BatchSize cfg) :: rest) /\
  (fst (GetReadyEvents now (config.BatchSize cfg) b) = [] ->
   syncBatch RFC3339 cfg world now b
   = (None, b, [GetReady (config.BatchSize cfg)])).
Proof.
  unfold syncBatch. rewrite GetReadyEvents_decoded. cbn [fst].
  destruct (syncEvents_trace
              (firstn (Z.to_nat (config.BatchSize cfg))
                 (filter (isReady now) (decoded b)))
              b [GetReady (config.BatchSize cfg)]) as (rest & H1 & H2).
  split; [exists rest; exact H1 | exact H2].
Qed.

(** The first revision asks for [Retries] events instead. *)
Lemma syncBatch_r1_fetches_Retries now (b : Bucket) :
  (exists rest,
     snd (syncBatch_r1 RFC3339 cfg world now b)
     = GetReady (config.Retries cfg) :: rest) /\
  (fst (GetReadyEvents now (config.Retries cfg) b) = [] ->
   syncBatch_r1 RFC3339 cfg world now b
   = (None, b, [GetReady (config.Retries cfg)])).
Proof.
  unfold syncBatch_r1. rewrite GetReadyEvents_decoded. cbn [fst].
  destruct (syncEvents_trace
              (firstn (Z.to_nat (config.Retries cfg))
                 (filter (isReady now) (decoded b)))
              b [GetReady (config.Retries cfg)]) as (rest & H1 & H2).
  split; [exists rest; exact H1 | exact H2].
Qed.

End Fetch.

(** C8 on the first revision of kafka.go (lines 72-119): with the default
    configuration (KAFKA_RETRIES = 3, batch size 1000) and five ready events
    buffered, [syncBatch] asks the buffer for 3 events, the retry count, and
    forwards only those; two events stay behind.  The second revision
    (lines 270-317) asks for 1000 and drains the buffer. *)
Theorem syncBatch_r1_batch_is_retry_count :
  let r1 := sync.syncBatch_r1 (codec := wire.codec) samples.stamp
              samples.defaults samples.healthy samples.t0 samples.five in
  let r2 := sync.syncBatch (codec := wire.codec) samples.stamp
              samples.defaults samples.healthy samples.t0 samples.five in
  fst (buffer.Count samples.five) = 5 /\
  List.length (fst (buffer.GetReadyEvents (codec := wire.codec) samples.t0 1000
                      samples.five)) = 5%nat /\
  hd_error (snd r1) = Some (sync.GetReady 3) /\
  fst (fst r1) = None /\
  List.length (filter sync.isDel (snd r1)) = 3%nat /\
  fst (buffer.Count (snd (fst r1))) = 2 /\
  hd_error (snd r2) = Some (sync.GetReady 1000) /\
  List.length (filter sync.isDel (snd r2)) = 5%nat /\
  fst (buffer.Count (snd (fst r2))) = 0.
Proof. vm_compute. repeat split; reflexivity. Qed.

(** ** Keys can be read back *)

Section KeyInjective.
Import strconv.

Lemma wrap64_range (z : Z) : - 2 ^ 63 <= wrap64 z < 2 ^ 63.
Proof.
  unfold wrap64. pose proof (Z.mod_pos_bound (z + 2 ^ 63) (2 ^ 64)). lia.
Qed.

Lemma digitOf_digitChar (d : Z) : 0 <= d < 10 -> digitOf (digitChar d) = d.
Proof.
  intros H. unfold digitOf, digitChar.
  rewrite N_ascii_embedding by lia. lia.
Qed.

Lemma isDigit_digitChar (d : Z) : 0 <= d < 10 -> isDigit (digitChar d) = true.
Proof.
  intros H. unfold isDigit, digitChar.
  rewrite N_ascii_embedding by lia.
  apply andb_true_intro. split; apply N.leb_le; lia.
Qed.

Lemma valueOf_app (s t : string) (a : Z) :
  valueOf (s ++ t) a = valueOf t (valueOf s a).
Proof. revert a. induction s as [|c s IH]; intros a; simpl; auto. Qed.

Lemma allDigits_app (s t : string) :
  allDigits (s ++ t) = allDigits s && allDigits t.
Proof.
  induction s as [|c s IH]; simpl; [reflexivity|].
  now rewrite IH, andb_assoc.
Qed.

Lemma formatBits_digits (fuel : nat) :
  forall (u : Z) (acc : string),
    0 <= u < 10 ^ Z.of_nat (S fuel) ->
    exists s,
      formatBits (S fuel) u acc = (s ++ acc)%string /\
      allDigits s = true /\ s <> EmptyString /\ valueOf s 0 = u.
Proof.
  assert (Hone : forall u acc, 0 <= u < 10 ->
            exists s,
              String (digitChar u) acc = (s ++ acc)%string /\
              allDigits s = true /\ s <> EmptyString /\ valueOf s 0 = u).
  { intros u acc Hu. exists (String (digitChar u) EmptyString).
    cbn [String.append allDigits valueOf].
    rewrite isDigit_digitChar, digitOf_digitChar by lia.
    repeat split; try lia. discriminate. }
  induction fuel as [|fuel IH]; intros u acc Hu.
  - change (10 ^ Z.of_nat 1) with 10 in Hu. cbn [formatBits].
    destruct (Z.ltb_spec u 10) as [Hlt|Hge]; [now apply Hone | lia].
  - remember (S fuel) as fuel' eqn:Hf. cbn [formatBits].
    destruct (Z.ltb_spec u 10) as [Hlt|Hge]; [apply Hone; lia|].
    rewrite Nat2Z.inj_succ, Z.pow_succ_r in Hu by lia. subst fuel'.
    destruct (IH (u / 10) (String (digitChar (u mod 10)) acc)) as
      (s & Hs & Hd & Hne & Hv).
    { split; [apply Z.div_pos; lia | apply Z.div_lt_upper_bound; lia]. }
    exists (s ++ String (digitChar (u mod 10)) EmptyString)%string.
    pose proof (Z.mod_pos_bound u 10 ltac:(lia)) as Hm.
    rewrite Hs, string_app_assoc, allDigits_app, valueOf_app, Hd, Hv.
    cbn [String.append allDigits valueOf].
    rewrite isDigit_digitChar, digitOf_digitChar by lia.
    repeat split.
    + destruct s; [contradiction | discriminate].
    + pose proof (Z.div_mod u 10 ltac:(lia)). lia.
Qed.

(** [%d] never prints two numbers of the int64 range alike. *)
Lemma formatInt_injective (i j : Z) :
  - 2 ^ 63 <= i < 2 ^ 63 -> - 2 ^ 63 <= j < 2 ^ 63 ->
  formatInt i = formatInt j -> i = j.
Proof.
  intros Hi Hj. unfold formatInt.
  assert (Hpow : 2 ^ 63 < 10 ^ Z.of_nat 20) by (vm_compute; reflexivity).
  assert (Hdig : forall u, 0 <= u <= 2 ^ 63 ->
            exists s, formatBits 20 u EmptyString = s /\
                      allDigits s = true /\ s <> EmptyString /\
                      valueOf s 0 = u).
  { intros u Hu.
    destruct (formatBits_digits 19 u EmptyString) as (s & Hs & H); [lia|].
    exists s. rewrite Hs, string_app_nil_r. split; [reflexivity | exact H]. }
  destruct (Z.ltb_spec i 0), (Z.ltb_spec j 0).
  - destruct (Hdig (- i)) as (s & -> & _ & _ & Hv); [lia|].
    destruct (Hdig (- j)) as (t & -> & _ & _ & Hw); [lia|].
    intros [= ->]. lia.
  - destruct (Hdig j) as (t & -> & Hd & Hne & _); [lia|].
    intros <-. simpl in Hd. discriminate.
  - destruct (Hdig i) as (s & -> & Hd & Hne & _); [lia|].
    intros ->. simpl in Hd. discriminate.
  - destruct (Hdig i) as (s & -> & _ & _ & Hv); [lia|].
    destruct (Hdig j) as (t & -> & _ & _ & Hw); [lia|].
    intros ->. lia.
Qed.


Lemma allDigits_headChars (s : string) : allDigits s = true -> headChars s = true.
Proof.
  induction s as [|c s IH]; simpl; [reflexivity|].
  intros H. apply andb_prop in H as [H1 H2].
  unfold headChar. now rewrite H1, IH.
Qed.

Lemma formatInt_headChars (i : Z) :
  - 2 ^ 63 <= i < 2 ^ 63 -> headChars (formatInt i) = true.
Proof.
  intros Hi. unfold formatInt.
  assert (Hpow : 2 ^ 63 < 10 ^ Z.of_nat 20) by (vm_compute; reflexivity).
  destruct (Z.ltb_spec i 0).
  - destruct (formatBits_digits 19 (- i) EmptyString) as (s & -> & Hd & _); [lia|].
    rewrite string_app_nil_r. simpl. now apply allDigits_headChars.
  - destruct (formatBits_digits 19 i EmptyString) as (s & -> & Hd & _); [lia|].
    rewrite string_app_nil_r. now apply allDigits_headChars.
Qed.

Lemma split_at_underscore (s t r r' : string) :
  headChars s = true -> headChars t = true ->
  (s ++ String "_" r = t ++ String "_" r')%string -> s = t /\ r = r'.
Proof.
  revert t. induction s as [|c s IH]; intros [|d t] Hs Ht; simpl.
  - intros [= ->]. now split.
  - intros [= <- _]. simpl in Ht. discriminate.
  - intros [= -> _]. simpl in Hs. discriminate.
  - simpl in Hs, Ht. apply andb_prop in Hs as [_ Hs].
    apply andb_prop in Ht as [_ Ht].
    intros [= -> Heq]. destruct (IH t Hs Ht Heq) as [-> ->]. now split.
Qed.

End KeyInjective.

(** X1.  Two [(id, timestamp)] pairs get the same storage key exactly when the
    ids are equal and the timestamps have the same [UnixNano]: the text
    [{unix_nanos}_{id}] can be read back without ambiguity, whatever
    characters the id contains. *)
Theorem key_injective (id id' : string) (t t' : time.Time) :
  buffer.key id t = buffer.key id' t' <->
  id = id' /\ time.UnixNano t = time.UnixNano t'.
Proof.
  split.
  - unfold buffer.key, time.UnixNano. intros H.
    apply split_at_underscore in H as [H1 H2];
      try (apply formatInt_headChars, wrap64_range).
    split; [exact H2|].
    apply formatInt_injective; auto using wrap64_range.
  - intros [-> H]. unfold buffer.key. now rewrite H.
Qed.

(** ** Store, Delete and the reads together *)

(** X2.  When no record sits under [e]'s key, [Store(e)] followed by
    [Delete(e.id, e.timestamp)] gives back the very bucket it started from,
    whether or not the store succeeded; and deleting a key twice is the same
    as deleting it once. *)
Theorem Store_Delete_restores `{codec : buffer.Codec} (e : buffer.Event)
    (b : buffer.Bucket) :
  buffer.ordered b ->
  buffer.Get (buffer.eventKey e) b = None ->
  fst (buffer.Delete (buffer.ID e) (buffer.Timestamp e) (fst (buffer.Store e b)))
  = b /\
  (forall id ts (b0 : buffer.Bucket),
     fst (buffer.Delete id ts (fst (buffer.Delete id ts b0)))
     = fst (buffer.Delete id ts b0)).
Proof.
  intros Hord Habs. split.
  - unfold buffer.Delete, buffer.Store. fold (buffer.eventKey e).
    destruct (buffer.marshal e); cbn [fst].
    + rewrite Remove_Put by assumption. now apply Remove_absent.
    + now apply Remove_absent.
  - intros id ts b0. unfold buffer.Delete. cbn [fst].
    apply Remove_absent, Get_Remove_eq.
Qed.

Lemma Store_Delete_restores_witness :
  let e := samples.ev "b" samples.t0 0 None in
  let b := samples.store1 (samples.ev "a" samples.t0 0 None) [] in
  fst (buffer.Delete (buffer.ID e) (buffer.Timestamp e)
         (fst (buffer.Store (codec := wire.codec) e b))) = b.
Proof.
  intros e b.
  assert (Hord : buffer.ordered b) by (apply orderedb_sound; reflexivity).
  assert (Habs : buffer.Get (buffer.eventKey e) b = None) by reflexivity.
  exact (proj1 (Store_Delete_restores (codec := wire.codec) e b Hord Habs)).
Defined.

(** X3.  A successful [Store(e)] can be read back: the record under [e]'s key
    decodes to [e], every other key keeps its record, the cursor order is
    kept, and [Count] grows by one exactly when the key was new. *)
Theorem Store_read_back `{codec : buffer.Codec} (e : buffer.Event)
    (b : buffer.Bucket) :
  spec.roundtrip codec -> buffer.ordered b -> buffer.marshal e <> None ->
  let b' := fst (buffer.Store e b) in
  snd (buffer.Store e b) = None /\
  buffer.ordered b' /\
  (exists v, buffer.Get (buffer.eventKey e) b' = Some v /\
             buffer.unmarshal v = Some e) /\
  In e (buffer.decoded b') /\
  (forall k, k <> buffer.eventKey e -> buffer.Get k b' = buffer.Get k b) /\
  fst (buffer.Count b')
  = fst (buffer.Count b)
    + match buffer.Get (buffer.eventKey e) b with Some _ => 0 | None => 1 end.
Proof.
  intros Hrt Hord Hm b'. unfold b', buffer.Store.
  destruct (buffer.marshal e) as [v|] eqn:Hv; [clear Hm | congruence].
  cbn [fst snd]. split; [reflexivity|].
  split; [now apply ordered_Put|].
  assert (Hget : buffer.Get (buffer.eventKey e)
                   (buffer.Put (buffer.eventKey e) v b) = Some v)
    by apply Get_Put_eq.
  split; [exists v; split; [exact Hget | now apply Hrt]|].
  split.
  { apply decoded_In. exists (buffer.eventKey e), v.
    split; [now apply Get_In | now apply Hrt]. }
  split; [intros k Hk; now apply Get_Put_ne|].
  unfold buffer.Count, buffer.KeyN. cbn [fst].
  rewrite length_Put by assumption.
  destruct (buffer.Get (buffer.eventKey e) b); lia.
Qed.

Lemma Store_read_back_witness :
  let e := samples.ev "b" samples.t0 0 None in
  let b := samples.store1 (samples.ev "a" samples.t0 0 None) [] in
  In e (buffer.decoded (codec := wire.codec)
          (fst (buffer.Store (codec := wire.codec) e b))).
Proof.
  intros e b.
  assert (Hord : buffer.ordered b) by (apply orderedb_sound; reflexivity).
  pose proof (Store_read_back (codec := wire.codec) e b wire_roundtrip Hord
                (wire_total e)) as H.
  exact (proj1 (proj2 (proj2 (proj2 H)))).
Defined.

(** X4.  Later write wins: storing [e2] over an event [e1] with the same id
    and the same [UnixNano] leaves exactly the bucket that storing [e2] alone
    gives; nothing of [e1] remains. *)
Theorem Store_later_write_wins `{codec : buffer.Codec} (e1 e2 : buffer.Event)
    (b : buffer.Bucket) :
  buffer.ID e1 = buffer.ID e2 ->
  time.UnixNano (buffer.Timestamp e1) = time.UnixNano (buffer.Timestamp e2) ->
  buffer.marshal e2 <> None ->
  fst (buffer.Store e2 (fst (buffer.Store e1 b))) = fst (buffer.Store e2 b).
Proof.
  intros Hid Hts Hm.
  assert (Hk : buffer.eventKey e1 = buffer.eventKey e2).
  { unfold buffer.eventKey, buffer.key. now rewrite Hid, Hts. }
  unfold buffer.Store.
  destruct (buffer.marshal e2) as [v2|]; [|congruence].
  destruct (buffer.marshal e1) as [v1|]; cbn [fst]; [|reflexivity].
  rewrite Hk. apply Put_Put.
Qed.

Lemma Store_later_write_wins_witness :
  let e1 := samples.ev "a" samples.t0 0 None in
  let e2 := samples.ev "a" samples.t0 7 (Some samples.t0) in
  buffer.decoded (codec := wire.codec)
    (fst (buffer.Store (codec := wire.codec) e2
            (fst (buffer.Store (codec := wire.codec) e1 []))))
  = [e2].
Proof.
  intros e1 e2.
  rewrite (Store_later_write_wins (codec := wire.codec) e1 e2 []).
  - reflexivity.
  - reflexivity.
  - reflexivity.
  - apply wire_total.
Defined.

(** X5.  Batch sizes are consistent: [GetBatch n] returns at most [n] events
    and none for [n <= 0]; a smaller batch is the prefix of a larger one; and
    [GetReadyEvents n] returns a prefix-bounded selection of the same decoded
    events, equal to [GetBatch n] when no stored event has a ready time. *)
Theorem GetBatch_prefix `{codec : buffer.Codec} (now : time.Time) (n m : Z)
    (b : buffer.Bucket) :
  Z.of_nat (List.length (fst (buffer.GetBatch n b))) <= Z.max 0 n /\
  (n <= 0 -> fst (buffer.GetBatch n b) = [] /\
             fst (buffer.GetReadyEvents now n b) = []) /\
  (n <= m ->
   fst (buffer.GetBatch n b) = firstn (Z.to_nat n) (fst (buffer.GetBatch m b)) /\
   fst (buffer.GetReadyEvents now n b)
   = firstn (Z.to_nat n) (fst (buffer.GetReadyEvents now m b))) /\
  (forall e, In e (fst (buffer.GetReadyEvents now n b)) ->
             In e (fst (buffer.GetBatch (fst (buffer.Count b)) b)) /\
             buffer.isReady now e = true) /\
  (Forall (fun e => buffer.RequestedReadyTime e = None) (buffer.decoded b) ->
   buffer.GetReadyEvents now n b = buffer.GetBatch n b).
Proof.
  rewrite !GetBatch_decoded, !GetReadyEvents_decoded. cbn [fst].
  split; [rewrite length_firstn; lia|].
  split.
  { intros Hn. replace (Z.to_nat n) with O by lia. now rewrite !firstn_O. }
  split.
  { intros Hnm. rewrite !firstn_firstn.
    replace (Nat.min (Z.to_nat n) (Z.to_nat m)) with (Z.to_nat n) by lia.
    now split. }
  split.
  { intros e He. apply firstn_In, filter_In in He as [He Hr].
    split; [|exact Hr].
    rewrite firstn_all2; [exact He|].
    unfold buffer.Count, buffer.KeyN. cbn [fst]. rewrite Nat2Z.id.
    apply length_decoded. }
  intros Hnil. do 2 f_equal.
  induction (buffer.decoded b) as [|e l IH]; [reflexivity|].
  inversion Hnil as [|? ? He Hl]; subst. simpl.
  unfold buffer.isReady at 1. rewrite He. f_equal. now apply IH.
Qed.

(** X6.  Readiness only grows with time: an event that [GetReadyEvents]
    accepts at [now] is accepted at every later instant, in both revisions of
    the predicate, so an unbounded scan at a later time returns at least the
    events an earlier one returned. *)
Theorem ready_stays_ready `{codec : buffer.Codec} (now later : time.Time)
    (b : buffer.Bucket) :
  now <= later ->
  (forall e, buffer.isReady now e = true -> buffer.isReady later e = true) /\
  (forall e, buffer.isReady_delayed now e = true ->
             buffer.isReady_delayed later e = true) /\
  (forall n e,
     fst (buffer.Count b) <= n ->
     In e (fst (buffer.GetReadyEvents now n b)) ->
     In e (fst (buffer.GetReadyEvents later n b))).
Proof.
  intros Hle.
  assert (H1 : forall e, buffer.isReady now e = true ->
                         buffer.isReady later e = true).
  { intros e. rewrite !isReady_window. unfold spec.readyWithin.
    destruct (buffer.RequestedReadyTime e); [|reflexivity].
    rewrite !Z.leb_le. lia. }
  split; [exact H1|]. split.
  - intros e. rewrite !isReady_delayed_window. unfold spec.readyWithin.
    destruct (buffer.RequestedReadyTime e); [|reflexivity].
    rewrite !Z.leb_le. lia.
  - intros n e Hn. rewrite !GetReadyEvents_decoded. cbn [fst].
    assert (Hall : forall f,
              firstn (Z.to_nat n) (filter f (buffer.decoded b))
              = filter f (buffer.decoded b)).
    { intros f. apply firstn_all2.
      pose proof (filter_length_le f (buffer.decoded b)).
      pose proof (length_decoded b).
      unfold buffer.Count, buffer.KeyN in Hn. cbn [fst] in Hn. lia. }
    rewrite !Hall, !filter_In. intros [Hin Hr]. split; auto.
Qed.

Lemma ready_stays_ready_witness :
  let e := samples.ev "a" samples.t0 0 (Some (samples.t0 + 20 * time.Minute)) in
  samples.t0 <= samples.t0 + time.Hour /\
  In e (fst (buffer.GetReadyEvents (codec := wire.codec)
               (samples.t0 + time.Hour) 5 (samples.store1 e []))).
Proof.
  intros e.
  assert (Hle : samples.t0 <= samples.t0 + time.Hour) by (vm_compute; congruence).
  split; [exact Hle|].
  apply (ready_stays_ready (codec := wire.codec) samples.t0
           (samples.t0 + time.Hour) (samples.store1 e []) Hle).
  - vm_compute. congruence.
  - vm_compute. left. reflexivity.
Defined.

(** ** Bulk reads *)

Section Bulk.
Import buffer.
Context {codec : Codec}.


Lemma scanBulk_state now (batchSize numBatches : Z) (recs : Bucket) :
  0 <= batchSize ->
  forall (batches : list (list Event)) (cur : list Event) (bc : Z),
    let k := bulkLen batchSize in
    (List.length cur < k)%nat ->
    Z.of_nat (List.length batches) = bc ->
    Forall (fun batch => List.length batch = k) batches ->
    (bc < numBatches \/ cur = []) -> bc <= Z.max 0 numBatches ->
    let '(batches', cur', bc') :=
      scanBulk now batchSize numBatches recs batches cur
        (Z.of_nat (List.length cur)) bc in
    (List.length cur' < k)%nat /\
    Z.of_nat (List.length batches') = bc' /\
    Forall (fun batch => List.length batch = k) batches' /\
    (bc' < numBatches \/ cur' = []) /\ bc' <= Z.max 0 numBatches /\
    List.concat batches' ++ cur'
    = List.concat batches ++ cur
      ++ firstn (Z.to_nat (numBatches - bc) * k - List.length cur)
           (filter (isReady_delayed now) (decoded recs)).
Proof.
  intros Hbs.
  induction recs as [|[key value] recs IH]; intros batches cur bc k Hcur Hlen
    Hall Hinv Hbc.
  - cbn [scanBulk decoded filter]. rewrite firstn_nil, app_nil_r.
    repeat split; auto.
  - cbn [scanBulk decoded].
    destruct (Z.ltb_spec bc numBatches) as [Hlt|Hge].
    + destruct (unmarshal value) as [event|]; [|now apply IH].
      cbn [filter].
      destruct (isReady_delayed now event) eqn:Hready; [|now apply IH].
      assert (Hpos : (0 < Z.to_nat (numBatches - bc) * k - List.length cur)%nat).
      { assert (1 <= Z.to_nat (numBatches - bc))%nat by lia.
        assert (k <= Z.to_nat (numBatches - bc) * k)%nat by nia. lia. }
      destruct (Z.to_nat (numBatches - bc) * k - List.length cur)%nat
        as [|room] eqn:Hroom; [lia|].
      cbn [firstn].
      destruct (Z.leb_spec batchSize (Z.of_nat (List.length cur) + 1)) as [Hfull|Hmore].
      * (* the batch is closed *)
        assert (Hk : List.length (cur ++ [event]) = k).
        { rewrite length_app. cbn [List.length]. unfold k, bulkLen in *. lia. }
        specialize (IH (batches ++ [cur ++ [event]]) [] (bc + 1)).
        cbn [List.length] in IH. change (Z.of_nat 0) with 0 in IH.
        fold k in IH.
        destruct (scanBulk now batchSize numBatches recs
                    (batches ++ [cur ++ [event]]) [] 0 (bc + 1))
          as [[batches' cur'] bc'].
        destruct IH as (H1 & H2 & H3 & H4 & H5 & H6).
        { unfold k, bulkLen. lia. }
        { rewrite length_app. cbn [List.length]. lia. }
        { apply Forall_app. split; [exact Hall | now repeat constructor]. }
        { now right. }
        { lia. }
        repeat (split; [assumption|]).
        rewrite H6, List.concat_app. cbn [List.concat]. rewrite app_nil_r, Nat.sub_0_r.
        rewrite <- !app_assoc. cbn [app]. do 3 f_equal.
        replace (Z.to_nat (numBatches - (bc + 1)) * k)%nat with room; [reflexivity|].
        rewrite length_app in Hk. cbn [List.length] in Hk. nia.
      * (* the batch goes on *)
        specialize (IH batches (cur ++ [event]) bc).
        rewrite length_app in IH. cbn [List.length] in IH.
        rewrite Nat2Z.inj_add in IH. change (Z.of_nat 1) with 1 in IH.
        fold k in IH.
        destruct (scanBulk now batchSize numBatches recs batches
                    (cur ++ [event]) (Z.of_nat (List.length cur) + 1) bc)
          as [[batches' cur'] bc'].
        destruct IH as (H1 & H2 & H3 & H4 & H5 & H6).
        { unfold k, bulkLen. lia. }
        { exact Hlen. }
        { exact Hall. }
        { now left. }
        { exact Hbc. }
        repeat (split; [assumption|]).
        rewrite H6, <- !app_assoc. cbn [app]. do 3 f_equal. f_equal. lia.
    + destruct Hinv as [Hinv| ->]; [lia|].
      cbn [List.length]. rewrite app_nil_r.
      replace (Z.to_nat (numBatches - bc)) with O by lia.
      cbn [Nat.mul Nat.sub firstn]. rewrite !app_nil_r.
      repeat split; auto.
Qed.

Lemma GetReadyEventsBulk_shape now (batchSize numBatches : Z) (b : Bucket) :
  0 <= batchSize -> 0 <= numBatches ->
  let k := bulkLen batchSize in
  exists (full : list (list Event)) (last : list Event),
    GetReadyEventsBulk now batchSize numBatches b
    = Some (full ++ match last with [] => [] | _ :: _ => [last] end, None) /\
    (List.length last < k)%nat /\
    Forall (fun batch => List.length batch = k) full /\
    Z.of_nat (List.length full) + match last with [] => 0 | _ :: _ => 1 end
    <= numBatches /\
    List.concat full ++ last
    = firstn (Z.to_nat numBatches * k)
        (filter (isReady_delayed now) (decoded b)).
Proof.
  intros Hb Hn k. unfold GetReadyEventsBulk.
  destruct (Z.ltb_spec numBatches 0) as [Hn'|_]; [lia|].
  destruct (Z.ltb_spec batchSize 0) as [Hb'|_]; [lia|].
  cbn [orb].
  pose proof (scanBulk_state now batchSize numBatches b Hb [] [] 0) as H.
  cbn [List.length] in H. change (Z.of_nat 0) with 0 in H. fold k in H.
  destruct (scanBulk now batchSize numBatches b [] [] 0 0)
    as [[batches cur] bc].
  destruct H as (H1 & H2 & H3 & H4 & H5 & H6).
  { unfold k, bulkLen; lia. }
  { reflexivity. }
  { apply Forall_nil. }
  { now right. }
  { lia. }
  cbn [List.concat app] in H6. rewrite Z.sub_0_r, Nat.sub_0_r in H6.
  exists batches, cur.
  split; [|split; [exact H1|split; [exact H3|split; [|exact H6]]]].
  - destruct cur as [|e cur].
    + change (0 <? Z.of_nat (List.length (@nil Event))) with false.
      cbn [andb]. now rewrite app_nil_r.
    + destruct H4 as [H4|H4]; [|discriminate].
      destruct (Z.ltb_spec 0 (Z.of_nat (List.length (e :: cur)))) as [_|Hc];
        [|cbn [List.length] in Hc; lia].
      destruct (Z.ltb_spec bc numBatches) as [_|Hc]; [|lia].
      reflexivity.
  - destruct cur; [lia|]. destruct H4 as [H4|H4]; [lia | discriminate].
Qed.

End Bulk.

(** X7.  [GetReadyEventsBulk batchSize numBatches] splits the ready events
    (window 0) into consecutive batches: their concatenation is the first
    [numBatches * max(1, batchSize)] ready events in key order, there are at
    most [numBatches] batches, none is empty, and each one but the last holds
    exactly [max(1, batchSize)] events.  A negative size or number makes the
    call panic. *)
Theorem GetReadyEventsBulk_batches `{codec : buffer.Codec} (now : time.Time)
    (batchSize numBatches : Z) (b : buffer.Bucket) :
  let k := Nat.max 1 (Z.to_nat batchSize) in
  if (numBatches <? 0) || (batchSize <? 0)
  then buffer.GetReadyEventsBulk now batchSize numBatches b = None
  else
    exists batches,
      buffer.GetReadyEventsBulk now batchSize numBatches b = Some (batches, None) /\
      List.concat batches
      = firstn (Z.to_nat numBatches * k)
          (filter (buffer.isReady_delayed now) (buffer.decoded b)) /\
      Z.of_nat (List.length batches) <= numBatches /\
      Forall (fun batch => (0 < List.length batch <= k)%nat) batches /\
      Forall (fun batch => List.length batch = k) (removelast batches).
Proof.
  intros k.
  destruct ((numBatches <? 0) || (batchSize <? 0)) eqn:Hneg.
  { unfold buffer.GetReadyEventsBulk. now rewrite Hneg. }
  apply orb_false_elim in Hneg as [Hn Hb]. apply Z.ltb_ge in Hn, Hb.
  destruct (GetReadyEventsBulk_shape now batchSize numBatches b Hb Hn)
    as (full & last & Hres & Hlast & Hfull & Hcount & Hcat).
  unfold buffer.bulkLen in *. fold k in Hlast, Hfull, Hcat.
  assert (Hk : (0 < k)%nat) by (unfold k; lia).
  assert (Hfull' : Forall (fun batch => (0 < List.length batch <= k)%nat) full).
  { eapply Forall_impl; [|exact Hfull]. intros batch Hbatch. cbn beta in *. lia. }
  eexists. split; [exact Hres|].
  destruct last as [|e last].
  - rewrite !app_nil_r in *. split; [exact Hcat|]. split; [lia|].
    split; [exact Hfull'|].
    clear - Hfull. induction Hfull as [|x l Hx Hl IH]; [constructor|].
    destruct l; [constructor|]. cbn [removelast].
    constructor; [exact Hx | exact IH].
  - split; [rewrite List.concat_app; cbn [List.concat]; now rewrite app_nil_r|].
    split; [rewrite length_app; cbn [List.length]; lia|].
    split.
    + apply Forall_app. split; [exact Hfull'|].
      constructor; [cbn [List.length] in *; lia | constructor].
    + rewrite removelast_last. exact Hfull.
Qed.

(** X8.  Asked for one batch of a positive size, [GetReadyEventsBulk] returns
    the events [GetReadyEvents] of the same revision returns, as a single
    batch (or no batch when nothing is ready). *)
Theorem GetReadyEventsBulk_single `{codec : buffer.Codec} (now : time.Time)
    (batchSize : Z) (b : buffer.Bucket) :
  0 < batchSize ->
  exists events,
    buffer.GetReadyEvents_delayed now batchSize b = Some (events, None) /\
    buffer.GetReadyEventsBulk now batchSize 1 b
    = Some (match events with [] => [] | _ :: _ => [events] end, None).
Proof.
  intros Hpos.
  destruct (GetReadyEventsBulk_shape now batchSize 1 b)
    as (full & last & Hres & Hlast & Hfull & Hcount & Hcat); try lia.
  unfold buffer.bulkLen in *.
  replace (Z.to_nat 1 * Nat.max 1 (Z.to_nat batchSize))%nat
    with (Z.to_nat batchSize) in Hcat by lia.
  exists (List.concat full ++ last).
  split.
  { unfold buffer.GetReadyEvents_delayed.
    destruct (Z.ltb_spec batchSize 0); [lia|].
    now rewrite scanReady_delayed_spec, Z.sub_0_r, Hcat. }
  rewrite Hres. do 2 f_equal.
  destruct full as [|batch [|batch' rest]].
  - cbn [List.concat app]. destruct last; reflexivity.
  - destruct last as [|e last]; [|cbn [List.length] in Hcount; lia].
    cbn [List.concat app]. rewrite !app_nil_r.
    inversion Hfull as [|? ? Hbatch _]; subst.
    destruct batch; [cbn [List.length] in Hbatch; lia | reflexivity].
  - cbn [List.length] in Hcount. destruct last; lia.
Qed.

Lemma GetReadyEventsBulk_single_witness :
  0 < 2 /\
  buffer.GetReadyEventsBulk (codec := wire.codec) samples.t0 2 1 samples.five
  = Some ([[samples.ev "e" samples.t0 0 None;
            samples.ev "e" (samples.t0 + 1) 0 None]], None).
Proof.
  split; [lia|].
  destruct (GetReadyEventsBulk_single (codec := wire.codec) samples.t0 2
              samples.five ltac:(lia)) as (events & Hev & Hbulk).
  rewrite Hbulk.
  assert (Hevents : events = [samples.ev "e" samples.t0 0 None;
                              samples.ev "e" (samples.t0 + 1) 0 None]).
  { assert (H : buffer.GetReadyEvents_delayed (codec := wire.codec)
                  samples.t0 2 samples.five
                = Some ([samples.ev "e" samples.t0 0 None;
                         samples.ev "e" (samples.t0 + 1) 0 None], None))
      by reflexivity.
    congruence. }
  now rewrite Hevents.
Defined.

(** ** Decoded events of a well-keyed bucket *)

Section Keyed.
Import buffer.
Context {codec : Codec}.

Lemma keyed_tail k v (b : Bucket) : keyed ((k, v) :: b) -> keyed b.
Proof. intros H k' v' e Hin. apply H. now right. Qed.

Lemma decoded_keys_incl (b : Bucket) e :
  keyed b -> In e (decoded b) -> In (eventKey e) (keys b).
Proof.
  intros Hk He. apply decoded_In in He as (k & v & Hin & Hdec).
  rewrite <- (Hk _ _ _ Hin Hdec). unfold keys.
  apply in_map_iff. now exists (k, v).
Qed.

Lemma decoded_sorted (b : Bucket) :
  ordered b -> keyed b -> StronglySorted lt_key (map eventKey (decoded b)).
Proof.
  induction b as [|[k v] b IH]; intros Hord Hk; [constructor|].
  apply ordered_inv in Hord as [Hord Hall].
  pose proof (keyed_tail _ _ _ Hk) as Hk'.
  cbn [decoded]. destruct (unmarshal v) as [e|] eqn:Hdec; [|now apply IH].
  cbn [map]. constructor; [now apply IH|].
  rewrite <- (Hk k v e (or_introl eq_refl) Hdec).
  rewrite Forall_forall in *. intros x Hx.
  apply in_map_iff in Hx as (e' & <- & He').
  now apply Hall, decoded_keys_incl.
Qed.

Lemma sorted_NoDup (l : list string) : StronglySorted lt_key l -> NoDup l.
Proof.
  induction 1 as [|a l Hs IH Hall]; constructor; [|exact IH].
  intros Hin. rewrite Forall_forall in Hall.
  now apply (string_lt_irrefl a), Hall.
Qed.

Lemma decoded_NoDup (b : Bucket) :
  ordered b -> keyed b -> NoDup (map eventKey (decoded b)).
Proof. intros Hord Hk. now apply sorted_NoDup, decoded_sorted. Qed.

Lemma decoded_Get (b : Bucket) e :
  ordered b -> keyed b -> In e (decoded b) ->
  exists v, Get (eventKey e) b = Some v /\ unmarshal v = Some e.
Proof.
  intros Hord Hk He. apply decoded_In in He as (k & v & Hin & Hdec).
  exists v. split; [|exact Hdec].
  rewrite <- (Hk _ _ _ Hin Hdec). now apply In_Get.
Qed.

Lemma keyed_Remove k (b : Bucket) : keyed b -> keyed (Remove k b).
Proof.
  intros Hk k' v e Hin. apply In_Remove in Hin as [Hin _]. now apply Hk.
Qed.

Lemma keyed_Put k v e (b : Bucket) :
  keyed b -> unmarshal v = Some e -> k = eventKey e -> keyed (Put k v b).
Proof.
  intros Hk Hdec -> k' v' e' Hin Hdec'.
  apply In_Put in Hin as [Heq|Hin]; [|now apply (Hk _ _ _ Hin)].
  injection Heq as -> ->. congruence.
Qed.

Lemma NoDup_firstn {A : Type} (n : nat) (l : list A) :
  NoDup l -> NoDup (firstn n l).
Proof.
  revert n. induction l as [|a l IH]; intros [|n] H; simpl; try constructor.
  - inversion H; subst. intros Hin. eauto using firstn_In.
  - inversion H; subst. now apply IH.
Qed.

End Keyed.

(** ** The scheduler's tasks *)

Section SchedulerFacts.
Import buffer.
Context {codec : Codec}.

Lemma processLoop_spec threshold (events : list Event) :
  forall (count : Z) (logs : list scheduler.logLine),
    let due := filter (fun e => match RequestedReadyTime e with
                                | Some t => negb (time.After t threshold)
                                | None => false
                                end) events in
    scheduler.processLoop threshold events count logs
    = (count + Z.of_nat (List.length due),
       logs ++ map (fun e => scheduler.LogScheduledReady (ID e)) due).
Proof.
  induction events as [|e events IH]; intros count logs; cbn [filter].
  - cbn. now rewrite Z.add_0_r, app_nil_r.
  - cbn [scheduler.processLoop].
    destruct (RequestedReadyTime e) as [t|]; [|apply IH].
    destruct (time.After t threshold); cbn [negb]; [apply IH|].
    rewrite IH. cbn [List.length map]. rewrite <- app_assoc. cbn [app].
    f_equal. lia.
Qed.

Lemma cleanupLoop_none cutoff (events : list Event) :
  forall (b : Bucket) (c : Z),
    (forall e, In e events -> scheduler.expired cutoff e = false) ->
    scheduler.cleanupLoop cutoff events b c = (b, c).
Proof.
  induction events as [|e events IH]; intros b c H; [reflexivity|].
  cbn [scheduler.cleanupLoop].
  rewrite (H e (or_introl eq_refl)). apply IH.
  intros e' He'. apply H. now right.
Qed.

Lemma cleanupLoop_count cutoff (events : list Event) :
  forall (b : Bucket) (c : Z),
    ordered b -> keyed b ->
    NoDup (map eventKey events) ->
    (forall e, In e events -> Get (eventKey e) b <> None) ->
    let r := scheduler.cleanupLoop cutoff events b c in
    ordered (fst r) /\ keyed (fst r) /\
    snd r = c + Z.of_nat (List.length (filter (scheduler.expired cutoff) events)) /\
    KeyN (fst r) = KeyN b - (snd r - c).
Proof.
  induction events as [|e events IH]; intros b c Hord Hk Hnd Hpres r.
  - unfold r. cbn. repeat split; auto; lia.
  - inversion Hnd as [|? ? Hnotin Hnd']; subst.
    unfold r. cbn [scheduler.cleanupLoop filter].
    destruct (scheduler.expired cutoff e).
    + cbn [Delete]. fold (eventKey e).
      destruct (IH (Remove (eventKey e) b) (c + 1)) as (H1 & H2 & H3 & H4).
      * now apply ordered_Remove.
      * now apply keyed_Remove.
      * exact Hnd'.
      * intros e' He'. rewrite Get_Remove_ne.
        -- apply Hpres. now right.
        -- intros Heq. apply Hnotin. rewrite <- Heq. now apply in_map.
      * repeat split; auto.
        -- rewrite H3. cbn [List.length]. lia.
        -- rewrite H4. unfold KeyN. rewrite length_Remove by assumption.
           pose proof (Hpres e (or_introl eq_refl)) as Hp.
           destruct (Get (eventKey e) b) eqn:Hg; [|congruence].
           destruct b; [discriminate|]. cbn [List.length Nat.pred]. lia.
    + apply IH; auto. intros e' He'. apply Hpres. now right.
Qed.

End SchedulerFacts.

(** X9.  [process_scheduled_events] reports as ready exactly the scheduled
    events (those with a ready time) among the first 1000 decodable ones that
    [GetReadyEvents] accepts at the same instant, in key order, and counts
    them; its test, "not after now + 30 min", is the buffer's "before or
    equal".  It returns no error. *)
Theorem processScheduledEvents_agrees `{codec : buffer.Codec}
    (now : time.Time) (b : buffer.Bucket) :
  let due :=
    filter (fun e => match buffer.RequestedReadyTime e with
                     | Some _ => buffer.isReady now e
                     | None => false
                     end)
           (firstn 1000 (buffer.decoded b)) in
  scheduler.processScheduledEventsTask now b
  = (map (fun e => scheduler.LogScheduledReady (buffer.ID e)) due
       ++ match due with
          | [] => []
          | _ :: _ => [scheduler.LogProcessed (Z.of_nat (List.length due))]
          end,
     None).
Proof.
  intros due. unfold scheduler.processScheduledEventsTask.
  rewrite GetBatch_decoded. cbn [fst snd].
  rewrite processLoop_spec. cbn [app Z.add].
  assert (Hdue :
    filter (fun e => match buffer.RequestedReadyTime e with
                     | Some t => negb (time.After t (time.Add now (30 * time.Minute)))
                     | None => false
                     end)
           (firstn (Z.to_nat 1000) (buffer.decoded b)) = due).
  { unfold due. change (Z.to_nat 1000) with 1000%nat.
    apply filter_ext. intros e. unfold buffer.isReady.
    destruct (buffer.RequestedReadyTime e) as [t|]; [|reflexivity].
    unfold time.After, time.Before, time.Equal, time.Add.
    destruct (Z.ltb_spec (now + 30 * time.Minute) t);
      destruct (Z.ltb_spec t (now + 30 * time.Minute));
      destruct (Z.eqb_spec t (now + 30 * time.Minute)); cbn; lia || reflexivity. }
  rewrite Hdue. f_equal.
  destruct due as [|e due']; [reflexivity|].
  destruct (Z.ltb_spec 0 (Z.of_nat (List.length (e :: due')))) as [_|H];
    [reflexivity|].
  cbn [List.length] in H. lia.
Qed.

(** X10.  The cleanup task looks no further than the first 1000 decodable
    events: when none of these is expired, it changes nothing, whatever lies
    behind them in the buffer. *)
Theorem cleanupTask_blocked `{codec : buffer.Codec} (now : time.Time)
    (b : buffer.Bucket) :
  (forall e, In e (firstn 1000 (buffer.decoded b)) ->
             scheduler.expired (now - 24 * time.Hour) e = false) ->
  scheduler.cleanupTask now b = (b, None).
Proof.
  intros H. unfold scheduler.cleanupTask.
  rewrite GetBatch_decoded. cbn [fst snd].
  replace (time.Add now (-24 * time.Hour)) with (now - 24 * time.Hour)
    by (unfold time.Add; lia).
  rewrite cleanupLoop_none; [reflexivity|].
  change (Z.to_nat 1000) with 1000%nat. exact H.
Qed.

Lemma cleanupTask_blocked_witness :
  let b := samples.store1 (samples.ev "b" (samples.t0 - 25 * time.Hour) 3 None)
             (samples.store1 (samples.ev "a" samples.t0 11 None) []) in
  scheduler.cleanupTask (codec := wire.codec) samples.t0 b = (b, None).
Proof.
  intros b.
  refine (cleanupTask_blocked (codec := wire.codec) samples.t0 b _).
  intros e He. vm_compute in He.
  destruct He as [<-|[<-|[]]]; reflexivity.
Defined.

(** X11.  On a buffer whose records sit under their events' keys, the cleanup
    task removes one record for every expired event among the first 1000
    decodable ones: [Count] drops by exactly that number, and the cursor order
    and the keying of the remaining records are kept. *)
Theorem cleanupTask_count `{codec : buffer.Codec} (now : time.Time)
    (b : buffer.Bucket) :
  buffer.ordered b -> buffer.keyed b ->
  let b' := fst (scheduler.cleanupTask now b) in
  buffer.ordered b' /\ buffer.keyed b' /\
  fst (buffer.Count b')
  = fst (buffer.Count b)
    - Z.of_nat (List.length
                  (filter (scheduler.expired (now - 24 * time.Hour))
                          (firstn 1000 (buffer.decoded b)))).
Proof.
  intros Hord Hk b'. unfold b', scheduler.cleanupTask.
  rewrite GetBatch_decoded. cbn [fst snd].
  replace (time.Add now (-24 * time.Hour)) with (now - 24 * time.Hour)
    by (unfold time.Add; lia).
  change (Z.to_nat 1000) with 1000%nat.
  destruct (cleanupLoop_count (now - 24 * time.Hour)
              (firstn 1000 (buffer.decoded b)) b 0 Hord Hk)
    as (H1 & H2 & H3 & H4).
  - rewrite <- firstn_map. apply NoDup_firstn. now apply decoded_NoDup.
  - intros e He. apply firstn_In in He.
    destruct (decoded_Get b e Hord Hk He) as (v & Hv & _). congruence.
  - split; [exact H1|]. split; [exact H2|].
    unfold buffer.Count. cbn [fst]. rewrite H4, H3. lia.
Qed.

Lemma cleanupTask_count_witness :
  let b := samples.store1 (samples.ev "b" (samples.t0 - 25 * time.Hour) 11 None)
             (samples.store1 (samples.ev "a" samples.t0 11 None) []) in
  fst (buffer.Count
         (fst (scheduler.cleanupTask (codec := wire.codec) samples.t0 b)))
  = fst (buffer.Count b)
    - Z.of_nat (List.length
                  (filter (scheduler.expired (samples.t0 - 24 * time.Hour))
                          (firstn 1000 (buffer.decoded (codec := wire.codec) b)))).
Proof.
  intros b.
  assert (Hord : buffer.ordered b) by (apply orderedb_sound; reflexivity).
  assert (Hk : buffer.keyed (codec := wire.codec) b)
    by (apply keyedb_sound; reflexivity).
  exact (proj2 (proj2 (cleanupTask_count (codec := wire.codec) samples.t0 b
                         Hord Hk))).
Defined.

(** ** A batch that is acknowledged *)

Section Acked.
Import buffer sync.
Context {codec : Codec}.
Variable RFC3339 : time.Time -> string.
Variable cfg : config.KafkaConfig.

Lemma deleteAll_bucket (events : list Event) :
  forall (b : Bucket) (tr : list action),
    fst (deleteAll events b tr) = spec.without events b.
Proof.
  unfold spec.without.
  induction events as [|e events IH]; intros b tr; [reflexivity|].
  cbn [deleteAll fold_left]. now rewrite IH.
Qed.

Lemma decoded_Remove k (b : Bucket) :
  keyed b ->
  decoded (Remove k b)
  = filter (fun e => negb (String.eqb k (eventKey e))) (decoded b).
Proof.
  induction b as [|[k0 v0] b IH]; intros Hk; [reflexivity|].
  pose proof (keyed_tail _ _ _ Hk) as Hk'.
  cbn [Remove].
  destruct (String.eqb k k0) eqn:Hkk; cbn [decoded];
    destruct (unmarshal v0) as [e|] eqn:Hdec; try (now apply IH).
  - cbn [filter]. rewrite <- (Hk k0 v0 e (or_introl eq_refl) Hdec), Hkk.
    cbn [negb]. now apply IH.
  - cbn [filter]. rewrite <- (Hk k0 v0 e (or_introl eq_refl) Hdec), Hkk.
    cbn [negb]. f_equal. now apply IH.
Qed.

Lemma without_facts (events : list Event) :
  forall b : Bucket,
    ordered b -> keyed b ->
    ordered (spec.without events b) /\ keyed (spec.without events b) /\
    decoded (spec.without events b)
    = filter (fun e => negb (existsb (fun e0 => String.eqb (eventKey e0) (eventKey e))
                                     events))
             (decoded b).
Proof.
  unfold spec.without.
  induction events as [|e0 events IH]; intros b Hord Hk; cbn [fold_left existsb].
  - repeat split; auto.
    clear. induction (decoded b) as [|e l IHl]; [reflexivity|].
    cbn [filter negb]. now f_equal.
  - destruct (IH (Remove (eventKey e0) b)) as (H1 & H2 & H3);
      [now apply ordered_Remove | now apply keyed_Remove|].
    repeat split; auto.
    rewrite H3, decoded_Remove by assumption.
    clear. induction (decoded b) as [|e l IHl]; [reflexivity|].
    cbn [filter]. destruct (String.eqb (eventKey e0) (eventKey e)); cbn [negb orb].
    + exact IHl.
    + cbn [filter]. destruct (existsb _ events); cbn [negb]; now rewrite IHl.
Qed.

Lemma without_length (events : list Event) :
  forall b : Bucket,
    ordered b ->
    NoDup (map eventKey events) ->
    (forall e, In e events -> Get (eventKey e) b <> None) ->
    KeyN (spec.without events b) = KeyN b - Z.of_nat (List.length events).
Proof.
  unfold spec.without.
  induction events as [|e events IH]; intros b Hord Hnd Hpres;
    cbn [fold_left List.length]; [lia|].
  inversion Hnd as [|? ? Hnotin Hnd']; subst.
  rewrite IH; [|now apply ordered_Remove | exact Hnd'|].
  - unfold KeyN. rewrite length_Remove by assumption.
    pose proof (Hpres e (or_introl eq_refl)) as Hp.
    destruct (Get (eventKey e) b) eqn:Hg; [|congruence].
    destruct b; [discriminate|]. cbn [List.length Nat.pred]. lia.
  - intros e' He'. rewrite Get_Remove_ne; [apply Hpres; now right|].
    intros Heq. apply Hnotin. rewrite <- Heq. now apply in_map.
Qed.

Lemma NoDup_keys_filter (keep : Event -> bool) (events : list Event) :
  NoDup (map eventKey events) -> NoDup (map eventKey (filter keep events)).
Proof.
  induction events as [|e events IH]; intros Hnd; [constructor|].
  inversion Hnd as [|? ? Hnotin Hnd']; subst. cbn [filter].
  destruct (keep e); [|now apply IH].
  cbn [map]. constructor; [|now apply IH].
  intros Hin. apply Hnotin.
  apply in_map_iff in Hin as (x & Hx & Hin).
  apply filter_In in Hin as [Hin _]. rewrite <- Hx. now apply in_map.
Qed.

Lemma filter_drop_prefix (l1 l2 : list Event) :
  NoDup (map eventKey (l1 ++ l2)) ->
  filter (fun e => negb (existsb (fun e0 => String.eqb (eventKey e0) (eventKey e)) l1))
         (l1 ++ l2) = l2.
Proof.
  intros Hnd.
  assert (H1 : forall e, In e l1 ->
            existsb (fun e0 => String.eqb (eventKey e0) (eventKey e)) l1 = true).
  { intros e He. apply existsb_exists. exists e. split; [exact He|].
    apply String.eqb_refl. }
  assert (H2 : forall e, In e l2 ->
            existsb (fun e0 => String.eqb (eventKey e0) (eventKey e)) l1 = false).
  { intros e He.
    destruct (existsb _ l1) eqn:E; [|reflexivity]. exfalso.
    apply existsb_exists in E as (e0 & He0 & Heq). apply String.eqb_eq in Heq.
    rewrite map_app in Hnd. revert Hnd He0 He Heq. clear.
    induction l1 as [|a l1 IH]; intros Hnd He0 He Heq; [destruct He0|].
    cbn [map app] in Hnd. inversion Hnd as [|? ? Hnotin Hnd']; subst.
    destruct He0 as [->|He0]; [|now apply IH].
    apply Hnotin, in_or_app. right. rewrite Heq. now apply in_map. }
  rewrite filter_app.
  replace (filter _ l1) with (@nil Event).
  - cbn [app]. clear H1 Hnd. induction l2 as [|e l2 IH]; [reflexivity|].
    cbn [filter]. rewrite (H2 e (or_introl eq_refl)). cbn [negb].
    f_equal. apply IH. intros e' He'. apply H2. now right.
  - clear H2 Hnd. symmetry.
    assert (Hgen : forall l, (forall e, In e l -> In e l1) ->
              filter (fun e => negb (existsb
                        (fun e0 => String.eqb (eventKey e0) (eventKey e)) l1)) l
              = []).
    { induction l as [|e l IH]; intros Hl; [reflexivity|].
      cbn [filter]. rewrite (H1 e (Hl e (or_introl eq_refl))). cbn [negb].
      apply IH. intros e' He'. apply Hl. now right. }
    apply Hgen. auto.
Qed.

Lemma filter_comm {A : Type} (p q : A -> bool) (l : list A) :
  filter p (filter q l) = filter q (filter p l).
Proof.
  induction l as [|a l IH]; [reflexivity|].
  cbn [filter]. destruct (p a) eqn:Hp, (q a) eqn:Hq; cbn [filter];
    rewrite ?Hp, ?Hq, IH; reflexivity.
Qed.

(** After the first [n] ready events are deleted, the ready events are the
    rest of the list. *)
Lemma readyAt_without now (n : nat) (b : Bucket) :
  ordered b -> keyed b ->
  let events := firstn n (spec.readyAt now b) in
  ordered (spec.without events b) /\ keyed (spec.without events b) /\
  spec.readyAt now (spec.without events b) = skipn n (spec.readyAt now b) /\
  KeyN (spec.without events b) = KeyN b - Z.of_nat (List.length events).
Proof.
  intros Hord Hk events.
  destruct (without_facts events b Hord Hk) as (H1 & H2 & H3).
  assert (Hnd : NoDup (map eventKey (spec.readyAt now b))).
  { unfold spec.readyAt. apply NoDup_keys_filter. now apply decoded_NoDup. }
  repeat split; auto.
  - unfold spec.readyAt at 1. rewrite H3, filter_comm.
    fold (spec.readyAt now b). unfold events.
    pose proof (filter_drop_prefix (firstn n (spec.readyAt now b))
                  (skipn n (spec.readyAt now b))) as Hd.
    rewrite firstn_skipn in Hd. exact (Hd Hnd).
  - apply without_length; [exact Hord | |].
    + unfold events. rewrite <- firstn_map. now apply NoDup_firstn.
    + intros e He. unfold events in He. apply firstn_In in He.
      apply filter_In in He as [He _].
      destruct (decoded_Get b e Hord Hk He) as (v & Hv & _). congruence.
Qed.

Variable world : World.

Lemma retryLoop_first_ack (messages : list Message) (remaining : nat)
    (tr : list action) :
  acked world 0 = true ->
  retryLoop world messages (S remaining) 0 time.Second tr
  = (Acked, tr ++ [Write messages true]).
Proof. intros H. cbn [retryLoop]. now rewrite H. Qed.

Lemma buildMessages_nonempty (events : list Event) e :
  In e events -> marshal e <> None -> buildMessages RFC3339 events <> [].
Proof.
  intros Hin Hm. destruct (marshal e) as [v|] eqn:Hv; [|congruence].
  destruct (buildMessages_In RFC3339 events e v Hin Hv) as (m & Hm' & _).
  intros Heq. rewrite Heq in Hm'. destruct Hm'.
Qed.

(** One batch against a downstream that acknowledges the first write. *)
Lemma syncBatch_acked now (b : Bucket) :
  spec.reencodes codec -> ordered b -> keyed b ->
  0 < config.Retries cfg -> acked world 0 = true ->
  let n := Z.to_nat (config.BatchSize cfg) in
  let events := firstn n (spec.readyAt now b) in
  syncBatch RFC3339 cfg world now b
  = (None, spec.without events b,
     GetReady (config.BatchSize cfg)
       :: match events with
          | [] => []
          | _ :: _ =>
              Write (buildMessages RFC3339 events) true
                :: map (fun e => Del (ID e) (Timestamp e)) events
          end).
Proof.
  intros Hre Hord Hk Hretries Hack n events.
  unfold syncBatch. rewrite GetReadyEvents_decoded.
  fold (spec.readyAt now b). fold n. fold events.
  unfold syncEvents.
  destruct events as [|e0 events0] eqn:Hev; [reflexivity|].
  rewrite <- Hev.
  assert (Hne : buildMessages RFC3339 events <> []).
  { apply (buildMessages_nonempty events e0); [rewrite Hev; now left|].
    assert (Hin : In e0 (decoded b)).
    { assert (H : In e0 events) by (rewrite Hev; now left).
      unfold events, spec.readyAt in H.
      now apply firstn_In, filter_In in H as [H _]. }
    apply decoded_In in Hin as (k & v & _ & Hdec).
    rewrite <- (withRetries_same e0). now apply (Hre v). }
  destruct (buildMessages RFC3339 events) as [|m0 ms] eqn:Hmsgs; [congruence|].
  rewrite <- Hmsgs. unfold writeWithRetry.
  destruct (Z.to_nat (config.Retries cfg)) as [|r] eqn:Hr; [lia|].
  rewrite retryLoop_first_ack by assumption.
  pose proof (deleteAll_bucket events b
                ([GetReady (config.BatchSize cfg)]
                   ++ [Write (buildMessages RFC3339 events) true])) as Hb.
  pose proof (deleteAll_trace events b
                ([GetReady (config.BatchSize cfg)]
                   ++ [Write (buildMessages RFC3339 events) true])) as Ht.
  destruct (deleteAll events b _) as [b2 tr2]. cbn [fst snd] in Hb, Ht.
  subst b2 tr2. reflexivity.
Qed.

End Acked.

Section Ticks.
Import buffer sync.
Context {codec : Codec}.
Variable RFC3339 : time.Time -> string.
Variable cfg : config.KafkaConfig.
Variable worlds : nat -> World.
Variable nows : nat -> time.Time.

Lemma filter_isDel_dels (events : list Event) :
  filter isDel (map (fun e => Del (ID e) (Timestamp e)) events)
  = map (fun e => Del (ID e) (Timestamp e)) events.
Proof.
  induction events as [|e l IH]; [reflexivity|].
  cbn [map filter isDel]. now f_equal.
Qed.

Lemma filter_isGetReady_batch (events : list Event) (n : Z) :
  filter isGetReady
    (GetReady n
       :: match events with
          | [] => []
          | _ :: _ =>
              Write (buildMessages RFC3339 events) true
                :: map (fun e => Del (ID e) (Timestamp e)) events
          end)
  = [GetReady n].
Proof.
  cbn [filter isGetReady]. f_equal.
  destruct events as [|e0 events0]; [reflexivity|].
  cbn [filter isGetReady].
  induction (e0 :: events0) as [|e l IH]; [reflexivity|]. exact IH.
Qed.

Lemma tickLoop_healthy now (left : nat) :
  spec.reencodes codec -> 0 < config.Retries cfg ->
  (forall i, acked (worlds i) 0 = true) -> (forall i, nows i = now) ->
  let n := Z.to_nat (config.BatchSize cfg) in
  forall (i : nat) (b : Bucket) (tr : list action),
    ordered b -> keyed b ->
    let r := tickLoop RFC3339 cfg worlds nows left i b tr in
    ordered (fst r) /\ keyed (fst r) /\
    spec.readyAt now (fst r) = skipn (left * n) (spec.readyAt now b) /\
    KeyN (fst r)
    = KeyN b - Z.of_nat (List.length (firstn (left * n) (spec.readyAt now b))) /\
    List.length (filter isGetReady (snd r))
    = (List.length (filter isGetReady tr) + left)%nat.
Proof.
  intros Hre Hretries Hack Hnow n.
  induction left as [|left IH]; intros i b tr Hord Hk r.
  - unfold r. cbn [tickLoop fst snd Nat.mul skipn firstn List.length].
    repeat split; auto; lia.
  - unfold r. cbn [tickLoop].
    rewrite (syncBatch_acked RFC3339 cfg (worlds i) (nows i) b Hre Hord Hk
               Hretries (Hack i)).
    rewrite Hnow. fold n.
    destruct (readyAt_without now n b Hord Hk) as (H1 & H2 & H3 & H4).
    destruct (IH (S i) (spec.without (firstn n (spec.readyAt now b)) b)
                 (tr ++ GetReady (config.BatchSize cfg)
                     :: match firstn n (spec.readyAt now b) with
                        | [] => []
                        | _ :: _ =>
                            Write (buildMessages RFC3339
                                     (firstn n (spec.readyAt now b))) true
                              :: map (fun e => Del (ID e) (Timestamp e))
                                     (firstn n (spec.readyAt now b))
                        end) H1 H2) as (G1 & G2 & G3 & G4 & G5).
    repeat split; auto.
    + rewrite G3, H3, skipn_skipn. f_equal. lia.
    + rewrite G4, H4, H3. rewrite !length_firstn, length_skipn. lia.
    + rewrite G5, filter_app, length_app, filter_isGetReady_batch.
      cbn [List.length]. lia.
Qed.

End Ticks.

(** X12.  A batch whose first write is acknowledged returns nil and deletes
    exactly the fetched events (the first BATCH_SIZE ready ones): the next
    [GetReadyEvents] continues where the batch ended, skipping nothing and
    repeating nothing, and [Count] drops by the number of events delivered. *)
Theorem syncBatch_delivers `{codec : buffer.Codec}
    (RFC3339 : time.Time -> string) (cfg : config.KafkaConfig)
    (world : sync.World) (now : time.Time) (b : buffer.Bucket) :
  spec.reencodes codec -> buffer.ordered b -> buffer.keyed b ->
  0 < config.Retries cfg -> sync.acked world 0 = true ->
  let n := Z.to_nat (config.BatchSize cfg) in
  let events := firstn n (spec.readyAt now b) in
  let '(err, b', tr) := sync.syncBatch RFC3339 cfg world now b in
  err = None /\
  fst (buffer.GetReadyEvents now (config.BatchSize cfg) b) = events /\
  filter sync.isDel tr
  = map (fun e => sync.Del (buffer.ID e) (buffer.Timestamp e)) events /\
  (forall m, fst (buffer.GetReadyEvents now m b')
             = firstn (Z.to_nat m) (skipn n (spec.readyAt now b))) /\
  fst (buffer.Count b') = fst (buffer.Count b) - Z.of_nat (List.length events) /\
  buffer.ordered b' /\ buffer.keyed b'.
Proof.
  intros Hre Hord Hk Hretries Hack n events.
  rewrite (syncBatch_acked RFC3339 cfg world now b Hre Hord Hk Hretries Hack).
  fold n. fold events.
  destruct (readyAt_without now n b Hord Hk) as (H1 & H2 & H3 & H4).
  fold events in H1, H2, H3, H4.
  split; [reflexivity|].
  split; [now rewrite GetReadyEvents_decoded|].
  split.
  { cbn [filter sync.isDel]. destruct events as [|e0 events0]; [reflexivity|].
    cbn [filter sync.isDel]. apply filter_isDel_dels. }
  split.
  { intros m. rewrite GetReadyEvents_decoded. cbn [fst].
    fold (spec.readyAt now (spec.without events b)). now rewrite H3. }
  split; [exact H4|]. now split.
Qed.

Lemma syncBatch_delivers_witness :
  let '(err, b', tr) :=
    sync.syncBatch (codec := wire.codec) samples.stamp
      (config.mkKafkaConfig 3 2) samples.healthy samples.t0 samples.five in
  err = None /\
  fst (buffer.GetReadyEvents (codec := wire.codec) samples.t0 10 b')
  = firstn 10 (skipn 2 (spec.readyAt (codec := wire.codec) samples.t0 samples.five)).
Proof.
  assert (Hord : buffer.ordered samples.five)
    by (apply orderedb_sound; reflexivity).
  assert (Hk : buffer.keyed (codec := wire.codec) samples.five)
    by (apply keyedb_sound; reflexivity).
  pose proof (syncBatch_delivers (codec := wire.codec) samples.stamp
                (config.mkKafkaConfig 3 2) samples.healthy samples.t0
                samples.five wire_reencodes Hord Hk eq_refl eq_refl) as H.
  cbv zeta in H.
  destruct (sync.syncBatch samples.stamp (config.mkKafkaConfig 3 2)
              samples.healthy samples.t0 samples.five) as [[err b'] tr].
  destruct H as (H1 & _ & _ & H4 & _).
  split; [exact H1 | exact (H4 10)].
Defined.

(** X13.  A tick while the monitor reports Offline does nothing.  A tick
    while Online, against a downstream that acknowledges every write, runs
    three batches and drains the first [3 * BATCH_SIZE] ready events in key
    order: the ready events left are the rest of the list. *)
Theorem onTick_drains `{codec : buffer.Codec}
    (RFC3339 : time.Time -> string) (cfg : config.KafkaConfig)
    (worlds : nat -> sync.World) (nows : nat -> time.Time)
    (now : time.Time) (b : buffer.Bucket) :
  spec.reencodes codec -> buffer.ordered b -> buffer.keyed b ->
  0 < config.Retries cfg ->
  (forall i, sync.acked (worlds i) 0 = true) -> (forall i, nows i = now) ->
  let n := Z.to_nat (config.BatchSize cfg) in
  sync.onTick RFC3339 cfg worlds nows false b = (b, []) /\
  let '(b', tr) := sync.onTick RFC3339 cfg worlds nows true b in
  spec.readyAt now b' = skipn (3 * n) (spec.readyAt now b) /\
  fst (buffer.Count b')
  = fst (buffer.Count b)
    - Z.of_nat (List.length (firstn (3 * n) (spec.readyAt now b))) /\
  List.length (filter sync.isGetReady tr) = 3%nat.
Proof.
  intros Hre Hord Hk Hretries Hack Hnow n.
  split; [reflexivity|].
  unfold sync.onTick.
  pose proof (tickLoop_healthy RFC3339 cfg worlds nows now 3 Hre Hretries
                Hack Hnow 0%nat b [] Hord Hk) as H.
  cbv zeta in H. fold n in H.
  destruct (sync.tickLoop RFC3339 cfg worlds nows 3 0 b []) as [b' tr].
  cbn [fst snd] in H. destruct H as (_ & _ & H3 & H4 & H5).
  split; [exact H3|]. split; [exact H4 | exact H5].
Qed.

Lemma onTick_drains_witness :
  let '(b', tr) :=
    sync.onTick (codec := wire.codec) samples.stamp (config.mkKafkaConfig 3 1)
      (fun _ => samples.healthy) (fun _ => samples.t0) true samples.five in
  spec.readyAt (codec := wire.codec) samples.t0 b'
  = skipn 3 (spec.readyAt (codec := wire.codec) samples.t0 samples.five).
Proof.
  assert (Hord : buffer.ordered samples.five)
    by (apply orderedb_sound; reflexivity).
  assert (Hk : buffer.keyed (codec := wire.codec) samples.five)
    by (apply keyedb_sound; reflexivity).
  pose proof (onTick_drains (codec := wire.codec) samples.stamp
                (config.mkKafkaConfig 3 1) (fun _ => samples.healthy)
                (fun _ => samples.t0) samples.t0 samples.five wire_reencodes
                Hord Hk eq_refl (fun _ => eq_refl) (fun _ => eq_refl)) as H.
  cbv zeta in H. destruct H as [_ H].
  destruct (sync.onTick samples.stamp (config.mkKafkaConfig 3 1)
              (fun _ => samples.healthy) (fun _ => samples.t0) true
              samples.five) as [b' tr].
  exact (proj1 H).
Defined.

(** ** A batch that is rejected *)

Section Rejected.
Import buffer sync.
Context {codec : Codec}.
Variable RFC3339 : time.Time -> string.
Variable cfg : config.KafkaConfig.
Variable world : World.

Lemma retryLoop_fails (messages : list Message) (remaining : nat) :
  (forall i, acked world i = false) -> (forall i, cancelled world i = false) ->
  forall attempt backoff tr,
    fst (retryLoop world messages remaining attempt backoff tr) = Offline \/
    fst (retryLoop world messages remaining attempt backoff tr) = Exhausted.
Proof.
  intros Hack Hcan.
  induction remaining as [|remaining IH]; intros attempt backoff tr;
    cbn [retryLoop]; [now right|].
  destruct attempt as [|i].
  - rewrite Hack. destruct (online world 0); [apply IH | now left].
  - rewrite Hcan, Hack. destruct (online world (S i)); [apply IH | now left].
Qed.

Lemma bumped_records (events : list Event) :
  spec.roundtrip codec -> spec.reencodes codec ->
  forall b : Bucket,
    ordered b -> keyed b ->
    NoDup (map eventKey events) ->
    (forall e, In e events ->
               exists v, Get (eventKey e) b = Some v /\ unmarshal v = Some e) ->
    ordered (spec.bumped events b) /\ keyed (spec.bumped events b) /\
    keys (spec.bumped events b) = keys b /\
    (forall e, In e events ->
       exists v', Get (eventKey e) (spec.bumped events b) = Some v' /\
                  unmarshal v' = Some (withRetries (int_add (Retries e) 1) e)) /\
    (forall k, (forall e, In e events -> k <> eventKey e) ->
               Get k (spec.bumped events b) = Get k b).
Proof.
  intros Hrt Hre. unfold spec.bumped.
  induction events as [|e events IH]; intros b Hord Hk Hnd Hpres.
  - cbn [fold_left]. repeat split; auto. intros e [].
  - inversion Hnd as [|? ? Hnotin Hnd']; subst.
    destruct (Hpres e (or_introl eq_refl)) as (v & Hget & Hdec).
    destruct (marshal (withRetries (int_add (Retries e) 1) e)) as [v'|] eqn:Hm;
      [|now apply (Hre v e (int_add (Retries e) 1)) in Hdec].
    assert (Hstep : fst (UpdateRetries (ID e) (Timestamp e)
                           (int_add (Retries e) 1) b)
                    = Put (eventKey e) v' b).
    { unfold UpdateRetries. fold (eventKey e). now rewrite Hget, Hdec, Hm. }
    cbn [fold_left]. rewrite Hstep.
    assert (Hdiff : forall e', In e' events -> eventKey e' <> eventKey e).
    { intros e' He' Heq. apply Hnotin. rewrite <- Heq. now apply in_map. }
    destruct (IH (Put (eventKey e) v' b)) as (H1 & H2 & H3 & H4 & H5).
    + now apply ordered_Put.
    + apply (keyed_Put _ _ (withRetries (int_add (Retries e) 1) e));
        [exact Hk | now apply Hrt | reflexivity].
    + exact Hnd'.
    + intros e' He'. rewrite Get_Put_ne by now apply Hdiff.
      apply Hpres. now right.
    + split; [exact H1|]. split; [exact H2|].
      split; [rewrite H3; apply keys_Put_present; [exact Hord | congruence]|].
      split.
      * intros e' [<-|He']; [|now apply H4].
        exists v'. split; [|now apply Hrt].
        rewrite H5; [apply Get_Put_eq|].
        intros e' He' Heq. now apply (Hdiff e' He').
      * intros k Hkk. rewrite H5.
        -- apply Get_Put_ne. apply Hkk. now left.
        -- intros e' He'. apply Hkk. now right.
Qed.

End Rejected.

(** X14.  A batch whose every write is rejected (and whose context is not
    cancelled) returns an error, deletes nothing and adds one to the retries
    of each fetched event: the record under each fetched event's key then
    decodes to that event with [retries + 1], every other record and the set
    of keys are as before. *)
Theorem syncBatch_rejected `{codec : buffer.Codec}
    (RFC3339 : time.Time -> string) (cfg : config.KafkaConfig)
    (world : sync.World) (now : time.Time) (b : buffer.Bucket) :
  spec.roundtrip codec -> spec.reencodes codec ->
  buffer.ordered b -> buffer.keyed b ->
  (forall i, sync.acked world i = false) ->
  (forall i, sync.cancelled world i = false) ->
  let events := fst (buffer.GetReadyEvents now (config.BatchSize cfg) b) in
  events <> [] ->
  let '(err, b', tr) := sync.syncBatch RFC3339 cfg world now b in
  err = Some (sync.WriteFailed (sync.AfterRetries (config.Retries cfg))) /\
  filter sync.isDel tr = [] /\
  buffer.keys b' = buffer.keys b /\
  (forall e, In e events ->
     exists v', buffer.Get (buffer.eventKey e) b' = Some v' /\
                buffer.unmarshal v'
                = Some (buffer.withRetries (int_add (buffer.Retries e) 1) e)) /\
  (forall k, (forall e, In e events -> k <> buffer.eventKey e) ->
             buffer.Get k b' = buffer.Get k b).
Proof.
  intros Hrt Hre Hord Hk Hack Hcan events Hne.
  assert (Hev : events = firstn (Z.to_nat (config.BatchSize cfg))
                           (spec.readyAt now b)).
  { unfold events. now rewrite GetReadyEvents_decoded. }
  assert (Hin : forall e, In e events -> In e (buffer.decoded b)).
  { intros e He. rewrite Hev in He. apply firstn_In in He.
    now apply filter_In in He as [He _]. }
  assert (Hnd : NoDup (map buffer.eventKey events)).
  { rewrite Hev, <- firstn_map. apply NoDup_firstn.
    apply NoDup_keys_filter. now apply decoded_NoDup. }
  assert (Hpres : forall e, In e events ->
            exists v, buffer.Get (buffer.eventKey e) b = Some v /\
                      buffer.unmarshal v = Some e).
  { intros e He. apply decoded_Get; auto. }
  destruct (bumped_records events Hrt Hre b Hord Hk Hnd Hpres)
    as (_ & _ & H3 & H4 & H5).
  unfold sync.syncBatch. rewrite GetReadyEvents_decoded.
  fold (spec.readyAt now b). rewrite <- Hev.
  unfold sync.syncEvents.
  destruct events as [|e0 events0] eqn:Hevents; [congruence|].
  rewrite <- Hevents in *.
  assert (Hmsgs : sync.buildMessages RFC3339 events <> []).
  { apply (buildMessages_nonempty RFC3339 events e0);
      [rewrite Hevents; now left|].
    destruct (Hpres e0) as (v & _ & Hdec); [rewrite Hevents; now left|].
    rewrite <- (withRetries_same e0). now apply (Hre v). }
  destruct (sync.buildMessages RFC3339 events) as [|m0 ms] eqn:Hb; [congruence|].
  rewrite <- Hb. unfold sync.writeWithRetry.
  pose proof (retryLoop_fails world (sync.buildMessages RFC3339 events)
                (Z.to_nat (config.Retries cfg)) Hack Hcan 0%nat time.Second
                [sync.GetReady (config.BatchSize cfg)]) as Hexit.
  pose proof (retryLoop_noDel world (sync.buildMessages RFC3339 events)
                (Z.to_nat (config.Retries cfg)) 0%nat time.Second
                [sync.GetReady (config.BatchSize cfg)]) as Hnodel.
  destruct (sync.retryLoop world (sync.buildMessages RFC3339 events)
              (Z.to_nat (config.Retries cfg)) 0 time.Second
              [sync.GetReady (config.BatchSize cfg)]) as [exit tr1].
  cbn [fst snd] in Hexit, Hnodel.
  assert (Hfilter : filter sync.isDel (tr1 ++ spec.bumps events) = []).
  { rewrite filter_app.
    assert (Hno : forall l, Forall sync.noDel l -> filter sync.isDel l = []).
    { induction l as [|a l IH]; intros Hl; [reflexivity|].
      inversion Hl as [|? ? Ha Hl']; subst. cbn [filter].
      unfold sync.noDel in Ha. rewrite Ha. now apply IH. }
    rewrite Hno by (apply Hnodel; now repeat constructor).
    unfold spec.bumps. clear. induction events; [reflexivity | exact IHevents]. }
  destruct Hexit as [-> | ->]; rewrite bumpRetries_spec;
    (split; [reflexivity|]); (split; [exact Hfilter|]);
    (split; [exact H3|]); (split; [exact H4 | exact H5]).
Qed.

Lemma syncBatch_rejected_witness :
  let '(err, b', tr) :=
    sync.syncBatch (codec := wire.codec) samples.stamp samples.defaults
      samples.rejecting samples.t0 samples.five in
  err = Some (sync.WriteFailed (sync.AfterRetries 3)) /\
  buffer.keys b' = buffer.keys samples.five.
Proof.
  assert (Hord : buffer.ordered samples.five)
    by (apply orderedb_sound; reflexivity).
  assert (Hk : buffer.keyed (codec := wire.codec) samples.five)
    by (apply keyedb_sound; reflexivity).
  assert (Hne : fst (buffer.GetReadyEvents (codec := wire.codec) samples.t0
                       (config.BatchSize samples.defaults) samples.five) <> [])
    by (vm_compute; discriminate).
  pose proof (syncBatch_rejected (codec := wire.codec) samples.stamp
                samples.defaults samples.rejecting samples.t0 samples.five
                wire_roundtrip wire_reencodes Hord Hk (fun _ => eq_refl)
                (fun _ => eq_refl) Hne) as H.
  destruct (sync.syncBatch samples.stamp samples.defaults samples.rejecting
              samples.t0 samples.five) as [[err b'] tr].
  destruct H as (H1 & _ & H3 & _).
  split; [exact H1 | exact H3].
Defined.

(** X15.  With KAFKA_RETRIES at or below zero no write is ever attempted:
    [writeWithRetry] goes straight to bumping the retries of every event and
    returns an error, and the first revision of [syncBatch], which uses the
    retry count as its batch size, fetches nothing and returns nil. *)
Theorem no_attempt_without_retries `{codec : buffer.Codec}
    (RFC3339 : time.Time -> string) (cfg : config.KafkaConfig)
    (world : sync.World) (messages : list sync.Message)
    (events : list buffer.Event) (now : time.Time) (b : buffer.Bucket) :
  config.Retries cfg <= 0 ->
  sync.writeWithRetry cfg world messages events b []
  = (Some (sync.AfterRetries (config.Retries cfg)), spec.bumped events b,
     spec.bumps events) /\
  sync.syncBatch_r1 RFC3339 cfg world now b
  = (None, b, [sync.GetReady (config.Retries cfg)]).
Proof.
  intros Hle. split.
  - unfold sync.writeWithRetry.
    replace (Z.to_nat (config.Retries cfg)) with O by lia.
    cbn [sync.retryLoop]. now rewrite bumpRetries_spec.
  - unfold sync.syncBatch_r1. rewrite GetReadyEvents_decoded.
    replace (Z.to_nat (config.Retries cfg)) with O by lia.
    reflexivity.
Qed.

Lemma no_attempt_without_retries_witness :
  config.Retries (config.mkKafkaConfig 0 1000) <= 0 /\
  sync.syncBatch_r1 (codec := wire.codec) samples.stamp
    (config.mkKafkaConfig 0 1000) samples.healthy samples.t0 samples.five
  = (None, samples.five, [sync.GetReady 0]).
Proof.
  assert (Hle : config.Retries (config.mkKafkaConfig 0 1000) <= 0)
    by (cbn; lia).
  split; [exact Hle|].
  exact (proj2 (no_attempt_without_retries (codec := wire.codec) samples.stamp
                  (config.mkKafkaConfig 0 1000) samples.healthy [] []
                  samples.t0 samples.five Hle)).
Defined.

(** ** The connectivity monitor *)

Section MonitorFacts.
Import monitor.

Lemma notify_length s (ws : list channel) :
  List.length (notify s ws) = List.length ws.
Proof. induction ws as [|w ws IH]; simpl; [reflexivity | now rewrite IH]. Qed.

Lemma notify_nth s (ws : list channel) (i : nat) :
  nth_error (notify s ws) i
  = match nth_error ws i with
    | Some (Some pending) => Some (Some pending)
    | Some None => Some (Some s)
    | None => None
    end.
Proof.
  revert i. induction ws as [|w ws IH]; intros [|i]; simpl; try reflexivity.
  - now destruct w.
  - apply IH.
Qed.

Lemma status_eqb_eq s s' : status_eqb s s' = true <-> s = s'.
Proof. destruct s, s'; simpl; split; congruence. Qed.

Lemma checkConnectivity_same (cm : ConnectivityMonitor) :
  checkConnectivity (IsOnline cm) cm = cm.
Proof.
  destruct cm as [[|] ws]; reflexivity.
Qed.

Lemma checkConnectivity_pending o (cm : ConnectivityMonitor) i s :
  nth_error (watchers cm) i = Some (Some s) ->
  nth_error (watchers (checkConnectivity o cm)) i = Some (Some s).
Proof.
  intros H. unfold checkConnectivity.
  destruct (negb _); cbn [watchers notifyWatchers status]; [|exact H].
  now rewrite notify_nth, H.
Qed.

Lemma receive_last (ws : list channel) st s :
  receive (List.length ws) (mkMonitor st (ws ++ [Some s]))
  = Some (s, mkMonitor st (ws ++ [None])).
Proof.
  unfold receive. cbn [watchers status].
  rewrite nth_error_app2, Nat.sub_diag by lia. cbn [nth_error].
  rewrite firstn_app, Nat.sub_diag, firstn_all, firstn_O, app_nil_r.
  rewrite skipn_all2 by (rewrite length_app; cbn; lia).
  reflexivity.
Qed.

Lemma receive_empty (ws : list channel) st :
  receive (List.length ws) (mkMonitor st (ws ++ [None])) = None.
Proof.
  unfold receive. cbn [watchers].
  now rewrite nth_error_app2, Nat.sub_diag by lia.
Qed.

Lemma waitLoop_online_empty (ws : list channel) (events : list waitEvent) :
  Forall (fun ev => ev = Probe true \/ ev = Recv) events ->
  waitLoop (List.length ws) events (mkMonitor StatusOnline (ws ++ [None]))
  = (Waiting, mkMonitor StatusOnline (ws ++ [None])).
Proof.
  induction 1 as [|ev events Hev _ IH]; [reflexivity|].
  destruct Hev as [-> | ->]; cbn [waitLoop].
  - exact IH.
  - rewrite receive_empty. exact IH.
Qed.

Lemma notify_app s (ws ws' : list channel) :
  notify s (ws ++ ws') = notify s ws ++ notify s ws'.
Proof. induction ws as [|w ws IH]; simpl; [reflexivity | now rewrite IH]. Qed.

End MonitorFacts.

(** X16.  A status waiting in a watcher's channel is never replaced: through
    any sequence of probes the channel keeps the status it holds, so a new
    subscription keeps the status of the moment of [Subscribe] until it is
    read, even after the monitor has moved on.  A probe that confirms the
    current status changes nothing at all, and an empty channel receives the
    new status exactly when the status changes. *)
Theorem pending_status_kept (cm : monitor.ConnectivityMonitor)
    (probes : list bool) :
  let run := fold_left (fun acc o => monitor.checkConnectivity o acc) probes in
  (forall i s,
     nth_error (monitor.watchers cm) i = Some (Some s) ->
     nth_error (monitor.watchers (run cm)) i = Some (Some s)) /\
  nth_error (monitor.watchers (run (fst (monitor.Subscribe cm))))
            (snd (monitor.Subscribe cm))
  = Some (Some (monitor.status cm)) /\
  monitor.checkConnectivity (monitor.IsOnline cm) cm = cm /\
  (forall o i,
     nth_error (monitor.watchers cm) i = Some None ->
     nth_error (monitor.watchers (monitor.checkConnectivity o cm)) i
     = Some (if Bool.eqb o (monitor.IsOnline cm) then None
             else Some (if o then monitor.StatusOnline
                        else monitor.StatusOffline))).
Proof.
  intros run.
  assert (Hrun : forall c i s,
            nth_error (monitor.watchers c) i = Some (Some s) ->
            nth_error (monitor.watchers (run c)) i = Some (Some s)).
  { unfold run. induction probes as [|o probes IH]; intros c i s H; [exact H|].
    cbn [fold_left]. apply IH. now apply checkConnectivity_pending. }
  split; [apply Hrun|]. split.
  { apply Hrun. unfold monitor.Subscribe. cbn [fst snd monitor.watchers].
    now rewrite nth_error_app2, Nat.sub_diag by lia. }
  split; [apply checkConnectivity_same|].
  intros o i H. unfold monitor.checkConnectivity, monitor.IsOnline.
  destruct cm as [[|] ws], o; cbn in *;
    rewrite ?notify_nth, H; reflexivity.
Qed.

(** X17.  [WaitForOnline] can miss the transition it waits for.  Called while
    Offline, it subscribes, and its channel is seeded with Offline; if the
    monitor goes Online before the waiter's first receive, the notification
    is dropped, the waiter reads the stale Offline, and it stays in its loop
    for as long as the monitor remains Online.  Had the receive come first,
    it would have returned nil. *)
Theorem WaitForOnline_misses_transition (cm : monitor.ConnectivityMonitor)
    (events : list monitor.waitEvent) :
  monitor.status cm = monitor.StatusOffline ->
  Forall (fun ev => ev = monitor.Probe true \/ ev = monitor.Recv) events ->
  (exists cm',
     monitor.WaitForOnline []
       (monitor.Probe true :: monitor.Recv :: events) cm
     = (monitor.Waiting, cm') /\
     monitor.IsOnline cm' = true) /\
  (exists cm',
     monitor.WaitForOnline []
       (monitor.Recv :: monitor.Probe true :: monitor.Recv :: events) cm
     = (monitor.ReturnedNil, cm')).
Proof.
  intros Hst Hev. destruct cm as [st ws]. cbn in Hst. subst st.
  unfold monitor.WaitForOnline, monitor.IsOnline, monitor.Subscribe.
  cbn [monitor.status monitor.status_eqb fold_left monitor.watchers].
  split.
  - exists (monitor.mkMonitor monitor.StatusOnline
              (monitor.notify monitor.StatusOnline ws ++ [None])).
    split; [|reflexivity].
    cbn [monitor.waitLoop].
    unfold monitor.checkConnectivity, monitor.notifyWatchers.
    cbn [monitor.status monitor.status_eqb negb monitor.watchers].
    rewrite notify_app. cbn [monitor.notify].
    rewrite <- (notify_length monitor.StatusOnline ws).
    rewrite receive_last. now apply waitLoop_online_empty.
  - cbn [monitor.waitLoop]. rewrite receive_last.
    unfold monitor.checkConnectivity, monitor.notifyWatchers.
    cbn [monitor.status monitor.status_eqb negb monitor.watchers].
    rewrite notify_app. cbn [monitor.notify].
    rewrite <- (notify_length monitor.StatusOnline ws).
    rewrite receive_last. eauto.
Qed.

Lemma WaitForOnline_misses_transition_witness :
  exists cm',
    monitor.WaitForOnline []
      [monitor.Probe true; monitor.Recv; monitor.Probe true; monitor.Recv]
      monitor.NewConnectivityMonitor
    = (monitor.Waiting, cm') /\
    monitor.IsOnline cm' = true.
Proof.
  refine (proj1 (WaitForOnline_misses_transition
                   monitor.NewConnectivityMonitor
                   [monitor.Probe true; monitor.Recv] eq_refl _)).
  constructor; [now left | constructor; [now right | constructor]].
Defined.

(** ** The probe's addresses *)

Section Addresses.

Lemma Split_noColon (s : string) :
  strings.IndexByte s ":" = false -> strings.Split s ":" = [s].
Proof.
  induction s as [|c s IH]; [reflexivity|].
  cbn [strings.IndexByte strings.Split]. intros H.
  apply orb_false_elim in H as [Hc Hs]. rewrite Hc, IH by exact Hs.
  reflexivity.
Qed.

Lemma Split_colon (h s : string) :
  strings.IndexByte h ":" = false ->
  strings.Split (h ++ String ":" s) ":" = h :: strings.Split s ":".
Proof.
  induction h as [|c h IH]; [reflexivity|].
  cbn [strings.IndexByte strings.Split String.append]. intros H.
  apply orb_false_elim in H as [Hc Hs]. rewrite Hc, IH by exact Hs.
  reflexivity.
Qed.

End Addresses.

(** X18.  [checkKafkaConnectivity] reports Online exactly when the dial to
    the address of some configured broker succeeds.  The address of a broker
    [host:port] is that same text, a broker without a colon gets port 9092,
    and whatever follows a second colon is ignored. *)
Theorem checkKafkaConnectivity_addresses (dial : string -> bool)
    (brokers : list string) (host port rest : string) :
  strings.IndexByte host ":" = false ->
  strings.IndexByte port ":" = false ->
  monitor.checkKafkaConnectivity dial brokers
  = existsb dial (map monitor.address brokers) /\
  monitor.address (host ++ ":" ++ port) = (host ++ ":" ++ port)%string /\
  monitor.address host = (host ++ ":9092")%string /\
  monitor.address (host ++ ":" ++ port ++ ":" ++ rest)
  = (host ++ ":" ++ port)%string.
Proof.
  intros Hh Hp. split; [|split; [|split]].
  - induction brokers as [|broker brokers IH]; [reflexivity|].
    cbn [monitor.checkKafkaConnectivity map existsb].
    destruct (dial (monitor.address broker)); [reflexivity | exact IH].
  - unfold monitor.address. cbn [String.append].
    rewrite (Split_colon host port Hh), (Split_noColon port Hp).
    cbn [hd]. unfold net.JoinHostPort. now rewrite Hh.
  - unfold monitor.address. rewrite (Split_noColon host Hh).
    cbn [hd]. unfold net.JoinHostPort. now rewrite Hh.
  - unfold monitor.address. cbn [String.append].
    rewrite (Split_colon host _ Hh), (Split_colon port rest Hp).
    cbn [hd]. unfold net.JoinHostPort. now rewrite Hh.
Qed.

Lemma checkKafkaConnectivity_addresses_witness :
  monitor.address "kafka:9093" = "kafka:9093"%string /\
  monitor.address "localhost" = "localhost:9092"%string /\
  monitor.address "a:9092,b:9092" = "a:9092,b"%string.
Proof.
  pose proof (checkKafkaConnectivity_addresses (fun _ => true) []
                "kafka" "9093" "" eq_refl eq_refl) as (_ & H1 & _ & _).
  pose proof (checkKafkaConnectivity_addresses (fun _ => true) []
                "localhost" "" "" eq_refl eq_refl) as (_ & _ & H2 & _).
  pose proof (checkKafkaConnectivity_addresses (fun _ => true) []
                "a" "9092,b" "9092" eq_refl eq_refl) as (_ & _ & _ & H3).
  split; [exact H1|]. split; [exact H2 | exact H3].
Defined.

(** ** The change-stream watcher *)

(** X19.  [handleChangeEvent] stores the same event whichever branch it
    takes: retries 0, the ingestion instant as timestamp, the ready time read
    from a string field [requestedReadyTime] of the full document and nothing
    else.  It takes the "delayed" branch exactly when [GetReadyEvents] would
    not select the event at that instant, and it fails exactly when [Store]
    does.  A [requestedReadyTime] that is present but not a string is
    dropped, and the event is eligible at once. *)
Theorem handleChangeEvent_stores `{codec : buffer.Codec}
    (parseRFC3339 : string -> option time.Time)
    (sprintv : monitor.Value -> string)
    (dataOf : monitor.ChangeStreamEvent -> string)
    (now1 now2 : time.Time) (event : monitor.ChangeStreamEvent)
    (b : buffer.Bucket) :
  let e := monitor.bufferEvent parseRFC3339 sprintv dataOf now1 event in
  let '(b', err, logs) :=
    monitor.handleChangeEvent parseRFC3339 sprintv dataOf now1 now2 event b in
  b' = fst (buffer.Store e b) /\
  buffer.Retries e = 0 /\ buffer.Timestamp e = now1 /\
  buffer.Operation e = monitor.OperationType event /\
  monitor.shouldDelay parseRFC3339 now2 event = negb (buffer.isReady now2 e) /\
  (err = None <-> buffer.marshal e <> None) /\
  logs = match buffer.marshal e with
         | None => []
         | Some _ => if buffer.isReady now2 e then [monitor.StoredImmediate]
                     else [monitor.StoredDelayed]
         end /\
  (forall doc repr,
     monitor.FullDocument event = Some doc ->
     monitor.lookup "requestedReadyTime" doc = Some (monitor.VOther repr) ->
     buffer.RequestedReadyTime e = None /\
     forall now, buffer.isReady now e = true).
Proof.
  intros e.
  assert (Hdelay : monitor.shouldDelay parseRFC3339 now2 event
                   = negb (buffer.isReady now2 e)).
  { unfold monitor.shouldDelay, buffer.isReady, e.
    cbn [monitor.bufferEvent buffer.RequestedReadyTime].
    destruct (monitor.requestedReadyTime parseRFC3339 event) as [t|];
      [|reflexivity].
    unfold time.After, time.Before, time.Equal, time.Add.
    destruct (Z.ltb_spec (now2 + 30 * time.Minute) t);
      destruct (Z.ltb_spec t (now2 + 30 * time.Minute));
      destruct (Z.eqb_spec t (now2 + 30 * time.Minute)); cbn; lia || reflexivity. }
  unfold monitor.handleChangeEvent. fold e. rewrite Hdelay.
  assert (Hfield : forall doc repr,
     monitor.FullDocument event = Some doc ->
     monitor.lookup "requestedReadyTime" doc = Some (monitor.VOther repr) ->
     buffer.RequestedReadyTime e = None /\
     forall now, buffer.isReady now e = true).
  { intros doc repr Hdoc Hlook.
    assert (Hnone : buffer.RequestedReadyTime e = None).
    { unfold e. cbn [monitor.bufferEvent buffer.RequestedReadyTime].
      unfold monitor.requestedReadyTime. now rewrite Hdoc, Hlook. }
    split; [exact Hnone|]. intros now. unfold buffer.isReady. now rewrite Hnone. }
  unfold buffer.Store.
  destruct (buffer.isReady now2 e); cbn [negb];
    destruct (buffer.marshal e) as [v|]; cbn [fst];
    (do 5 (split; [reflexivity|]));
    (split; [split; intro; congruence|]);
    (split; [reflexivity | exact Hfield]).
Qed.

(** ** UpdateRetries keeps the set of records *)

(** X20.  [UpdateRetries] never adds or removes a record: after any call the
    keys, and so [Count], are what they were; a call that returns an error
    (absent key, undecodable record, encoding failure) leaves the bucket
    untouched; and the cursor order is kept. *)
Theorem UpdateRetries_frame `{codec : buffer.Codec} (id : string)
    (timestamp : time.Time) (retries : Z) (b : buffer.Bucket) :
  buffer.ordered b ->
  let r := buffer.UpdateRetries id timestamp retries b in
  buffer.keys (fst r) = buffer.keys b /\
  fst (buffer.Count (fst r)) = fst (buffer.Count b) /\
  buffer.ordered (fst r) /\
  (snd r <> None -> fst r = b) /\
  (forall v, buffer.Get (buffer.key id timestamp) b = Some v ->
             buffer.unmarshal v = None ->
             r = (b, Some buffer.ErrUnmarshal)).
Proof.
  intros Hord r.
  destruct (UpdateRetries_keys id timestamp retries b Hord) as [H1 H2].
  fold r in H1, H2.
  split; [exact H2|]. split.
  { unfold buffer.Count, buffer.KeyN. cbn [fst].
    apply (f_equal (@List.length string)) in H2.
    unfold buffer.keys in H2. rewrite !length_map in H2. now rewrite H2. }
  split; [exact H1|]. split.
  - unfold r, buffer.UpdateRetries.
    destruct (buffer.Get (buffer.key id timestamp) b) as [value|]; [|reflexivity].
    destruct (buffer.unmarshal value) as [e|]; [|reflexivity].
    destruct (buffer.marshal (buffer.withRetries retries e)); [|reflexivity].
    cbn [snd]. congruence.
  - intros v Hget Hdec. unfold r, buffer.UpdateRetries. now rewrite Hget, Hdec.
Qed.

Lemma UpdateRetries_frame_witness :
  let b := samples.store1 (samples.ev "a" samples.t0 0 None) [("0_x"%string, [])] in
  buffer.keys (fst (buffer.UpdateRetries (codec := wire.codec) "x" 0 5 b))
  = buffer.keys b.
Proof.
  intros b.
  assert (Hord : buffer.ordered b) by (apply orderedb_sound; reflexivity).
  exact (proj1 (UpdateRetries_frame (codec := wire.codec) "x" 0 5 b Hord)).
Defined.
